(** * The EPKE solver (src/epke/epke_solver.cpp) as Rocq functions

    A shallow embedding of [epke::Solver]: its two constructors, the
    per-step helpers ([computeDT] ... [computeABC], [acceptTransformation]),
    the step loop [solve], [createFineSolver], [assembleGlobalOutput] and
    [buildXMLDoc]; and the methods [solve] reaches once more, with the calls
    of a run listed ([traced_solve]).

    - a C++ [double] is a binary64 [float] of the kernel, with the
      correctly rounded [+ - * / sqrt fabs] and the IEEE comparisons;
    - a [std::vector] is a [list]; [v.at(i)] is the checked lookup [at_]
      (it throws [std::out_of_range]), [v[i] = x] is the unchecked store
      [store] (outside the vector the behaviour is undefined);
    - a [const] method is a function of the solver into [result]; a method
      that writes members is a computation of the state-and-failure monad
      [M Solver]; [buildXMLDoc], which writes the document it is given, is
      one of [M xml_node];
    - [<cmath>]'s [exp] and [log] and the kernels of utility/interpolate.hpp
      ([E], [k0], [k1], [k2]), none of which is under src/, are the fields
      of a record [Externals] every definition is parameterised by; the
      text a stream gives a [double] is a parameter of [buildXMLDoc]. *)

From Stdlib Require Import ZArith Floats Lia.
From Stdlib Require Strings.String Numbers.DecimalString.
From stdpp Require Import base tactics option list list_numbers.
Import (notations) Strings.String.

Local Open Scope Z_scope.

(** ** Failures and the two monads *)

(** How a call can fail to return.
    - [out_of_range]: [std::vector::at] (and a checked accessor of the
      parameter or history provider) threw [std::out_of_range];
    - [terminate]: the bare [throw;] of [computeABC]; with no exception being
      handled it calls [std::terminate], it carries no value;
    - [undefined]: an unchecked [operator[]] store outside its vector. *)
Inductive failure : Set := out_of_range | terminate | undefined.

(** The outcome of a [const] method. *)
Inductive result (A : Type) : Type :=
| Good (a : A)
| Bad (f : failure).
Arguments Good {A} a.
Arguments Bad {A} f.

#[global] Instance result_ret : MRet result := fun A a => Good a.
#[global] Instance result_bind : MBind result :=
  fun A B k r => match r with Good a => k a | Bad f => Bad f end.

(** The outcome of a method that may write: the value or the failure, and
    in both cases the state of the object at that point. *)
Inductive outcome (S A : Type) : Type :=
| Ok (a : A) (s : S)
| Fail (f : failure) (s : S).
Arguments Ok {S A} a s.
Arguments Fail {S A} f s.

Definition M (S A : Type) : Type := S -> outcome S A.

#[global] Instance M_ret {S} : MRet (M S) := fun A a s => Ok a s.
#[global] Instance M_bind {S} : MBind (M S) :=
  fun A B k m s => match m s with Ok a s' => k a s' | Fail f s' => Fail f s' end.

Definition get {S} : M S S := fun s => Ok s s.
Definition put {S} (s : S) : M S unit := fun _ => Ok tt s.
Definition lift {S A} (r : result A) : M S A :=
  fun s => match r with Good a => Ok a s | Bad f => Fail f s end.

Definition state_of {S A} (o : outcome S A) : S :=
  match o with Ok _ s => s | Fail _ s => s end.
Definition failure_of {S A} (o : outcome S A) : option failure :=
  match o with Ok _ _ => None | Fail f _ => Some f end.

(** [for (int i = lo; i < hi; i++) body] with the locals the body updates
    threaded through as [a]; a failing iteration ends the loop. *)
Fixpoint for_each {S A} (body : Z -> A -> M S A) (ns : list Z) (a : A) : M S A :=
  match ns with
  | [] => mret a
  | n :: ns' => a' ← body n a; for_each body ns' a'
  end.

Definition for_range {S A} (lo hi : Z) (body : Z -> A -> M S A) (a : A) : M S A :=
  for_each body (seqZ lo (hi - lo)) a.

(** ** Vectors *)

(** [v.at(i)]: an index computed as [n - 1] at [n = 0] is negative here; as
    an unsigned index it would wrap to the largest value, which is beyond
    every vector as well. *)
Definition at_ {A} (v : list A) (i : Z) : result A :=
  if i <? 0 then Bad out_of_range
  else match v !! Z.to_nat i with
       | Some x => Good x
       | None => Bad out_of_range
       end.

Definition in_range {A} (v : list A) (i : Z) : bool :=
  (0 <=? i) && (i <? Z.of_nat (length v)).

(** [v[i] = x] *)
Definition store {A} (v : list A) (i : Z) (x : A) : result (list A) :=
  if in_range v i then Good (<[Z.to_nat i := x]> v) else Bad undefined.

(** [m[k][n] = x] *)
Definition store2 {A} (m : list (list A)) (k n : Z) (x : A) : result (list (list A)) :=
  if in_range m k then
    match m !! Z.to_nat k with
    | Some row => row' ← store row n x; mret (<[Z.to_nat k := row']> m)
    | None => Bad undefined
    end
  else Bad undefined.

(** [m.at(k).at(n)] *)
Definition at2 {A} (m : list (list A)) (k n : Z) : result A :=
  row ← at_ m k; at_ row n.

(** [using timeBins = std::vector<double>], [precBins<T> = std::vector<T>]. *)
Abbreviation timeBins := (list float).
Abbreviation precBins := list.

(** ** The providers *)

(** Modelled from the spec: the class EPKEParameters (parareal/solver_parameters.hpp)
    is not under src/.  Section 3 of the specification gives its content, the
    per-index arrays over the time grid and the scalar constants, and the
    calls of epke_solver.cpp give its accessors; an accessor outside its
    array fails as a checked access does. *)
Record EPKEParameters : Type := {
  time : timeBins;
  gen_time : timeBins;
  pow_norm : timeBins;
  rho_imp : timeBins;
  beta_eff : timeBins;
  lambda_h : timeBins;
  decay_constant : precBins timeBins;
  delayed_fraction : precBins timeBins;
  theta : float;
  gamma_d : float;
  eta : float
}.

(** Modelled from the spec: the accessors of EPKEParameters, not under src/,
    by the names epke_solver.cpp calls them with.  The step count is the
    length of the time grid (section 3), the number of precursor groups the
    number of rows of the decay constants. *)
Module Params.
Definition getNumTimeSteps (p : EPKEParameters) : Z := Z.of_nat (length (time p)).
Definition getNumPrecursors (p : EPKEParameters) : Z := Z.of_nat (length (decay_constant p)).
Definition getTime p n := at_ (time p) n.
Definition getGenTime p n := at_ (gen_time p) n.
Definition getPowNorm p n := at_ (pow_norm p) n.
Definition getRhoImp p n := at_ (rho_imp p) n.
Definition getBetaEff p n := at_ (beta_eff p) n.
Definition getLambdaH p n := at_ (lambda_h p) n.
Definition getDecayConstant p k n := at2 (decay_constant p) k n.
Definition getDelayedFraction p k n := at2 (delayed_fraction p) k n.
Definition getTheta := theta.
Definition getGammaD := gamma_d.
Definition getEta := eta.
End Params.

(** The history provider: [solve] builds one from the three history vectors
    (epke_solver.cpp:247). *)
Record EPKEOutput : Type := {
  out_power : timeBins;
  out_rho : timeBins;
  out_concentrations : precBins timeBins
}.

(** Modelled from the spec: the accessors of EPKEOutput, not under src/.
    Section 6: the step count of the available prefix and [power(n)],
    [rho(n)], [concentration(k,n)] for [n] within the prefix; outside it an
    accessor fails as a checked access does. *)
Module Precomp.
Definition getNumTimeSteps (h : EPKEOutput) : Z := Z.of_nat (length (out_power h)).
Definition getPower h n := at_ (out_power h) n.
Definition getRho h n := at_ (out_rho h) n.
Definition getConcentration h k n := at2 (out_concentrations h) k n.
End Precomp.

(** Modelled from the spec: [para::SolverOutput], the type the result
    pointers are declared with, is not under src/.  Section 4.4 has the
    assembler pass its input through: a [SolverOutput] made from an
    [EPKEOutput] carries that [EPKEOutput]. *)
Definition SolverOutput := EPKEOutput.

(** What the solver calls and src/ does not define. *)
Record Externals : Type := {
  exp : float -> float;                              (* <cmath> *)
  log : float -> float;                              (* <cmath> *)
  E : float -> float -> float;                       (* util::E *)
  k0 : float -> float -> float;                      (* util::k0 *)
  k1 : float -> float -> float;                      (* util::k1 *)
  k2 : float -> float -> float;                      (* util::k2 *)
  interpolate : EPKEParameters -> timeBins -> EPKEParameters;
  createPrecomputed : EPKEOutput -> Z -> EPKEOutput
}.

(** ** The solver object *)

(** A [Solver::ptr] is an index into the store of solver objects. *)
Definition ptr := nat.

Record Solver : Type := {
  params : EPKEParameters;
  precomp : EPKEOutput;
  power : timeBins;
  rho : timeBins;
  omega : precBins float;
  zeta_hat : precBins float;
  concentrations : precBins timeBins;
  _fine_solvers : list ptr
}.

Definition with_power (v : timeBins) (s : Solver) : Solver :=
  {| params := params s; precomp := precomp s; power := v; rho := rho s;
     omega := omega s; zeta_hat := zeta_hat s;
     concentrations := concentrations s; _fine_solvers := _fine_solvers s |}.
Definition with_rho (v : timeBins) (s : Solver) : Solver :=
  {| params := params s; precomp := precomp s; power := power s; rho := v;
     omega := omega s; zeta_hat := zeta_hat s;
     concentrations := concentrations s; _fine_solvers := _fine_solvers s |}.
Definition with_omega (v : precBins float) (s : Solver) : Solver :=
  {| params := params s; precomp := precomp s; power := power s; rho := rho s;
     omega := v; zeta_hat := zeta_hat s;
     concentrations := concentrations s; _fine_solvers := _fine_solvers s |}.
Definition with_zeta_hat (v : precBins float) (s : Solver) : Solver :=
  {| params := params s; precomp := precomp s; power := power s; rho := rho s;
     omega := omega s; zeta_hat := v;
     concentrations := concentrations s; _fine_solvers := _fine_solvers s |}.
Definition with_concentrations (v : precBins timeBins) (s : Solver) : Solver :=
  {| params := params s; precomp := precomp s; power := power s; rho := rho s;
     omega := omega s; zeta_hat := zeta_hat s;
     concentrations := v; _fine_solvers := _fine_solvers s |}.
Definition with_fine_solvers (v : list ptr) (s : Solver) : Solver :=
  {| params := params s; precomp := precomp s; power := power s; rho := rho s;
     omega := omega s; zeta_hat := zeta_hat s;
     concentrations := concentrations s; _fine_solvers := v |}.

(** The member stores [power[n] = x], [rho[n] = x], [omega[k] = x],
    [zeta_hat[k] = x] and [concentrations[k][n] = x]. *)
Definition set_power (n : Z) (x : float) : M Solver unit :=
  s ← get; v ← lift (store (power s) n x); put (with_power v s).
Definition set_rho (n : Z) (x : float) : M Solver unit :=
  s ← get; v ← lift (store (rho s) n x); put (with_rho v s).
Definition set_omega (k : Z) (x : float) : M Solver unit :=
  s ← get; v ← lift (store (omega s) k x); put (with_omega v s).
Definition set_zeta_hat (k : Z) (x : float) : M Solver unit :=
  s ← get; v ← lift (store (zeta_hat s) k x); put (with_zeta_hat v s).
Definition set_concentration (k n : Z) (x : float) : M Solver unit :=
  s ← get; v ← lift (store2 (concentrations s) k n x); put (with_concentrations v s).

(** ** The methods of [epke::Solver] *)

Section Methods.
Context (X : Externals).

Local Open Scope float_scope.

(** The members as the initialiser list of the constructor leaves them:
    vectors of the given sizes, filled with [0.0]. *)
Definition Solver_init (p : EPKEParameters) (h : EPKEOutput) : Solver :=
  let N := Z.to_nat (Params.getNumTimeSteps p) in
  let K := Z.to_nat (Params.getNumPrecursors p) in
  {| params := p; precomp := h;
     power := replicate N 0; rho := replicate N 0;
     omega := replicate K 0; zeta_hat := replicate K 0;
     concentrations := replicate K (replicate N 0);
     _fine_solvers := [] |}.

(** The body of [Solver::Solver(const EPKEParameters&, const EPKEOutput&)]. *)
Definition Solver_body : M Solver unit :=
  s ← get;
  (* set the initial concentration histories *)
  for_range 0 (Params.getNumPrecursors (params s)) (fun k _ =>
    for_range 0 (Precomp.getNumTimeSteps (precomp s)) (fun n _ =>
      x ← lift (Precomp.getConcentration (precomp s) k n);
      set_concentration k n x) tt) tt;;
  (* set the initial power histories and rho histories *)
  for_range 0 (Precomp.getNumTimeSteps (precomp s)) (fun n _ =>
    x ← lift (Precomp.getPower (precomp s) n);
    set_power n x;;
    y ← lift (Precomp.getRho (precomp s) n);
    set_rho n y) tt.

Definition Solver_new (p : EPKEParameters) (h : EPKEOutput) : outcome Solver unit :=
  Solver_body (Solver_init p h).

(** [assembleGlobalOutput]: [make_shared<para::SolverOutput>(precomp)]. *)
Definition assembleGlobalOutput (s : Solver) : SolverOutput := precomp s.

Definition computeDT (s : Solver) (n : Z) : result float :=
  t1 ← Params.getTime (params s) n;
  t0 ← Params.getTime (params s) (n - 1);
  mret (t1 - t0).

Definition computeGamma (s : Solver) (n : Z) : result float :=
  if (n <? 2)%Z then mret 1
  else
    d1 ← computeDT s (n - 1);
    d0 ← computeDT s n;
    mret (d1 / d0).

Definition computeOmega (s : Solver) (k n : Z) (w gamma : float) : result float :=
  lambda_k ← Params.getDecayConstant (params s) k n;
  dt ← computeDT s n;
  g0 ← Params.getGenTime (params s) 0;
  gn ← Params.getGenTime (params s) n;
  beta ← Params.getDelayedFraction (params s) k n;
  mret (g0 / gn * beta * w *
        (k2 X lambda_k dt + gamma * dt * k1 X lambda_k dt) / ((1 + gamma) * dt * dt)).

Definition computeZetaHat (s : Solver) (k n : Z) (w gamma : float) : result float :=
  lambda_k ← Params.getDecayConstant (params s) k n;
  dt ← computeDT s n;
  '(beta_prev_prev, power_prev_prev, gen_time_prev_prev) ←
    (if (n <? 2)%Z then
       b ← Params.getDelayedFraction (params s) k (n - 1);
       p ← at_ (power s) (n - 1);
       g ← Params.getGenTime (params s) (n - 1);
       mret (b, p, g)
     else
       b ← Params.getDelayedFraction (params s) k (n - 2);
       p ← at_ (power s) (n - 2);
       g ← Params.getGenTime (params s) (n - 2);
       mret (b, p, g));
  c1 ← at2 (concentrations s) k (n - 1);
  g0 ← Params.getGenTime (params s) 0;
  p1 ← at_ (power s) (n - 1);
  b1 ← Params.getDelayedFraction (params s) k (n - 1);
  g1 ← Params.getGenTime (params s) (n - 1);
  mret (w * c1 +
        w * g0 * p1 * b1 / g1 *
        (k0 X lambda_k dt - (k2 X lambda_k dt - dt * (gamma - 1) * k1 X lambda_k dt) /
                            (gamma * dt * dt)) +
        w * g0 * power_prev_prev * beta_prev_prev / gen_time_prev_prev *
        (k2 X lambda_k dt - dt * k1 X lambda_k dt) /
        ((1 + gamma) * gamma * dt * dt)).

(** [computeA1B1] is not declared [const], but it writes no member. *)
Definition computeA1B1 (s : Solver) (n : Z) (gamma : float) : result (float * float) :=
  lh ← Params.getLambdaH (params s) n;
  dt ← computeDT s n;
  H_prev_prev ←
    (if (n <? 2)%Z then
       f ← Params.getPowNorm (params s) (n - 1);
       p ← at_ (power s) (n - 1);
       mret (f * p)
     else
       f ← Params.getPowNorm (params s) (n - 2);
       p ← at_ (power s) (n - 2);
       mret (f * p));
  fn ← Params.getPowNorm (params s) n;
  let gd := Params.getGammaD (params s) in
  let a1 := gd * fn / E X lh dt * (k2 X lh dt + k1 X lh dt * gamma * dt) /
            ((1 + gamma) * dt * dt) in
  ri ← Params.getRhoImp (params s) n;
  r1 ← at_ (rho s) (n - 1);
  ri1 ← Params.getRhoImp (params s) (n - 1);
  p0 ← at_ (power s) 0;
  f1 ← Params.getPowNorm (params s) (n - 1);
  p1 ← at_ (power s) (n - 1);
  let b1 := ri + 1 / E X lh dt *
            ((r1 - ri1) - p0 * gd * Params.getEta (params s) * k0 X lh dt) +
            gd / E X lh dt *
            (f1 * p1 *
             (k0 X lh dt - (k2 X lh dt + (gamma - 1) * dt * k1 X lh dt) /
                           (gamma * dt * dt)) +
             H_prev_prev * (k2 X lh dt - k1 X lh dt * dt) /
             ((1 + gamma) * gamma * dt * dt)) in
  mret (a1, b1).

(** The coefficients [a], [b], [c] of [computeABC]. *)
Definition quadratic (s : Solver) (n : Z) (alpha : float) (a1b1 : float * float)
    (tau s_hat_d s_d_prev : float) : result (float * float * float) :=
  dt ← computeDT s n;
  let th := Params.getTheta (params s) in
  gn ← Params.getGenTime (params s) n;
  let a := th * dt * a1b1.1 / gn in
  be ← Params.getBetaEff (params s) n;
  g0 ← Params.getGenTime (params s) 0;
  let b := th * dt * (((a1b1.2 - be) / gn - alpha) + tau / g0) - 1 in
  r1 ← at_ (rho s) (n - 1);
  be1 ← Params.getBetaEff (params s) (n - 1);
  g1 ← Params.getGenTime (params s) (n - 1);
  p1 ← at_ (power s) (n - 1);
  let c := th * dt / g0 * s_hat_d +
           exp X (alpha * dt) *
           ((1 - th) * dt * (((r1 - be1) / g1 - alpha) * p1 + s_d_prev / g0) + p1) in
  mret (a, b, c).

(** The three branches on [a] that end [computeABC]. *)
Definition select_root (a b c : float) : result float :=
  if a <? 0 then mret ((- b - sqrt (b * b - 4 * a * c)) / (2 * a))
  else if a =? 0 then mret (- c / b)
  else Bad terminate.

Definition computeABC (s : Solver) (n : Z) (alpha : float) (a1b1 : float * float)
    (tau s_hat_d s_d_prev : float) : result float :=
  '(a, b, c) ← quadratic s n alpha a1b1 tau s_hat_d s_d_prev;
  select_root a b c.

(** One pass of the loop of [computePower] over the precursor group [k]. *)
Definition computePower_group (n : Z) (gamma : float) (k : Z)
    (acc : float * float * float) : M Solver (float * float * float) :=
  let '(tau, s_hat_d, s_d_prev) := acc in
  s ← get;
  lam ← lift (Params.getDecayConstant (params s) k n);
  dt ← lift (computeDT s n);
  let w := 1 / E X lam dt in
  om ← lift (computeOmega s k n w gamma);
  set_omega k om;;
  s ← get;
  zh ← lift (computeZetaHat s k n w gamma);
  set_zeta_hat k zh;;
  (* accumulate the weighted sum *)
  s ← get;
  l1 ← lift (Params.getDecayConstant (params s) k n);
  omk ← lift (at_ (omega s) k);
  l2 ← lift (Params.getDecayConstant (params s) k n);
  zhk ← lift (at_ (zeta_hat s) k);
  l3 ← lift (Params.getDecayConstant (params s) k (n - 1));
  c1 ← lift (at2 (concentrations s) k (n - 1));
  mret (tau + l1 * omk, s_hat_d + l2 * zhk, s_d_prev + l3 * c1).

Definition computePower (n : Z) (alpha gamma : float) : M Solver float :=
  s ← get;
  '(tau, s_hat_d, s_d_prev) ←
    for_range 0 (Params.getNumPrecursors (params s)) (computePower_group n gamma) (0, 0, 0);
  s ← get;
  a1b1 ← lift (computeA1B1 s n gamma);
  lift (computeABC s n alpha a1b1 tau s_hat_d s_d_prev).

(** [computePower] up to the coefficients [a], [b], [c] it has [computeABC]
    branch on. *)
Definition computePower_quadratic (n : Z) (alpha gamma : float)
    : M Solver (float * float * float) :=
  s ← get;
  '(tau, s_hat_d, s_d_prev) ←
    for_range 0 (Params.getNumPrecursors (params s)) (computePower_group n gamma) (0, 0, 0);
  s ← get;
  a1b1 ← lift (computeA1B1 s n gamma);
  lift (quadratic s n alpha a1b1 tau s_hat_d s_d_prev).

(** returns true if the transformation criterion is met *)
Definition acceptTransformation (s : Solver) (n : Z) (alpha gamma : float) : result bool :=
  power_prev_prev ← (if (n <? 2)%Z then at_ (power s) (n - 1) else at_ (power s) (n - 2));
  pn ← at_ (power s) n;
  dt ← computeDT s n;
  p1 ← at_ (power s) (n - 1);
  let lhs := abs (pn - exp X (alpha * dt) * p1) in
  let rhs := abs (pn - p1 - (p1 - power_prev_prev) / gamma) in
  mret (lhs <=? rhs).

(** The transformation parameter of step [n]: [alpha] is a local of [solve]
    declared before the loop and reassigned only under [n > 1]. *)
Definition solve_alpha (n : Z) (alpha : float) : M Solver float :=
  if (n >? 1)%Z then
    s ← get;
    dt ← lift (computeDT s (n - 1));
    p1 ← lift (at_ (power s) (n - 1));
    p2 ← lift (at_ (power s) (n - 2));
    mret (1 / dt * log X (p1 / p2))
  else mret alpha.

(** The end of an iteration of [solve]: the loop that updates the precursor
    concentrations, *)
Definition update_concentrations (n : Z) : M Solver unit :=
  s ← get;
  for_range 0 (Params.getNumPrecursors (params s)) (fun k _ =>
    s ← get;
    pn ← lift (at_ (power s) n);
    om ← lift (at_ (omega s) k);
    zh ← lift (at_ (zeta_hat s) k);
    set_concentration k n (pn * om + zh)) tt.

(** and the update of the reactivity vector. *)
Definition update_rho (n : Z) (gamma : float) : M Solver unit :=
  s ← get;
  a1b1 ← lift (computeA1B1 s n gamma);
  pn ← lift (at_ (power s) n);
  set_rho n (a1b1.1 * pn + a1b1.2).

(** What an iteration of [solve] does once [gamma] and [alpha] are known. *)
Definition solve_update (n : Z) (alpha gamma : float) : M Solver unit :=
  (* evaluate the power at this time step *)
  p ← computePower n alpha gamma;
  set_power n p;;
  (* update the precursor concentrations *)
  update_concentrations n;;
  (* update the full power and reactivity vectors *)
  update_rho n gamma.

(** An iteration of [solve] up to the coefficients of its quadratic. *)
Definition solve_step_quadratic (n : Z) (alpha : float)
    : M Solver (float * float * float) :=
  s ← get;
  gamma ← lift (computeGamma s n);
  alpha ← solve_alpha n alpha;
  computePower_quadratic n alpha gamma.

(** The body of the loop of [solve]; the value threaded through is [alpha]. *)
Definition solve_step (n : Z) (alpha : float) : M Solver float :=
  s ← get;
  gamma ← lift (computeGamma s n);
  (* compute the transformation parameter *)
  alpha ← solve_alpha n alpha;
  solve_update n alpha gamma;;
  mret alpha.

(** The run of [solve] up to the coefficients of the quadratic of step [n]. *)
Definition quadratic_at (s : Solver) (n : Z) : outcome Solver (float * float * float) :=
  (alpha ← for_range (Precomp.getNumTimeSteps (precomp s)) n solve_step 0;
   solve_step_quadratic n alpha) s.

(** The loop of [solve] reaches step [n] and finds [a > 0] there. *)
Definition positive_at (s : Solver) (n : Z) : bool :=
  (Precomp.getNumTimeSteps (precomp s) <=? n)%Z &&
  (n <? Params.getNumTimeSteps (params s))%Z &&
  match quadratic_at s n with
  | Ok (a, _, _) _ => 0 <? a
  | Fail _ _ => false
  end.

Definition solve_output (s : Solver) : EPKEOutput :=
  {| out_power := power s; out_rho := rho s;
     out_concentrations := concentrations s |}.

Definition solve : M Solver EPKEOutput :=
  s ← get;
  for_range (Precomp.getNumTimeSteps (precomp s)) (Params.getNumTimeSteps (params s))
    solve_step 0;;
  s ← get;
  mret (solve_output s).

End Methods.

(** ** Owned fine solvers *)

Section FineSolvers.
Context (X : Externals).

(** [createFineSolver], a method of the object at [this] in the store of
    solver objects: [make_shared<Solver>(...)] adds the new object at a fresh
    address, [_fine_solvers.push_back] records that address in the caller. *)
Definition createFineSolver (this : ptr) (fine_time : timeBins) (coarse_index : Z)
    : M (list Solver) ptr :=
  fun sigma =>
    match sigma !! this with
    | None => Fail undefined sigma
    | Some me =>
      match Solver_new (interpolate X (params me) fine_time)
                       (createPrecomputed X (precomp me) coarse_index) with
      | Fail f _ => Fail f sigma
      | Ok _ child =>
        let fine_solver := length sigma in
        (* Push back the coarse solver's vector of fine solvers *)
        let me' := with_fine_solvers (_fine_solvers me ++ [fine_solver]) me in
        Ok fine_solver (<[this := me']> (sigma ++ [child]))
      end
    end.

End FineSolvers.

(** ** The calls a run of [solve] makes *)

(** A call of a method of [epke::Solver], with the indices it is given. *)
Inductive call : Set :=
| call_computeDT (n : Z)
| call_computeGamma (n : Z)
| call_computeOmega (k n : Z)
| call_computeZetaHat (k n : Z)
| call_computeA1B1 (n : Z)
| call_computePower (n : Z)
| call_computeABC (n : Z)
| call_acceptTransformation (n : Z).

(** A method run on the object and on the list of the calls made so far,
    first call first. *)
Definition Traced (A : Type) : Type := M (Solver * list call) A.

(** Entering a method. *)
Definition called (c : call) : Traced unit := fun sl => Ok tt (sl.1, sl.2 ++ [c]).

(** The object. *)
Definition self : Traced Solver := fun sl => Ok sl.1 sl.

(** Statements that call no method of the solver. *)
Definition on_this {A} (m : M Solver A) : Traced A :=
  fun sl => match m sl.1 with
            | Ok a s' => Ok a (s', sl.2)
            | Fail f s' => Fail f (s', sl.2)
            end.

(** The methods [solve] reaches, statement by statement as above, each
    entered in the list when it is called.  The accessors of the two providers,
    the utilities and the mathematical library are not methods of the solver
    and are given no reference to it.  Where C++ leaves the order of two
    operands open ([computeDT(n-1) / computeDT(n)]), the order is the one
    taken above. *)
Section Calls.
Context (X : Externals).

Local Open Scope float_scope.

Definition traced_computeDT (s : Solver) (n : Z) : Traced float :=
  called (call_computeDT n);;
  t1 ← lift (Params.getTime (params s) n);
  t0 ← lift (Params.getTime (params s) (n - 1));
  mret (t1 - t0).

Definition traced_computeGamma (s : Solver) (n : Z) : Traced float :=
  called (call_computeGamma n);;
  if (n <? 2)%Z then mret 1
  else
    d1 ← traced_computeDT s (n - 1);
    d0 ← traced_computeDT s n;
    mret (d1 / d0).

Definition traced_computeOmega (s : Solver) (k n : Z) (w gamma : float) : Traced float :=
  called (call_computeOmega k n);;
  lambda_k ← lift (Params.getDecayConstant (params s) k n);
  dt ← traced_computeDT s n;
  g0 ← lift (Params.getGenTime (params s) 0);
  gn ← lift (Params.getGenTime (params s) n);
  beta ← lift (Params.getDelayedFraction (params s) k n);
  mret (g0 / gn * beta * w *
        (k2 X lambda_k dt + gamma * dt * k1 X lambda_k dt) / ((1 + gamma) * dt * dt)).

Definition traced_computeZetaHat (s : Solver) (k n : Z) (w gamma : float) : Traced float :=
  called (call_computeZetaHat k n);;
  lambda_k ← lift (Params.getDecayConstant (params s) k n);
  dt ← traced_computeDT s n;
  '(beta_prev_prev, power_prev_prev, gen_time_prev_prev) ←
    lift (if (n <? 2)%Z then
            b ← Params.getDelayedFraction (params s) k (n - 1);
            p ← at_ (power s) (n - 1);
            g ← Params.getGenTime (params s) (n - 1);
            mret (b, p, g)
          else
            b ← Params.getDelayedFraction (params s) k (n - 2);
            p ← at_ (power s) (n - 2);
            g ← Params.getGenTime (params s) (n - 2);
            mret (b, p, g));
  c1 ← lift (at2 (concentrations s) k (n - 1));
  g0 ← lift (Params.getGenTime (params s) 0);
  p1 ← lift (at_ (power s) (n - 1));
  b1 ← lift (Params.getDelayedFraction (params s) k (n - 1));
  g1 ← lift (Params.getGenTime (params s) (n - 1));
  mret (w * c1 +
        w * g0 * p1 * b1 / g1 *
        (k0 X lambda_k dt - (k2 X lambda_k dt - dt * (gamma - 1) * k1 X lambda_k dt) /
                            (gamma * dt * dt)) +
        w * g0 * power_prev_prev * beta_prev_prev / gen_time_prev_prev *
        (k2 X lambda_k dt - dt * k1 X lambda_k dt) /
        ((1 + gamma) * gamma * dt * dt)).

Definition traced_computeA1B1 (s : Solver) (n : Z) (gamma : float)
    : Traced (float * float) :=
  called (call_computeA1B1 n);;
  lh ← lift (Params.getLambdaH (params s) n);
  dt ← traced_computeDT s n;
  H_prev_prev ←
    lift (if (n <? 2)%Z then
            f ← Params.getPowNorm (params s) (n - 1);
            p ← at_ (power s) (n - 1);
            mret (f * p)
          else
            f ← Params.getPowNorm (params s) (n - 2);
            p ← at_ (power s) (n - 2);
            mret (f * p));
  fn ← lift (Params.getPowNorm (params s) n);
  let gd := Params.getGammaD (params s) in
  let a1 := gd * fn / E X lh dt * (k2 X lh dt + k1 X lh dt * gamma * dt) /
            ((1 + gamma) * dt * dt) in
  ri ← lift (Params.getRhoImp (params s) n);
  r1 ← lift (at_ (rho s) (n - 1));
  ri1 ← lift (Params.getRhoImp (params s) (n - 1));
  p0 ← lift (at_ (power s) 0);
  f1 ← lift (Params.getPowNorm (params s) (n - 1));
  p1 ← lift (at_ (power s) (n - 1));
  let b1 := ri + 1 / E X lh dt *
            ((r1 - ri1) - p0 * gd * Params.getEta (params s) * k0 X lh dt) +
            gd / E X lh dt *
            (f1 * p1 *
             (k0 X lh dt - (k2 X lh dt + (gamma - 1) * dt * k1 X lh dt) /
                           (gamma * dt * dt)) +
             H_prev_prev * (k2 X lh dt - k1 X lh dt * dt) /
             ((1 + gamma) * gamma * dt * dt)) in
  mret (a1, b1).

Definition traced_quadratic (s : Solver) (n : Z) (alpha : float) (a1b1 : float * float)
    (tau s_hat_d s_d_prev : float) : Traced (float * float * float) :=
  dt ← traced_computeDT s n;
  let th := Params.getTheta (params s) in
  gn ← lift (Params.getGenTime (params s) n);
  let a := th * dt * a1b1.1 / gn in
  be ← lift (Params.getBetaEff (params s) n);
  g0 ← lift (Params.getGenTime (params s) 0);
  let b := th * dt * (((a1b1.2 - be) / gn - alpha) + tau / g0) - 1 in
  r1 ← lift (at_ (rho s) (n - 1));
  be1 ← lift (Params.getBetaEff (params s) (n - 1));
  g1 ← lift (Params.getGenTime (params s) (n - 1));
  p1 ← lift (at_ (power s) (n - 1));
  let c := th * dt / g0 * s_hat_d +
           exp X (alpha * dt) *
           ((1 - th) * dt * (((r1 - be1) / g1 - alpha) * p1 + s_d_prev / g0) + p1) in
  mret (a, b, c).

Definition traced_computeABC (s : Solver) (n : Z) (alpha : float) (a1b1 : float * float)
    (tau s_hat_d s_d_prev : float) : Traced float :=
  called (call_computeABC n);;
  '(a, b, c) ← traced_quadratic s n alpha a1b1 tau s_hat_d s_d_prev;
  lift (select_root a b c).

Definition traced_computePower_group (n : Z) (gamma : float) (k : Z)
    (acc : float * float * float) : Traced (float * float * float) :=
  let '(tau, s_hat_d, s_d_prev) := acc in
  s ← self;
  lam ← lift (Params.getDecayConstant (params s) k n);
  dt ← traced_computeDT s n;
  let w := 1 / E X lam dt in
  om ← traced_computeOmega s k n w gamma;
  on_this (set_omega k om);;
  s ← self;
  zh ← traced_computeZetaHat s k n w gamma;
  on_this (set_zeta_hat k zh);;
  (* accumulate the weighted sum *)
  s ← self;
  l1 ← lift (Params.getDecayConstant (params s) k n);
  omk ← lift (at_ (omega s) k);
  l2 ← lift (Params.getDecayConstant (params s) k n);
  zhk ← lift (at_ (zeta_hat s) k);
  l3 ← lift (Params.getDecayConstant (params s) k (n - 1));
  c1 ← lift (at2 (concentrations s) k (n - 1));
  mret (tau + l1 * omk, s_hat_d + l2 * zhk, s_d_prev + l3 * c1).

Definition traced_computePower (n : Z) (alpha gamma : float) : Traced float :=
  called (call_computePower n);;
  s ← self;
  '(tau, s_hat_d, s_d_prev) ←
    for_range 0 (Params.getNumPrecursors (params s)) (traced_computePower_group n gamma)
      (0, 0, 0);
  s ← self;
  a1b1 ← traced_computeA1B1 s n gamma;
  traced_computeABC s n alpha a1b1 tau s_hat_d s_d_prev.

Definition traced_solve_alpha (n : Z) (alpha : float) : Traced float :=
  if (n >? 1)%Z then
    s ← self;
    dt ← traced_computeDT s (n - 1);
    p1 ← lift (at_ (power s) (n - 1));
    p2 ← lift (at_ (power s) (n - 2));
    mret (1 / dt * log X (p1 / p2))
  else mret alpha.

Definition traced_update_rho (n : Z) (gamma : float) : Traced unit :=
  s ← self;
  a1b1 ← traced_computeA1B1 s n gamma;
  pn ← lift (at_ (power s) n);
  on_this (set_rho n (a1b1.1 * pn + a1b1.2)).

(** Between the store of [power[n]] and the loop over the groups the source
    has its comment: no statement, no call. *)
Definition traced_solve_update (n : Z) (alpha gamma : float) : Traced unit :=
  (* evaluate the power at this time step *)
  p ← traced_computePower n alpha gamma;
  on_this (set_power n p);;
  (* update the precursor concentrations *)
  on_this (update_concentrations n);;
  (* update the full power and reactivity vectors *)
  traced_update_rho n gamma.

Definition traced_solve_step (n : Z) (alpha : float) : Traced float :=
  s ← self;
  gamma ← traced_computeGamma s n;
  (* compute the transformation parameter *)
  alpha ← traced_solve_alpha n alpha;
  traced_solve_update n alpha gamma;;
  mret alpha.

Definition traced_solve : Traced EPKEOutput :=
  s ← self;
  for_range (Precomp.getNumTimeSteps (precomp s)) (Params.getNumTimeSteps (params s))
    traced_solve_step 0;;
  s ← self;
  mret (solve_output s).

End Calls.

(** ** The XML document and [buildXMLDoc] *)

Abbreviation string := String.string.

(** Modelled from the library: pugixml (pugi/pugixml.hpp) is not under src/.
    A node of a document is the document itself, an element with its name,
    its attributes and its children, or a piece of character data.  Of the
    library there is what [buildXMLDoc] calls: [append_child],
    [append_attribute] and the assignment to [text()]. *)
#[local] Unset Elimination Schemes.
Inductive xml_node : Type :=
| document (children : list xml_node)
| element (name : string) (attributes : list (string * string)) (children : list xml_node)
| pcdata (value : string).
#[local] Set Elimination Schemes.

(** A [pugi::xml_node] handle: the path to the node from the document, child
    index by child index, or the null handle.  A path stays the path of its
    node while children are only appended, as they are here. *)
Definition handle : Type := option (list nat).

(** The children of a node, and the node with other children. *)
Definition children (nd : xml_node) : list xml_node :=
  match nd with
  | document ch => ch
  | element _ _ ch => ch
  | pcdata _ => []
  end.

Definition with_children (ch : list xml_node) (nd : xml_node) : xml_node :=
  match nd with
  | document _ => document ch
  | element nm atts _ => element nm atts ch
  | pcdata v => pcdata v
  end.

(** The node a path leads to, and the document with that node changed. *)
Fixpoint node_at (path : list nat) (nd : xml_node) : option xml_node :=
  match path with
  | [] => Some nd
  | i :: path' => children nd !! i ≫= node_at path'
  end.

Fixpoint on_node (f : xml_node -> xml_node) (path : list nat) (nd : xml_node) : xml_node :=
  match path with
  | [] => f nd
  | i :: path' => with_children (alter (on_node f path') i (children nd)) nd
  end.

(** [parent.append_child(name)]: a new element, last among the children of a
    document or an element; the null handle on any other parent. *)
Definition append_child (parent : handle) (name : string) : M xml_node handle :=
  fun doc =>
    match parent with
    | Some path =>
      match node_at path doc with
      | Some (pcdata _) | None => Ok None doc
      | Some nd =>
        Ok (Some (path ++ [length (children nd)]))
           (on_node (fun nd => with_children (children nd ++ [element name [] []]) nd) path doc)
      end
    | None => Ok None doc
    end.

(** [node.append_attribute(name) = value]: on an element only. *)
Definition append_attribute (node : handle) (name value : string) : M xml_node unit :=
  fun doc =>
    match node with
    | Some path =>
      Ok tt (on_node (fun nd => match nd with
                                | element nm atts ch => element nm (atts ++ [(name, value)]) ch
                                | _ => nd
                                end) path doc)
    | None => Ok tt doc
    end.

(** The first piece of character data among the children, if any. *)
Fixpoint first_pcdata (ch : list xml_node) : option nat :=
  match ch with
  | [] => None
  | pcdata _ :: _ => Some O
  | _ :: ch' => S <$> first_pcdata ch'
  end.

(** [node.text() = value]: the value of the node's character data,
    which is added when the node has none. *)
Definition set_text (node : handle) (value : string) : M xml_node unit :=
  fun doc =>
    match node with
    | Some path =>
      Ok tt (on_node (fun nd =>
               match nd with
               | pcdata _ => pcdata value
               | _ => match first_pcdata (children nd) with
                      | Some i => with_children (<[i := pcdata value]> (children nd)) nd
                      | None => with_children (children nd ++ [pcdata value]) nd
                      end
               end) path doc)
    | None => Ok tt doc
    end.

(** The value an attribute is given by [= k] for an [int]: its decimal
    digits. *)
Definition decimal (k : Z) : string := DecimalString.NilZero.string_of_int (Z.to_int k).

Section Output.
(** The text a [std::ostringstream] is given for a [double]: [format d x]
    is what [os << std::setprecision(d) << x] appends.  The C++ library
    defines it, src/ does not. *)
Context (format : Z -> float -> string).

Local Open Scope string_scope.

(** One pass of the first loop of [buildXMLDoc]; the three streams are
    threaded through. *)
Definition buildXMLDoc_step (s : Solver) (n : Z) (strs : string * string * string)
    : M xml_node (string * string * string) :=
  let '(time_str, power_str, rho_str) := strs in
  t ← lift (Params.getTime (params s) n);
  let time_str := time_str ++ format 6 t in
  f ← lift (Params.getPowNorm (params s) n);
  p ← lift (at_ (power s) n);
  let power_str := power_str ++ format 12 (f * p)%float in
  r ← lift (at_ (rho s) n);
  let rho_str := rho_str ++ format 12 r in
  if bool_decide (n ≠ Params.getNumTimeSteps (params s) - 1) then
    mret (time_str ++ " ", power_str ++ " ", rho_str ++ " ")
  else mret (time_str, power_str, rho_str).

(** One pass of the loop over the precursor groups. *)
Definition buildXMLDoc_group (s : Solver) (concs_node : handle) (k : Z) (conc_str : string)
    : M xml_node string :=
  (* conc_str.str(""); conc_str.clear(); *)
  let conc_str := "" in
  conc_node ← append_child concs_node "concentration";
  append_attribute conc_node "k" (decimal k);;
  conc_str ← for_range 0 (Params.getNumTimeSteps (params s)) (fun n conc_str =>
    c ← lift (at2 (concentrations s) k n);
    let conc_str := conc_str ++ format 12 c in
    if bool_decide (n ≠ Params.getNumTimeSteps (params s) - 1) then mret (conc_str ++ " ")
    else mret conc_str) conc_str;
  set_text conc_node conc_str;;
  mret conc_str.

(** [buildXMLDoc(doc)]: the state is the document, the solver is read
    only. *)
Definition buildXMLDoc (s : Solver) : M xml_node unit :=
  output_node ← append_child (Some []) "epke_output";
  time_node ← append_child output_node "time";
  power_node ← append_child output_node "power";
  rho_node ← append_child output_node "rho";
  concs_node ← append_child output_node "concentrations";
  '(time_str, power_str, rho_str) ←
    for_range 0 (Params.getNumTimeSteps (params s)) (buildXMLDoc_step s) ("", "", "");
  set_text time_node time_str;;
  set_text power_node power_str;;
  set_text rho_node rho_str;;
  for_range 0 (Params.getNumPrecursors (params s)) (buildXMLDoc_group s concs_node) "";;
  mret tt.

End Output.


(** ** The constructor from XML nodes *)

Section FromXML.
(** The constructors of EPKEParameters and of EPKEOutput from an XML node,
    which src/ does not define, are parameters. *)
Context (parse_parameters : xml_node -> EPKEParameters)
        (parse_output : xml_node -> EPKEOutput).

Local Open Scope float_scope.

(** The members as the initialiser list of
    [Solver::Solver(const pugi::xml_node&, const pugi::xml_node&)] leaves
    them. *)
Definition Solver_xml_init (input_node output_node : xml_node) : Solver :=
  let params := parse_parameters input_node in
  let precomp := parse_output output_node in
  {| params := params; precomp := precomp;
     power := replicate (Z.to_nat (Params.getNumTimeSteps params)) 0;
     rho := replicate (Z.to_nat (Params.getNumTimeSteps params)) 0;
     omega := replicate (Z.to_nat (Params.getNumPrecursors params)) 0;
     zeta_hat := replicate (Z.to_nat (Params.getNumPrecursors params)) 0;
     concentrations :=
       replicate (Z.to_nat (Params.getNumPrecursors params))
                 (replicate (Z.to_nat (Params.getNumTimeSteps params)) 0);
     _fine_solvers := [] |}.

(** Its body, the one of the other constructor line for line. *)
Definition Solver_xml_body : M Solver unit :=
  s ← get;
  (* set the initial concentration histories *)
  for_range 0 (Params.getNumPrecursors (params s)) (fun k _ =>
    for_range 0 (Precomp.getNumTimeSteps (precomp s)) (fun n _ =>
      x ← lift (Precomp.getConcentration (precomp s) k n);
      set_concentration k n x) tt) tt;;
  (* set the initial power histories and rho histories *)
  for_range 0 (Precomp.getNumTimeSteps (precomp s)) (fun n _ =>
    x ← lift (Precomp.getPower (precomp s) n);
    set_power n x;;
    y ← lift (Precomp.getRho (precomp s) n);
    set_rho n y) tt.

Definition Solver_from_xml (input_node output_node : xml_node) : outcome Solver unit :=
  Solver_xml_body (Solver_xml_init input_node output_node).

End FromXML.

(** ** The step loop as the specification words it *)

Section Specification.
Context (X : Externals).

Local Open Scope float_scope.

(** Section 4.2, item 2: [(1/dt(n-1)) * ln(power(n-1)/power(n-2))] for
    [n > 1], else [0]. *)
Definition extrapolation_rate (s : Solver) (n : Z) : result float :=
  if (n >? 1)%Z then
    dt ← computeDT s (n - 1);
    p1 ← at_ (power s) (n - 1);
    p2 ← at_ (power s) (n - 2);
    mret (1 / dt * log X (p1 / p2))
  else mret 0.

(** A step that takes its rate from the step index alone. *)
Definition rate_step (n : Z) (_ : unit) : M Solver unit :=
  s ← get;
  gamma ← lift (computeGamma s n);
  alpha ← lift (extrapolation_rate s n);
  solve_update X n alpha gamma.

Definition rate_solve : M Solver EPKEOutput :=
  s ← get;
  for_range (Precomp.getNumTimeSteps (precomp s)) (Params.getNumTimeSteps (params s))
    rate_step tt;;
  s ← get;
  mret (solve_output s).

(** A step that evaluates the acceptance test where the source has it in a
    comment, between the store of [power[n]] and the update of the
    concentrations, and drops its verdict. *)
Definition tested_update (n : Z) (alpha gamma : float) : M Solver unit :=
  p ← computePower X n alpha gamma;
  set_power n p;;
  s ← get;
  _ ← lift (acceptTransformation X s n alpha gamma);
  update_concentrations n;;
  update_rho X n gamma.

Definition tested_step (n : Z) (alpha : float) : M Solver float :=
  s ← get;
  gamma ← lift (computeGamma s n);
  alpha ← solve_alpha X n alpha;
  tested_update n alpha gamma;;
  mret alpha.

Definition tested_solve : M Solver EPKEOutput :=
  s ← get;
  for_range (Precomp.getNumTimeSteps (precomp s)) (Params.getNumTimeSteps (params s))
    tested_step 0;;
  s ← get;
  mret (solve_output s).

End Specification.

(** ** The document [buildXMLDoc] is to produce *)

(** The texts of the values, one blank between two of them. *)
Definition joined (l : list string) : string := String.concat " " l.

(** The element of the precursor group [k], with its concentration history
    [row]. *)
Definition concentration_node (format : Z -> float -> string) (k : nat) (row : timeBins)
    : xml_node :=
  element "concentration" [("k"%string, decimal (Z.of_nat k))]
    [pcdata (joined (format 12 <$> row))].

(** The element [epke_output] of the histories [out] on the grid of [p]:
    the times with 6 significant digits, the powers, each multiplied by
    the power normalisation of its grid point, the reactivities and the
    concentrations with 12. *)
Definition epke_output (format : Z -> float -> string) (p : EPKEParameters)
    (out : EPKEOutput) : xml_node :=
  element "epke_output" []
    [element "time" [] [pcdata (joined (format 6 <$> time p))];
     element "power" []
       [pcdata (joined (format 12 <$> zip_with PrimFloat.mul (pow_norm p) (out_power out)))];
     element "rho" [] [pcdata (joined (format 12 <$> out_rho out))];
     element "concentrations" []
       (imap (concentration_node format) (out_concentrations out))].

(** The same element before any text is set: the four children
    [buildXMLDoc] appends first. *)
Definition epke_output_skeleton : xml_node :=
  element "epke_output" []
    [element "time" [] []; element "power" [] []; element "rho" [] [];
     element "concentrations" [] []].

(** ** The problem on a shorter grid *)

(** The parameters on the first [m] points of the grid. *)
Definition truncate_parameters (m : nat) (p : EPKEParameters) : EPKEParameters :=
  {| time := take m (time p);
     gen_time := take m (gen_time p);
     pow_norm := take m (pow_norm p);
     rho_imp := take m (rho_imp p);
     beta_eff := take m (beta_eff p);
     lambda_h := take m (lambda_h p);
     decay_constant := take m <$> decay_constant p;
     delayed_fraction := take m <$> delayed_fraction p;
     theta := theta p; gamma_d := gamma_d p; eta := eta p |}.

(** The solver on the first [m] points of the grid: its parameters and its
    histories cut after [m] entries. *)
Definition truncate (m : nat) (s : Solver) : Solver :=
  {| params := truncate_parameters m (params s); precomp := precomp s;
     power := take m (power s); rho := take m (rho s);
     omega := omega s; zeta_hat := zeta_hat s;
     concentrations := take m <$> concentrations s;
     _fine_solvers := _fine_solvers s |}.

(** The result on the first [m] points of the grid. *)
Definition truncate_output (m : nat) (out : EPKEOutput) : EPKEOutput :=
  {| out_power := take m (out_power out);
     out_rho := take m (out_rho out);
     out_concentrations := take m <$> out_concentrations out |}.

(** ** Reference externals for the examples *)

Module Reference.
Local Open Scope float_scope.

(** [exp] and [log] at the arguments where the C standard fixes the result
    exactly ([exp(+-0) = 1], [log(1) = +0]); elsewhere the result depends on
    the platform's libm and is left as NaN: no example evaluates them there. *)
Definition libm_exp (x : float) : float := if x =? 0 then 1 else nan.
Definition libm_log (x : float) : float := if x =? 1 then 0 else nan.

(** Modelled from the spec: utility/interpolate.hpp is not under src/.
    Section 4.1: [E(lambda,dt) = exp(-lambda dt)], and [k0], [k1], [k2] are the
    integrals of [s^j exp(-lambda s)] over [[0,dt]] for [j = 0, 1, 2], with
    finite limits at [lambda = 0]. *)
Definition util_E (lambda dt : float) : float := libm_exp (- (lambda * dt)).
Definition util_k0 (lambda dt : float) : float :=
  if lambda =? 0 then dt else (1 - util_E lambda dt) / lambda.
Definition util_k1 (lambda dt : float) : float :=
  if lambda =? 0 then dt * dt / 2
  else (util_k0 lambda dt - dt * util_E lambda dt) / lambda.
Definition util_k2 (lambda dt : float) : float :=
  if lambda =? 0 then dt * dt * dt / 3
  else (2 * util_k1 lambda dt - dt * dt * util_E lambda dt) / lambda.

(** Modelled from the spec: [EPKEParameters::interpolate] is not under src/.
    Section 6: a parameter set on the target grid; here each per-index
    quantity is held at its value at the last grid point not after the target
    time. *)
Fixpoint hold_index (grid : timeBins) (t : float) : nat :=
  match grid with
  | _ :: ((t1 :: _) as rest) => if t1 <=? t then S (hold_index rest t) else O
  | _ => O
  end.
Definition hold (grid v : timeBins) (fine : timeBins) : timeBins :=
  (fun t => default 0 (v !! hold_index grid t)) <$> fine.
Definition hold_interpolate (p : EPKEParameters) (fine : timeBins) : EPKEParameters :=
  {| time := fine;
     gen_time := hold (time p) (gen_time p) fine;
     pow_norm := hold (time p) (pow_norm p) fine;
     rho_imp := hold (time p) (rho_imp p) fine;
     beta_eff := hold (time p) (beta_eff p) fine;
     lambda_h := hold (time p) (lambda_h p) fine;
     decay_constant := (fun v => hold (time p) v fine) <$> decay_constant p;
     delayed_fraction := (fun v => hold (time p) v fine) <$> delayed_fraction p;
     theta := theta p; gamma_d := gamma_d p; eta := eta p |}.

(** Modelled from the spec: [EPKEOutput::createPrecomputed] is not under
    src/.  Section 6: a shorter, independent prefix; section 8: the entry at
    the coarse index is the last one of the slice. *)
Definition slice (h : EPKEOutput) (i : Z) : EPKEOutput :=
  {| out_power := take (Z.to_nat (i + 1)) (out_power h);
     out_rho := take (Z.to_nat (i + 1)) (out_rho h);
     out_concentrations := take (Z.to_nat (i + 1)) <$> out_concentrations h |}.

Definition externals : Externals :=
  {| exp := libm_exp; log := libm_log;
     E := util_E; k0 := util_k0; k1 := util_k1; k2 := util_k2;
     interpolate := hold_interpolate; createPrecomputed := slice |}.

(** A reactor at rest on a grid of four points: unit power, generation time
    and power normalisation, no reactivity, one precursor group that neither
    decays nor is fed; [gd] is the feedback gain.  With [gd = -2] the
    quadratic has [a < 0] and the power stays at [1]; with [gd = 0] it
    degenerates to the linear equation; with [gd = 2] it has [a > 0]. *)
Definition parameters (gd : float) : EPKEParameters :=
  {| time := [0; 1; 2; 3];
     gen_time := [1; 1; 1; 1];
     pow_norm := [1; 1; 1; 1];
     rho_imp := [0; 0; 0; 0];
     beta_eff := [0; 0; 0; 0];
     lambda_h := [0; 0; 0; 0];
     decay_constant := [[0; 0; 0; 0]];
     delayed_fraction := [[0; 0; 0; 0]];
     theta := 1; gamma_d := gd; eta := 1 |}.

(** History prefixes of no entry, of one and of two entries. *)
Definition seed0 : EPKEOutput :=
  {| out_power := []; out_rho := []; out_concentrations := [[]] |}.
Definition seed1 : EPKEOutput :=
  {| out_power := [1]; out_rho := [0]; out_concentrations := [[1]] |}.
Definition seed2 : EPKEOutput :=
  {| out_power := [1; 1]; out_rho := [0; 0]; out_concentrations := [[1; 1]] |}.

(** The solver the constructor builds from a gain and a prefix. *)
Definition solver (gd : float) (seed : EPKEOutput) : Solver :=
  state_of (Solver_new (parameters gd) seed).

(** The same reactor with an imposed-reactivity array of two entries on the
    grid of four points. *)
Definition short_parameters : EPKEParameters :=
  {| time := [0; 1; 2; 3];
     gen_time := [1; 1; 1; 1];
     pow_norm := [1; 1; 1; 1];
     rho_imp := [0; 0];
     beta_eff := [0; 0; 0; 0];
     lambda_h := [0; 0; 0; 0];
     decay_constant := [[0; 0; 0; 0]];
     delayed_fraction := [[0; 0; 0; 0]];
     theta := 1; gamma_d := -2; eta := 1 |}.
Definition short_solver : Solver := state_of (Solver_new short_parameters seed1).

(** A grid of half steps over the first two coarse intervals. *)
Definition fine_grid : timeBins := [0; 0.5; 1; 1.5; 2].

(** A prefix with a negative power and a positive reactivity: the quadratic
    of the step after it has no real root. *)
Definition seed_negative : EPKEOutput :=
  {| out_power := [-1]; out_rho := [1]; out_concentrations := [[1]] |}.

(** Prefixes over the whole grid of four points, and beyond it. *)
Definition seed4 : EPKEOutput :=
  {| out_power := [1; 1; 1; 1]; out_rho := [0; 0; 0; 0];
     out_concentrations := [[1; 1; 1; 1]] |}.
Definition seed5 : EPKEOutput :=
  {| out_power := [1; 1; 1; 1; 1]; out_rho := [0; 0; 0; 0; 0];
     out_concentrations := [[1; 1; 1; 1; 1]] |}.

(** The reactor at rest until the last grid point, where a reactivity is
    imposed. *)
Definition late_parameters : EPKEParameters :=
  {| time := [0; 1; 2; 3];
     gen_time := [1; 1; 1; 1];
     pow_norm := [1; 1; 1; 1];
     rho_imp := [0; 0; 0; 1];
     beta_eff := [0; 0; 0; 0];
     lambda_h := [0; 0; 0; 0];
     decay_constant := [[0; 0; 0; 0]];
     delayed_fraction := [[0; 0; 0; 0]];
     theta := 1; gamma_d := -2; eta := 1 |}.

(** The reactor at rest with a power normalisation at the first grid point
    only. *)
Definition bare_parameters : EPKEParameters :=
  {| time := [0; 1; 2; 3];
     gen_time := [1; 1; 1; 1];
     pow_norm := [1];
     rho_imp := [0; 0; 0; 0];
     beta_eff := [0; 0; 0; 0];
     lambda_h := [0; 0; 0; 0];
     decay_constant := [[0; 0; 0; 0]];
     delayed_fraction := [[0; 0; 0; 0]];
     theta := 1; gamma_d := -2; eta := 1 |}.

(** The text a stream gives the values the examples print: a zero, with
    its sign, and the integers 1 to 3 have the same digits at every
    precision; no example prints another value. *)
Definition stream_format (d : Z) (x : float) : string :=
  match Prim2SF x with
  | S754_zero false => "0"%string
  | S754_zero true => "-0"%string
  | _ => if x =? 1 then "1"%string else if x =? 2 then "2"%string
         else if x =? 3 then "3"%string else "?"%string
  end.

End Reference.


(** * Predicates of the proofs *)

(** What holds of an outcome: [Q] of a returned value and state, [R] of a
    failure and the state it left. *)
Definition post {S A} (o : outcome S A) (Q : A -> S -> Prop) (R : failure -> S -> Prop) : Prop :=
  match o with Ok a s => Q a s | Fail f s => R f s end.

(** Two outcomes of the same kind, with the same value or failure. *)
Definition both {S A} (o1 o2 : outcome S A) (Q : A -> S -> S -> Prop) : Prop :=
  match o1, o2 with
  | Ok a1 s1, Ok a2 s2 => a1 = a2 /\ Q a1 s1 s2
  | Fail f1 _, Fail f2 _ => f1 = f2
  | _, _ => False
  end.

(** The outcome without its value. *)
Definition drop_value {S A} (o : outcome S A) : outcome S unit :=
  match o with Ok _ s => Ok tt s | Fail f s => Fail f s end.

(** The members a run never resizes or reassigns. *)
Record same_shape (s s' : Solver) : Prop := {
  shape_params : params s' = params s;
  shape_precomp : precomp s' = precomp s;
  shape_fine : _fine_solvers s' = _fine_solvers s;
  shape_power : length (power s') = length (power s);
  shape_rho : length (rho s') = length (rho s);
  shape_omega : length (omega s') = length (omega s);
  shape_zeta_hat : length (zeta_hat s') = length (zeta_hat s);
  shape_conc : length <$> concentrations s' = length <$> concentrations s
}.

(** The history entries of index [i]: [power(i)], [rho(i)] and
    [concentration(k,i)] of every group [k]. *)
Record same_history_at (i : Z) (s s' : Solver) : Prop := {
  same_power : at_ (power s') i = at_ (power s) i;
  same_rho : at_ (rho s') i = at_ (rho s) i;
  same_conc : forall k, at2 (concentrations s') k i = at2 (concentrations s) k i
}.

(** [s'] is [s] but for the history entries of the indices [lo <= i < hi]
    and the step-local scratch. *)
Definition unchanged_outside (lo hi : Z) (s s' : Solver) : Prop :=
  same_shape s s' /\ forall i, ~ (lo <= i < hi) -> same_history_at i s s'.

(** [s'] is [s] but for the step-local scratch [omega], [zeta_hat]. *)
Definition scratch_only (s s' : Solver) : Prop :=
  same_shape s s' /\ power s' = power s /\ rho s' = rho s /\
  concentrations s' = concentrations s.

(** The invariant of section 3 of the specification: every per-index array
    has the length of the time grid, and the two per-group arrays have as
    many rows. *)
Definition consistent (p : EPKEParameters) : Prop :=
  length (gen_time p) = length (time p) /\
  length (pow_norm p) = length (time p) /\
  length (rho_imp p) = length (time p) /\
  length (beta_eff p) = length (time p) /\
  length (lambda_h p) = length (time p) /\
  Forall (fun row => length row = length (time p)) (decay_constant p) /\
  length (delayed_fraction p) = length (decay_constant p) /\
  Forall (fun row => length row = length (time p)) (delayed_fraction p).

#[global] Instance consistent_dec p : Decision (consistent p).
Proof. unfold consistent. apply _. Defined.

(** The members have the sizes the constructor gave them, for the parameter
    set [p]. *)
Record well_sized (p : EPKEParameters) (s : Solver) : Prop := {
  sized_params : params s = p;
  sized_consistent : consistent p;
  sized_power : length (power s) = length (time p);
  sized_rho : length (rho s) = length (time p);
  sized_omega : length (omega s) = length (decay_constant p);
  sized_zeta_hat : length (zeta_hat s) = length (decay_constant p);
  sized_conc : length (concentrations s) = length (decay_constant p);
  sized_rows : Forall (fun row => length row = length (time p)) (concentrations s)
}.

(** An outcome without failure, the sizes kept. *)
Definition sound (p : EPKEParameters) {A} (o : outcome Solver A) : Prop :=
  post o (fun _ s' => well_sized p s') (fun _ _ => False).

(** The same, but for the abort of [computeABC]. *)
Definition harmless (p : EPKEParameters) {A} (o : outcome Solver A) : Prop :=
  post o (fun _ s' => well_sized p s') (fun f _ => f = terminate).

(** The concentration histories of a solver under construction from [p] and
    [h], as the first loop nest has filled them before the pass [(k, n)]. *)
Definition conc_filled (p : EPKEParameters) (h : EPKEOutput) (k n : Z) (s : Solver) : Prop :=
  power s = power (Solver_init p h) /\ rho s = rho (Solver_init p h) /\
  same_shape (Solver_init p h) s /\
  (forall k' i, Precomp.getNumTimeSteps h <= i ->
     at2 (concentrations s) k' i = at2 (concentrations (Solver_init p h)) k' i) /\
  (forall k' i, 0 <= i < Precomp.getNumTimeSteps h ->
     0 <= k' < k \/ (k' = k /\ i < n) ->
     at2 (concentrations s) k' i = Precomp.getConcentration h k' i).

(** Its power and reactivity histories, as the second loop has filled them
    before the pass [n]; [s1] is the state the first loop nest left. *)
Definition prefix_filled (p : EPKEParameters) (h : EPKEOutput) (s1 : Solver) (n : Z)
    (s : Solver) : Prop :=
  concentrations s = concentrations s1 /\ same_shape (Solver_init p h) s /\
  (forall i, Precomp.getNumTimeSteps h <= i ->
     at_ (power s) i = at_ (power (Solver_init p h)) i /\
     at_ (rho s) i = at_ (rho (Solver_init p h)) i) /\
  (forall i, 0 <= i < n ->
     at_ (power s) i = Precomp.getPower h i /\ at_ (rho s) i = Precomp.getRho h i).

(** Two solver states with the same parameters and sizes that agree on the
    power history below [np], the reactivity history below [nr], the
    concentration histories below [nc] and, for the groups below [kc], at
    [nc], and on the scratch below [ko] and [kz]. *)
Record agree (p : EPKEParameters) (np nr nc kc ko kz : Z) (s1 s2 : Solver) : Prop := {
  agree_params1 : params s1 = p;
  agree_params2 : params s2 = p;
  agree_len_power : length (power s1) = length (power s2);
  agree_len_rho : length (rho s1) = length (rho s2);
  agree_len_omega : length (omega s1) = length (omega s2);
  agree_len_zeta_hat : length (zeta_hat s1) = length (zeta_hat s2);
  agree_shape_conc : length <$> concentrations s1 = length <$> concentrations s2;
  agree_power : forall i, i < np -> at_ (power s1) i = at_ (power s2) i;
  agree_rho : forall i, i < nr -> at_ (rho s1) i = at_ (rho s2) i;
  agree_conc : forall k i,
      0 <= k < Params.getNumPrecursors p ->
      i < nc \/ (i = nc /\ k < kc) ->
      at2 (concentrations s1) k i = at2 (concentrations s2) k i;
  agree_omega : forall k, 0 <= k < ko -> at_ (omega s1) k = at_ (omega s2) k;
  agree_zeta_hat : forall k, 0 <= k < kz -> at_ (zeta_hat s1) k = at_ (zeta_hat s2) k
}.

Arguments agree_params1 {_ _ _ _ _ _ _ _ _} _.
Arguments agree_params2 {_ _ _ _ _ _ _ _ _} _.
Arguments agree_len_power {_ _ _ _ _ _ _ _ _} _.
Arguments agree_len_rho {_ _ _ _ _ _ _ _ _} _.
Arguments agree_len_omega {_ _ _ _ _ _ _ _ _} _.
Arguments agree_len_zeta_hat {_ _ _ _ _ _ _ _ _} _.
Arguments agree_shape_conc {_ _ _ _ _ _ _ _ _} _.
Arguments agree_power {_ _ _ _ _ _ _ _ _} _ _ _.
Arguments agree_rho {_ _ _ _ _ _ _ _ _} _ _ _.
Arguments agree_conc {_ _ _ _ _ _ _ _ _} _ _ _ _ _.
Arguments agree_omega {_ _ _ _ _ _ _ _ _} _ _ _.
Arguments agree_zeta_hat {_ _ _ _ _ _ _ _ _} _ _ _.

(** The two states agree on all the history below [n]. *)
Definition agree_below (p : EPKEParameters) (n : Z) (s1 s2 : Solver) : Prop :=
  agree p n n n 0 0 0 s1 s2.

(** The history provider holds as many reactivities as powers, and a
    concentration history of that length for each precursor group of [p]. *)
Definition rectangular (p : EPKEParameters) (h : EPKEOutput) : Prop :=
  length (out_rho h) = length (out_power h) /\
  length (out_concentrations h) = length (decay_constant p) /\
  Forall (fun row => length row = length (out_power h)) (out_concentrations h).

#[global] Instance rectangular_dec p h : Decision (rectangular p h).
Proof. unfold rectangular. apply _. Defined.

(** The coefficients [om], [zh] of group [k] at step [n], as [computePower]
    computes them from the state [s]. *)
Definition group_coefficients (X : Externals) (s : Solver) (n : Z) (gamma : float) (k : Z)
    (om zh : float) : Prop :=
  exists lam dt,
    Params.getDecayConstant (params s) k n = Good lam /\ computeDT s n = Good dt /\
    computeOmega X s k n (1 / E X lam dt)%float gamma = Good om /\
    computeZetaHat X s k n (1 / E X lam dt)%float gamma = Good zh.

(** The text [acc] of a stream after [n] of the values [V], each followed
    by a blank but the last: with the values to come it makes the joined
    text. *)
Definition streamed (V : list string) (n : nat) (acc : string) : Prop :=
  (acc ++ joined (drop n V))%string = joined V.

(** A handle below the child [i] of a node. *)
Definition below (i : nat) (h : handle) : handle := cons i <$> h.

(** The outcome on a node, of an operation on its last child [c]: [l] are
    the children before [c], [g] takes the handle returned to the one from
    the node. *)
Definition embed {A} (i : nat) (l : list xml_node) (nd : xml_node)
    (o : outcome xml_node A) (g : A -> A) : outcome xml_node A :=
  match o with
  | Ok a c' => Ok (g a) (with_children (l ++ [c']) nd)
  | Fail f c' => Fail f (with_children (l ++ [c']) nd)
  end.

(** The members [buildXMLDoc] reads are as long as the grid, and a power
    normalisation is given at every grid point. *)
Record printable (s : Solver) : Prop := {
  printable_pow_norm : (length (time (params s)) <= length (pow_norm (params s)))%nat;
  printable_power : length (power s) = length (time (params s));
  printable_rho : length (rho s) = length (time (params s));
  printable_groups : length (concentrations s) = length (decay_constant (params s));
  printable_rows :
    Forall (fun row => length row = length (time (params s))) (concentrations s)
}.

(** The document while the loop of [buildXMLDoc] over the groups runs: [ch]
    are the children it had, [T], [P], [R] the elements of the times, the
    powers and the reactivities, [cs] the elements of the groups done. *)
Definition document_with (ch : list xml_node) (T P R : xml_node) (cs : list xml_node)
    : xml_node :=
  document (ch ++ [element "epke_output" [] [T; P; R; element "concentrations" [] cs]]).

(** ** Runs and their calls *)

(** The outcome of a run without the list of its calls, and the list. *)
Definition untraced {A} (o : outcome (Solver * list call) A) : outcome Solver A :=
  match o with Ok a sl => Ok a sl.1 | Fail f sl => Fail f sl.1 end.
Definition calls {A} (o : outcome (Solver * list call) A) : list call := (state_of o).2.

Definition completed {S A} (o : outcome S A) : bool :=
  match o with Ok _ _ => true | Fail _ _ => false end.

Definition untested (c : call) : Prop :=
  match c with call_acceptTransformation _ => False | _ => True end.

(** The steps for which [computeABC] was called, in the order of the calls. *)
Definition abc_steps (l : list call) : list Z :=
  omap (fun c => match c with call_computeABC n => Some n | _ => None end) l.

(** What a piece of a run adds to the list: no call of the acceptance test,
    and calls of [computeABC] for the steps [ns], all of them if the piece
    completed, the first ones if it failed. *)
Definition spends (ns : list Z) (ok : bool) (seg : list call) : Prop :=
  Forall untested seg /\
  if ok then abc_steps seg = ns else abc_steps seg `prefix_of` ns.

(** [mt] is [m] with its calls listed. *)
Definition logs {A} (mt : Traced A) (m : M Solver A) (ns : list Z) : Prop :=
  forall s l,
    untraced (mt (s, l)) = m s /\
    exists seg, calls (mt (s, l)) = l ++ seg /\ spends ns (completed (mt (s, l))) seg.

(** * Reasoning about the monads *)

Section Monads.
Context {S : Type}.

Lemma bind_unfold {A B} (m : M S A) (k : A -> M S B) (s : S) :
  (m ≫= k) s = match m s with Ok a s' => k a s' | Fail f s' => Fail f s' end.
Proof. reflexivity. Qed.

Lemma post_mono {A} (o : outcome S A) (Q Q' : A -> S -> Prop) (R R' : failure -> S -> Prop) :
  post o Q R -> (forall a s, Q a s -> Q' a s) -> (forall f s, R f s -> R' f s) ->
  post o Q' R'.
Proof. destruct o; cbn; auto. Qed.

Lemma post_bind {A B} (m : M S A) (k : A -> M S B) s Q' Q R :
  post (m s) Q' R -> (forall a s', Q' a s' -> post (k a s') Q R) ->
  post ((m ≫= k) s) Q R.
Proof. rewrite bind_unfold. destruct (m s); cbn; auto. Qed.

Lemma post_lift {A} (r : result A) s (Q : A -> S -> Prop) (R : failure -> S -> Prop) :
  match r with Good a => Q a s | Bad f => R f s end -> post (lift r s) Q R.
Proof. destruct r; auto. Qed.

Lemma both_bind {A B} (m1 m2 : M S A) (k1 k2 : A -> M S B) s1 s2 Q' Q :
  both (m1 s1) (m2 s2) Q' ->
  (forall a s1' s2', Q' a s1' s2' -> both (k1 a s1') (k2 a s2') Q) ->
  both ((m1 ≫= k1) s1) ((m2 ≫= k2) s2) Q.
Proof.
  rewrite !bind_unfold. destruct (m1 s1), (m2 s2); cbn; try tauto.
  intros [<- HQ] Hk. auto.
Qed.

Lemma both_lift {A} (r1 r2 : result A) s1 s2 (Q : A -> S -> S -> Prop) :
  r1 = r2 -> (forall a, r1 = Good a -> Q a s1 s2) -> both (lift r1 s1) (lift r2 s2) Q.
Proof. intros <- HQ. destruct r1; cbn; auto. Qed.

Lemma both_mono {A} (o1 o2 : outcome S A) (Q Q' : A -> S -> S -> Prop) :
  both o1 o2 Q -> (forall a s1 s2, Q a s1 s2 -> Q' a s1 s2) -> both o1 o2 Q'.
Proof. destruct o1, o2; cbn; try tauto. intros [-> HQ] H. auto. Qed.

(** ** Loops *)

Lemma for_each_app {A} (body : Z -> A -> M S A) (l1 l2 : list Z) (a : A) (s : S) :
  for_each body (l1 ++ l2) a s = (a' ← for_each body l1 a; for_each body l2 a') s.
Proof.
  revert a s. induction l1 as [|n l1 IH]; intros a s; [reflexivity|].
  cbn [for_each app]. rewrite !bind_unfold. destruct (body n a s); [apply IH | reflexivity].
Qed.

Lemma for_range_nil {A} (lo hi : Z) (body : Z -> A -> M S A) a s :
  hi <= lo -> for_range lo hi body a s = Ok a s.
Proof. intros. unfold for_range. rewrite seqZ_nil by lia. reflexivity. Qed.

Lemma for_range_cons {A} (lo hi : Z) (body : Z -> A -> M S A) a s :
  lo < hi ->
  for_range lo hi body a s = (a' ← body lo a; for_range (lo + 1) hi body a') s.
Proof.
  intros. unfold for_range. rewrite seqZ_cons by lia. cbn [for_each].
  replace (Z.succ lo) with (lo + 1) by lia.
  replace (Z.pred (hi - lo)) with (hi - (lo + 1)) by lia. reflexivity.
Qed.

Lemma for_range_split {A} (lo mid hi : Z) (body : Z -> A -> M S A) a s :
  lo <= mid <= hi ->
  for_range lo hi body a s = (a' ← for_range lo mid body a; for_range mid hi body a') s.
Proof.
  intros. unfold for_range.
  replace (hi - lo) with ((mid - lo) + (hi - mid)) by lia.
  rewrite seqZ_app by lia. rewrite for_each_app.
  replace (lo + (mid - lo)) with mid by lia. reflexivity.
Qed.

(** Induction over the iterations of a loop, first iteration first. *)
Lemma for_range_ind {A} (body : Z -> A -> M S A) (hi : Z)
    (P : Z -> A -> S -> outcome S A -> Prop) :
  (forall lo a s, hi <= lo -> P lo a s (Ok a s)) ->
  (forall lo a s, lo < hi ->
     (forall a' s', body lo a s = Ok a' s' ->
        P (lo + 1) a' s' (for_range (lo + 1) hi body a' s')) ->
     P lo a s ((a' ← body lo a; for_range (lo + 1) hi body a') s)) ->
  forall lo a s, P lo a s (for_range lo hi body a s).
Proof.
  intros Hnil Hcons lo a s.
  remember (Z.to_nat (hi - lo)) as k eqn:Hk. revert lo a s Hk.
  induction k as [|k IH]; intros lo a s Hk.
  - rewrite for_range_nil by lia. apply Hnil. lia.
  - rewrite for_range_cons by lia. apply Hcons; [lia|].
    intros a' s' _. apply IH. lia.
Qed.

(** The invariant rule: [Inv n] holds before iteration [n]. *)
Lemma post_for_range {A} (Inv : Z -> A -> S -> Prop) (R : failure -> S -> Prop)
    (body : Z -> A -> M S A) (lo0 hi : Z) :
  (forall n a s, lo0 <= n < hi -> Inv n a s ->
     post (body n a s) (Inv (n + 1)) R) ->
  forall lo a s, lo0 <= lo -> Inv lo a s ->
    post (for_range lo hi body a s) (Inv (Z.max lo hi)) R.
Proof.
  intros Hbody lo a s. pattern lo, a, s, (for_range lo hi body a s).
  apply for_range_ind; clear lo a s.
  - intros lo a s Hle _ HI. cbn. rewrite Z.max_l by lia. exact HI.
  - intros lo a s Hlt IH Hlo HI. rewrite bind_unfold.
    specialize (Hbody lo a s ltac:(lia) HI).
    destruct (body lo a s) as [a' s'|f s'] eqn:Hb; cbn in Hbody |- *; [|exact Hbody].
    specialize (IH a' s' eq_refl ltac:(lia) Hbody).
    rewrite Z.max_r by lia. rewrite Z.max_r in IH by lia. exact IH.
Qed.

(** The same for two runs of two loops side by side. *)
Lemma both_for_range {A} (Inv : Z -> A -> S -> S -> Prop)
    (body1 body2 : Z -> A -> M S A) (lo0 hi : Z) :
  (forall n a s1 s2, lo0 <= n < hi -> Inv n a s1 s2 ->
     both (body1 n a s1) (body2 n a s2) (Inv (n + 1))) ->
  forall lo a s1 s2, lo0 <= lo -> Inv lo a s1 s2 ->
    both (for_range lo hi body1 a s1) (for_range lo hi body2 a s2) (Inv (Z.max lo hi)).
Proof.
  intros Hbody lo a s1 s2 Hlo HI.
  remember (Z.to_nat (hi - lo)) as k eqn:Hk. revert lo a s1 s2 Hlo HI Hk.
  induction k as [|k IH]; intros lo a s1 s2 Hlo HI Hk.
  - rewrite !for_range_nil by lia. cbn. rewrite Z.max_l by lia. auto.
  - rewrite !for_range_cons by lia.
    eapply both_bind; [apply Hbody; [lia | exact HI]|].
    intros a' s1' s2' HI'. cbn beta.
    replace (Z.max lo hi) with (Z.max (lo + 1) hi) by lia.
    apply IH; [lia | exact HI' | lia].
Qed.

(** A failed loop failed in one iteration, after the ones before it
    completed. *)
Lemma for_range_Fail {A} (body : Z -> A -> M S A) (hi lo : Z) a s f s' :
  for_range lo hi body a s = Fail f s' ->
  exists n a_n s_n, lo <= n < hi /\
    for_range lo n body a s = Ok a_n s_n /\ body n a_n s_n = Fail f s'.
Proof.
  pattern lo, a, s, (for_range lo hi body a s).
  apply for_range_ind; clear lo a s.
  - discriminate.
  - intros lo a s Hlt IH. rewrite bind_unfold.
    destruct (body lo a s) as [a1 s1|f1 s1] eqn:Hb.
    + intros H. destruct (IH a1 s1 eq_refl H) as (n & a_n & s_n & Hn & Hpre & Hfail).
      exists n, a_n, s_n. split; [lia|]. split; [|exact Hfail].
      rewrite for_range_cons by lia. rewrite bind_unfold, Hb. exact Hpre.
    + intros [= -> ->]. exists lo, a, s. split; [lia|].
      split; [apply for_range_nil; lia | exact Hb].
Qed.

(** In a completed loop every iteration ran, on the state the ones before it
    left. *)
Lemma for_range_Ok {A} (body : Z -> A -> M S A) (lo hi : Z) a s a' s' n :
  for_range lo hi body a s = Ok a' s' -> lo <= n < hi ->
  exists a_n s_n a_m s_m,
    for_range lo n body a s = Ok a_n s_n /\ body n a_n s_n = Ok a_m s_m /\
    for_range (n + 1) hi body a_m s_m = Ok a' s'.
Proof.
  intros H Hn. rewrite (for_range_split lo n hi) in H by lia.
  rewrite bind_unfold in H.
  destruct (for_range lo n body a s) as [a_n s_n|] eqn:Hpre; [|discriminate].
  rewrite for_range_cons in H by lia. rewrite bind_unfold in H.
  destruct (body n a_n s_n) as [a_m s_m|] eqn:Hb; [|discriminate].
  exists a_n, s_n, a_m, s_m. auto.
Qed.

End Monads.

(** * Vectors *)

Section Vectors.
Context {A : Type}.
Implicit Types (v : list A) (m : list (list A)).

Lemma at_Good v i x :
  at_ v i = Good x <-> 0 <= i /\ v !! Z.to_nat i = Some x.
Proof.
  unfold at_. destruct (Z.ltb_spec i 0).
  - split; [discriminate | lia].
  - destruct (v !! Z.to_nat i) eqn:E; split.
    + intros [= ->]. auto.
    + intros [_ [= ->]]. reflexivity.
    + discriminate.
    + intros [_ [=]].
Qed.

Lemma at_Bad v i f : at_ v i = Bad f -> f = out_of_range.
Proof.
  unfold at_. destruct (i <? 0); [congruence|].
  destruct (v !! Z.to_nat i); congruence.
Qed.

Lemma at_ok v i : 0 <= i < Z.of_nat (length v) -> exists x, at_ v i = Good x.
Proof.
  intros Hi. destruct (lookup_lt_is_Some_2 v (Z.to_nat i)) as [x Hx]; [lia|].
  exists x. apply at_Good. split; [lia | exact Hx].
Qed.

Lemma at_negative v i : i < 0 -> at_ v i = Bad out_of_range.
Proof. intros. unfold at_. destruct (Z.ltb_spec i 0); [reflexivity | lia]. Qed.

Lemma at_beyond v i : Z.of_nat (length v) <= i -> at_ v i = Bad out_of_range.
Proof.
  intros. unfold at_. destruct (i <? 0); [reflexivity|].
  rewrite lookup_ge_None_2 by lia. reflexivity.
Qed.

Lemma at_ext v v' : (forall i, at_ v i = at_ v' i) -> v = v'.
Proof.
  intros H. apply list_eq. intros i.
  specialize (H (Z.of_nat i)). unfold at_ in H.
  destruct (Z.ltb_spec (Z.of_nat i) 0); [lia|]. rewrite Nat2Z.id in H.
  destruct (v !! i) eqn:E1, (v' !! i) eqn:E2; congruence.
Qed.

Lemma in_range_spec v i : in_range v i = true <-> 0 <= i < Z.of_nat (length v).
Proof. unfold in_range. rewrite andb_true_iff, Z.leb_le, Z.ltb_lt. tauto. Qed.

Lemma store_Good v j x v' :
  store v j x = Good v' ->
  0 <= j < Z.of_nat (length v) /\ v' = <[Z.to_nat j := x]> v.
Proof.
  unfold store. destruct (in_range v j) eqn:E; [|discriminate].
  apply in_range_spec in E. intros [= <-]. auto.
Qed.

Lemma store_Bad v j x f : store v j x = Bad f -> f = undefined.
Proof. unfold store. destruct (in_range v j); congruence. Qed.

Lemma store_ok v j x :
  0 <= j < Z.of_nat (length v) -> store v j x = Good (<[Z.to_nat j := x]> v).
Proof. intros H. unfold store. apply in_range_spec in H. rewrite H. reflexivity. Qed.

Lemma at_insert_eq v j x :
  0 <= j < Z.of_nat (length v) -> at_ (<[Z.to_nat j := x]> v) j = Good x.
Proof.
  intros. apply at_Good. split; [lia|]. apply list_lookup_insert_eq. lia.
Qed.

Lemma at_insert_ne v j x i :
  0 <= j -> i <> j -> at_ (<[Z.to_nat j := x]> v) i = at_ v i.
Proof.
  intros. unfold at_. destruct (Z.ltb_spec i 0); [reflexivity|].
  rewrite list_lookup_insert_ne by lia. reflexivity.
Qed.

End Vectors.

Section Rows.
Context {A : Type}.
Implicit Types (m : list (list A)).

Lemma at2_Bad m k i f : at2 m k i = Bad f -> f = out_of_range.
Proof.
  unfold at2. destruct (at_ m k) eqn:E; cbn.
  - apply at_Bad.
  - intros [= <-]. exact (at_Bad _ _ _ E).
Qed.

Lemma at2_ok m k i (n : nat) :
  Forall (fun row => length row = n) m ->
  0 <= k < Z.of_nat (length m) -> 0 <= i < Z.of_nat n ->
  exists x, at2 m k i = Good x.
Proof.
  intros Hrows Hk Hi. destruct (at_ok m k Hk) as [row Hrow].
  unfold at2. rewrite Hrow. cbn. apply at_ok.
  apply at_Good in Hrow as [_ Hrow].
  rewrite Forall_lookup in Hrows. rewrite (Hrows _ _ Hrow). exact Hi.
Qed.

Lemma store2_Good m k n x m' :
  store2 m k n x = Good m' ->
  exists row, 0 <= k /\ m !! Z.to_nat k = Some row /\
    0 <= n < Z.of_nat (length row) /\
    m' = <[Z.to_nat k := <[Z.to_nat n := x]> row]> m.
Proof.
  unfold store2. destruct (in_range m k) eqn:E; [|discriminate].
  apply in_range_spec in E.
  destruct (m !! Z.to_nat k) as [row|] eqn:Hrow; [|discriminate].
  destruct (store row n x) as [row'|] eqn:Hs; [|discriminate]. cbn.
  apply store_Good in Hs as [Hn ->]. intros [= <-].
  exists row. repeat split; auto; lia.
Qed.

Lemma store2_Bad m k n x f : store2 m k n x = Bad f -> f = undefined.
Proof.
  unfold store2. destruct (in_range m k); [|congruence].
  destruct (m !! Z.to_nat k); [|congruence].
  destruct (store l n x) eqn:E; cbn; [discriminate|].
  intros [= <-]. exact (store_Bad _ _ _ _ E).
Qed.

Lemma store2_ok m k i x (n : nat) :
  Forall (fun row => length row = n) m ->
  0 <= k < Z.of_nat (length m) -> 0 <= i < Z.of_nat n ->
  exists m', store2 m k i x = Good m'.
Proof.
  intros Hrows Hk Hi. unfold store2.
  pose proof (proj2 (in_range_spec m k) Hk) as ->.
  destruct (lookup_lt_is_Some_2 m (Z.to_nat k)) as [row Hrow]; [lia|].
  rewrite Hrow. rewrite Forall_lookup in Hrows.
  rewrite store_ok by (rewrite (Hrows _ _ Hrow); exact Hi). cbn. eauto.
Qed.

Lemma store2_shape m k n x m' :
  store2 m k n x = Good m' -> length <$> m' = length <$> m.
Proof.
  intros H. apply store2_Good in H as (row & Hk & Hrow & Hn & ->).
  rewrite list_fmap_insert, length_insert.
  apply list_insert_id. rewrite list_lookup_fmap, Hrow. reflexivity.
Qed.

Lemma store2_at2_eq m k n x m' :
  store2 m k n x = Good m' -> at2 m' k n = Good x.
Proof.
  intros H. apply store2_Good in H as (row & Hk & Hrow & Hn & ->).
  unfold at2.
  assert (at_ (<[Z.to_nat k := <[Z.to_nat n := x]> row]> m) k
          = Good (<[Z.to_nat n := x]> row)) as ->.
  { apply at_insert_eq. apply lookup_lt_Some in Hrow. lia. }
  cbn. apply at_insert_eq. exact Hn.
Qed.

Lemma store2_at2_ne m k n x m' k' i :
  store2 m k n x = Good m' -> k' <> k \/ i <> n -> at2 m' k' i = at2 m k' i.
Proof.
  intros H Hne. apply store2_Good in H as (row & Hk & Hrow & Hn & ->).
  unfold at2. destruct (Z.eq_dec k' k) as [->|Hk'].
  - assert (at_ (<[Z.to_nat k := <[Z.to_nat n := x]> row]> m) k
            = Good (<[Z.to_nat n := x]> row)) as ->.
    { apply at_insert_eq. apply lookup_lt_Some in Hrow. lia. }
    assert (at_ m k = Good row) as -> by (apply at_Good; auto).
    cbn. apply at_insert_ne; [lia|]. destruct Hne; congruence.
  - rewrite at_insert_ne by lia. reflexivity.
Qed.

End Rows.

(** * What a method leaves alone *)

Section Frame.

Lemma same_shape_refl s : same_shape s s.
Proof. split; reflexivity. Qed.

Lemma same_shape_trans s1 s2 s3 : same_shape s1 s2 -> same_shape s2 s3 -> same_shape s1 s3.
Proof. intros [] []. split; congruence. Qed.

Lemma same_history_refl i s : same_history_at i s s.
Proof. split; reflexivity. Qed.

Lemma same_history_trans i s1 s2 s3 :
  same_history_at i s1 s2 -> same_history_at i s2 s3 -> same_history_at i s1 s3.
Proof. intros [? ? H1] [? ? H2]. split; [congruence..|]. intros k. rewrite H2. apply H1. Qed.

Lemma unchanged_refl lo hi s : unchanged_outside lo hi s s.
Proof. split; [apply same_shape_refl | intros; apply same_history_refl]. Qed.

Lemma unchanged_trans lo hi s1 s2 s3 :
  unchanged_outside lo hi s1 s2 -> unchanged_outside lo hi s2 s3 ->
  unchanged_outside lo hi s1 s3.
Proof.
  intros [S1 H1] [S2 H2]. split; [eapply same_shape_trans; eauto|].
  intros i Hi. eapply same_history_trans; eauto.
Qed.

Lemma unchanged_mono lo hi lo' hi' s s' :
  unchanged_outside lo hi s s' -> lo' <= lo -> hi <= hi' ->
  unchanged_outside lo' hi' s s'.
Proof. intros [S1 H1] ? ?. split; [exact S1|]. intros i Hi. apply H1. lia. Qed.

Lemma scratch_only_refl s : scratch_only s s.
Proof. split; [apply same_shape_refl | auto]. Qed.

Lemma scratch_only_trans s1 s2 s3 :
  scratch_only s1 s2 -> scratch_only s2 s3 -> scratch_only s1 s3.
Proof.
  intros (S1 & ? & ? & ?) (S2 & ? & ? & ?).
  split; [eapply same_shape_trans; eauto | repeat split; congruence].
Qed.

Lemma scratch_only_unchanged lo hi s s' : scratch_only s s' -> unchanged_outside lo hi s s'.
Proof.
  intros (S1 & Hp & Hr & Hc). split; [exact S1|]. intros i _.
  split; [rewrite Hp | rewrite Hr | intros k; rewrite Hc]; reflexivity.
Qed.

(** The stores. *)

Lemma set_power_unfold n x s :
  set_power n x s = match store (power s) n x with
                    | Good v => Ok tt (with_power v s)
                    | Bad f => Fail f s
                    end.
Proof. unfold set_power, get, put. rewrite !bind_unfold. unfold lift. destruct (store _ _ _); reflexivity. Qed.

Lemma set_rho_unfold n x s :
  set_rho n x s = match store (rho s) n x with
                  | Good v => Ok tt (with_rho v s)
                  | Bad f => Fail f s
                  end.
Proof. unfold set_rho, get, put. rewrite !bind_unfold. unfold lift. destruct (store _ _ _); reflexivity. Qed.

Lemma set_omega_unfold k x s :
  set_omega k x s = match store (omega s) k x with
                    | Good v => Ok tt (with_omega v s)
                    | Bad f => Fail f s
                    end.
Proof. unfold set_omega, get, put. rewrite !bind_unfold. unfold lift. destruct (store _ _ _); reflexivity. Qed.

Lemma set_zeta_hat_unfold k x s :
  set_zeta_hat k x s = match store (zeta_hat s) k x with
                       | Good v => Ok tt (with_zeta_hat v s)
                       | Bad f => Fail f s
                       end.
Proof. unfold set_zeta_hat, get, put. rewrite !bind_unfold. unfold lift. destruct (store _ _ _); reflexivity. Qed.

Lemma set_concentration_unfold k n x s :
  set_concentration k n x s = match store2 (concentrations s) k n x with
                              | Good v => Ok tt (with_concentrations v s)
                              | Bad f => Fail f s
                              end.
Proof. unfold set_concentration, get, put. rewrite !bind_unfold. unfold lift. destruct (store2 _ _ _ _); reflexivity. Qed.

Lemma set_power_frame n x s : unchanged_outside n (n + 1) s (state_of (set_power n x s)).
Proof.
  rewrite set_power_unfold. destruct (store _ _ _) as [v|] eqn:E; cbn; [|apply unchanged_refl].
  apply store_Good in E as [Hn ->]. split.
  - split; cbn; auto. apply length_insert.
  - intros i Hi. split; cbn; auto. apply at_insert_ne; lia.
Qed.

Lemma set_rho_frame n x s : unchanged_outside n (n + 1) s (state_of (set_rho n x s)).
Proof.
  rewrite set_rho_unfold. destruct (store _ _ _) as [v|] eqn:E; cbn; [|apply unchanged_refl].
  apply store_Good in E as [Hn ->]. split.
  - split; cbn; auto. apply length_insert.
  - intros i Hi. split; cbn; auto. apply at_insert_ne; lia.
Qed.

Lemma set_concentration_frame k n x s :
  unchanged_outside n (n + 1) s (state_of (set_concentration k n x s)).
Proof.
  rewrite set_concentration_unfold.
  destruct (store2 _ _ _ _) as [v|] eqn:E; cbn; [|apply unchanged_refl]. split.
  - split; cbn; auto. eapply store2_shape; eauto.
  - intros i Hi. split; cbn; auto. intros k'. eapply store2_at2_ne; eauto. right. lia.
Qed.

Lemma set_omega_frame k x s : scratch_only s (state_of (set_omega k x s)).
Proof.
  rewrite set_omega_unfold. destruct (store _ _ _) as [v|] eqn:E; cbn; [|apply scratch_only_refl].
  apply store_Good in E as [Hn ->]. split; [|auto].
  split; cbn; auto. apply length_insert.
Qed.

Lemma set_zeta_hat_frame k x s : scratch_only s (state_of (set_zeta_hat k x s)).
Proof.
  rewrite set_zeta_hat_unfold. destruct (store _ _ _) as [v|] eqn:E; cbn; [|apply scratch_only_refl].
  apply store_Good in E as [Hn ->]. split; [|auto].
  split; cbn; auto. apply length_insert.
Qed.

(** Composition of frames. *)

Lemma frame_bind {A B} (R : Solver -> Solver -> Prop) (m : M Solver A) (k : A -> M Solver B) s :
  (forall s1 s2 s3, R s1 s2 -> R s2 s3 -> R s1 s3) ->
  R s (state_of (m s)) ->
  (forall a s', m s = Ok a s' -> R s' (state_of (k a s'))) ->
  R s (state_of ((m ≫= k) s)).
Proof.
  intros Htrans Hm Hk. rewrite bind_unfold.
  destruct (m s) as [a s'|f s'] eqn:E; cbn in *; [|exact Hm].
  eapply Htrans; [exact Hm | apply Hk; reflexivity].
Qed.

Lemma frame_lift {A} (R : Solver -> Solver -> Prop) (r : result A) s :
  R s s -> R s (state_of (lift r s)).
Proof. destruct r; auto. Qed.

Lemma frame_for_range {A} (R : Solver -> Solver -> Prop) (body : Z -> A -> M Solver A) lo hi a s :
  (forall s, R s s) ->
  (forall s1 s2 s3, R s1 s2 -> R s2 s3 -> R s1 s3) ->
  (forall n a s, lo <= n < hi -> R s (state_of (body n a s))) ->
  R s (state_of (for_range lo hi body a s)).
Proof.
  intros Hrefl Htrans Hbody.
  enough (forall l, lo <= l -> R s (state_of (for_range l hi body a s))) as H
    by (apply H; lia).
  intros l. pattern l, a, s, (for_range l hi body a s).
  apply for_range_ind; clear l a s.
  - intros; cbn; auto.
  - intros l a s Hlt IH Hl.
    apply frame_bind; [exact Htrans | apply Hbody; lia |].
    intros a' s' E. apply IH; [exact E | lia].
Qed.

End Frame.

(** * The frame of the step *)

Lemma frame_ret {A} (R : Solver -> Solver -> Prop) (a : A) s :
  R s s -> R s (state_of (mret (M := M Solver) a s)).
Proof. auto. Qed.

Lemma frame_get (R : Solver -> Solver -> Prop) s :
  R s s -> R s (state_of (get s)).
Proof. auto. Qed.

(** A relation that is reflexive and transitive and that every store of a
    method respects is respected by the method. *)
Ltac frame_with Hrefl Htrans setters :=
  repeat first
    [ apply frame_ret, Hrefl
    | apply frame_get, Hrefl
    | apply frame_lift, Hrefl
    | solve [setters]
    | match goal with
      | |- context [match ?a with pair _ _ => _ end] => is_var a; destruct a
      end
    | apply frame_bind; [exact Htrans | | intros ? ? _]
    | apply frame_for_range; [exact Hrefl | exact Htrans | intros ? ? ? _] ].

Section StepFrame.
Context (X : Externals).

Lemma computePower_group_frame n gamma k acc s :
  scratch_only s (state_of (computePower_group X n gamma k acc s)).
Proof.
  destruct acc as [[tau s_hat_d] s_d_prev]. unfold computePower_group.
  frame_with scratch_only_refl scratch_only_trans
    ltac:(first [apply set_omega_frame | apply set_zeta_hat_frame]).
Qed.

Lemma computePower_frame n alpha gamma s :
  scratch_only s (state_of (computePower X n alpha gamma s)).
Proof.
  unfold computePower.
  frame_with scratch_only_refl scratch_only_trans
    ltac:(apply computePower_group_frame).
Qed.

Lemma solve_update_frame n alpha gamma s :
  unchanged_outside n (n + 1) s (state_of (solve_update X n alpha gamma s)).
Proof.
  unfold solve_update, update_concentrations, update_rho.
  frame_with (unchanged_refl n (n + 1)) (unchanged_trans n (n + 1))
    ltac:(first [ apply set_power_frame | apply set_rho_frame
                | apply set_concentration_frame
                | apply scratch_only_unchanged, computePower_frame ]).
Qed.

Lemma solve_alpha_lift n alpha s :
  solve_alpha X n alpha s =
  lift (if n >? 1 then extrapolation_rate X s n else Good alpha) s.
Proof.
  unfold solve_alpha, extrapolation_rate. destruct (n >? 1); [|reflexivity].
  rewrite bind_unfold. cbn [get].
  destruct (computeDT s (n - 1)) as [dt|]; [|reflexivity]. cbn.
  destruct (at_ (power s) (n - 1)) as [p1|]; [|reflexivity]. cbn.
  destruct (at_ (power s) (n - 2)) as [p2|]; reflexivity.
Qed.

Lemma solve_alpha_state n alpha s : state_of (solve_alpha X n alpha s) = s.
Proof. rewrite solve_alpha_lift. destruct (if n >? 1 then _ else _); reflexivity. Qed.

Lemma solve_step_frame n alpha s :
  unchanged_outside n (n + 1) s (state_of (solve_step X n alpha s)).
Proof.
  unfold solve_step.
  frame_with (unchanged_refl n (n + 1)) (unchanged_trans n (n + 1))
    ltac:(first [ apply solve_update_frame
                | rewrite solve_alpha_state; apply unchanged_refl ]).
Qed.

Lemma solve_loop_frame lo hi alpha s :
  unchanged_outside lo hi s (state_of (for_range lo hi (solve_step X) alpha s)).
Proof.
  apply frame_for_range.
  - apply unchanged_refl.
  - apply unchanged_trans.
  - intros n a s' Hn. eapply unchanged_mono; [apply solve_step_frame | lia..].
Qed.

(** [solve] as its loop, followed by the copy of the histories into the
    result. *)
Lemma solve_unfold s :
  solve X s =
  match for_range (Precomp.getNumTimeSteps (precomp s))
                  (Params.getNumTimeSteps (params s)) (solve_step X) 0%float s with
  | Ok _ s' => Ok (solve_output s') s'
  | Fail f s' => Fail f s'
  end.
Proof. unfold solve. rewrite bind_unfold. cbn [get]. rewrite bind_unfold.
  destruct (for_range _ _ _ _ _); reflexivity. Qed.

Lemma solve_frame s :
  unchanged_outside (Precomp.getNumTimeSteps (precomp s))
                    (Params.getNumTimeSteps (params s)) s (state_of (solve X s)).
Proof.
  rewrite solve_unfold.
  pose proof (solve_loop_frame (Precomp.getNumTimeSteps (precomp s))
                (Params.getNumTimeSteps (params s)) 0%float s) as H.
  destruct (for_range _ _ _ _ _); exact H.
Qed.

(** A failed run failed in one step [n]: the steps before it completed, and
    no history entry beyond [n] was touched. *)
Lemma solve_Fail s f s' :
  solve X s = Fail f s' ->
  exists n alpha_n s_n,
    (Precomp.getNumTimeSteps (precomp s) <= n < Params.getNumTimeSteps (params s)) /\
    for_range (Precomp.getNumTimeSteps (precomp s)) n (solve_step X) 0%float s
      = Ok alpha_n s_n /\
    solve_step X n alpha_n s_n = Fail f s' /\
    unchanged_outside (Precomp.getNumTimeSteps (precomp s)) (n + 1) s s'.
Proof.
  rewrite solve_unfold.
  destruct (for_range _ _ _ _ _) as [|f0 s0] eqn:E; [discriminate|].
  intros [= -> ->]. apply for_range_Fail in E as (n & a_n & s_n & Hn & Hpre & Hstep).
  exists n, a_n, s_n. split; [exact Hn|]. split; [exact Hpre|]. split; [exact Hstep|].
  eapply unchanged_trans.
  - pose proof (solve_loop_frame (Precomp.getNumTimeSteps (precomp s)) n 0%float s) as H1.
    rewrite Hpre in H1. cbn in H1. eapply unchanged_mono; [exact H1 | lia..].
  - pose proof (solve_step_frame n a_n s_n) as H2. rewrite Hstep in H2. cbn in H2.
    eapply unchanged_mono; [exact H2 | lia..].
Qed.

End StepFrame.

(** * Root selection *)

Section Floats.
Local Open Scope float_scope.

Lemma positive_not_negative (a : float) :
  (0 <? a) = true -> (a <? 0) = false /\ (a =? 0) = false.
Proof.
  rewrite !FloatAxioms.ltb_spec, FloatAxioms.eqb_spec.
  replace (Prim2SF 0) with (S754_zero false) by reflexivity.
  destruct (Prim2SF a) as [sg|sg| |sg m e]; try destruct sg; cbn; try discriminate; auto.
Qed.

Lemma zero_not_negative (a : float) : (a =? 0) = true -> (a <? 0) = false.
Proof.
  rewrite !FloatAxioms.ltb_spec, FloatAxioms.eqb_spec.
  replace (Prim2SF 0) with (S754_zero false) by reflexivity.
  destruct (Prim2SF a) as [sg|sg| |sg m e]; try destruct sg; cbn; try discriminate; auto.
Qed.

Lemma select_root_negative a b c :
  (a <? 0) = true -> select_root a b c = Good ((- b - sqrt (b * b - 4 * a * c)) / (2 * a)).
Proof. intros H. unfold select_root. rewrite H. reflexivity. Qed.

Lemma select_root_zero a b c : (a =? 0) = true -> select_root a b c = Good (- c / b).
Proof.
  intros H. unfold select_root. rewrite (zero_not_negative a H), H. reflexivity.
Qed.

Lemma select_root_positive a b c : (0 <? a) = true -> select_root a b c = Bad terminate.
Proof.
  intros H. unfold select_root.
  destruct (positive_not_negative a H) as [-> ->]. reflexivity.
Qed.

End Floats.

Section RootSelection.
Context (X : Externals).

Lemma computePower_select n alpha gamma s :
  computePower X n alpha gamma s =
  match computePower_quadratic X n alpha gamma s with
  | Ok (a, b, c) s1 => lift (select_root a b c) s1
  | Fail f s1 => Fail f s1
  end.
Proof.
  unfold computePower, computePower_quadratic. rewrite !bind_unfold. cbn [get].
  rewrite !bind_unfold.
  destruct (for_range _ _ _ _ _) as [[[tau s_hat_d] s_d_prev] s1|]; [|reflexivity].
  rewrite !bind_unfold. cbn [get]. rewrite !bind_unfold.
  destruct (computeA1B1 X s1 n gamma) as [a1b1|]; [|reflexivity]. cbn [lift].
  unfold computeABC.
  destruct (quadratic X s1 n alpha a1b1 tau s_hat_d s_d_prev) as [[[a b] c]|]; reflexivity.
Qed.

Lemma update_keeps_power n gamma s :
  power (state_of ((update_concentrations n;; update_rho X n gamma) s)) = power s.
Proof.
  unfold update_concentrations, update_rho.
  frame_with (fun s : Solver => eq_refl (power s))
    (fun s1 s2 s3 (H1 : power s2 = power s1) (H2 : power s3 = power s2) =>
       eq_trans H2 H1)
    ltac:(first [ rewrite set_concentration_unfold; destruct (store2 _ _ _ _); reflexivity
                | rewrite set_rho_unfold; destruct (store _ _ _); reflexivity ]).
Qed.

(** [power[n] = computePower(n, alpha, gamma)]: the entry of index [n] is the
    value [computePower] returned. *)
Lemma solve_update_power n alpha gamma s s' :
  solve_update X n alpha gamma s = Ok tt s' ->
  exists p s1, computePower X n alpha gamma s = Ok p s1 /\ at_ (power s') n = Good p.
Proof.
  unfold solve_update. rewrite bind_unfold.
  destruct (computePower X n alpha gamma s) as [p s1|]; [|discriminate].
  rewrite bind_unfold, set_power_unfold.
  destruct (store (power s1) n p) as [v|] eqn:Hs; [|discriminate].
  intros H. exists p, s1. split; [reflexivity|].
  pose proof (update_keeps_power n gamma (with_power v s1)) as Hk.
  rewrite H in Hk. cbn in Hk. rewrite Hk.
  apply store_Good in Hs as [Hn ->]. apply at_insert_eq. exact Hn.
Qed.

End RootSelection.

(** * The step loop against its two rewordings *)

Section Rewordings.
Context (X : Externals).

Lemma extrapolation_rate_early s n : n <= 1 -> extrapolation_rate X s n = Good 0%float.
Proof.
  intros. unfold extrapolation_rate. destruct (Z.gtb_spec n 1); [lia | reflexivity].
Qed.

(** One step: with [alpha] still at its initial value while [n <= 1], the
    rate [solve] uses is the rate of the specification, and [alpha] is
    still at its initial value after a step of index [n <= 0]. *)
Lemma solve_step_rate n alpha s :
  (n <= 1 -> alpha = 0%float) ->
  drop_value (solve_step X n alpha s) = rate_step X n tt s /\
  (forall alpha' s', solve_step X n alpha s = Ok alpha' s' -> n <= 0 -> alpha' = 0%float).
Proof.
  intros Hinv. unfold solve_step, rate_step. rewrite !bind_unfold. cbn [get].
  rewrite !bind_unfold.
  destruct (computeGamma s n) as [gamma|]; cbn [lift]; [|split; [reflexivity | discriminate]].
  rewrite !bind_unfold, solve_alpha_lift.
  destruct (Z.gtb_spec n 1) as [Hn|Hn].
  - destruct (extrapolation_rate X s n) as [a|]; cbn [lift];
      [|split; [reflexivity | discriminate]].
    rewrite !bind_unfold.
    destruct (solve_update X n a gamma s) as [[] s1|]; cbn;
      split; try reflexivity; try discriminate. intros; lia.
  - rewrite (extrapolation_rate_early s n Hn), (Hinv Hn). cbn [lift].
    rewrite !bind_unfold.
    destruct (solve_update X n 0%float gamma s) as [[] s1|]; cbn;
      split; try reflexivity; try discriminate.
    intros alpha' s' [= <- <-] _. reflexivity.
Qed.

Lemma solve_loop_rate hi lo alpha s :
  0 <= lo -> (lo <= 1 -> alpha = 0%float) ->
  drop_value (for_range lo hi (solve_step X) alpha s) = for_range lo hi (rate_step X) tt s.
Proof.
  remember (Z.to_nat (hi - lo)) as k eqn:Hk. revert lo alpha s Hk.
  induction k as [|k IH]; intros lo alpha s Hk Hlo Hinv.
  - rewrite !for_range_nil by lia. reflexivity.
  - rewrite !for_range_cons by lia. rewrite !bind_unfold.
    destruct (solve_step_rate lo alpha s Hinv) as [Hstep Hnext].
    rewrite <- Hstep.
    destruct (solve_step X lo alpha s) as [alpha' s'|]; cbn; [|reflexivity].
    apply IH; [lia | lia |]. intros H1. apply (Hnext alpha' s' eq_refl). lia.
Qed.

Lemma rate_solve_eq s : solve X s = rate_solve X s.
Proof.
  rewrite solve_unfold. unfold rate_solve. rewrite bind_unfold. cbn [get].
  rewrite bind_unfold.
  rewrite <- (solve_loop_rate _ _ 0%float s) by
    (unfold Precomp.getNumTimeSteps; first [lia | reflexivity]).
  destruct (for_range _ _ (solve_step X) _ _); reflexivity.
Qed.

End Rewordings.

Section AcceptanceTest.
Context (X : Externals).

Ltac bind_inv :=
  repeat match goal with
         | H : (?r ≫= _) = Good _ |- _ =>
           let E := fresh "E" in
           destruct r eqn:E; cbn [mbind result_bind] in H; [|discriminate H]
         end.

(** What [computeA1B1] read when it returned. *)
Lemma computeA1B1_reads s n gamma ab :
  computeA1B1 X s n gamma = Good ab ->
  exists dt p1 p2,
    computeDT s n = Good dt /\ at_ (power s) (n - 1) = Good p1 /\
    (if n <? 2 then at_ (power s) (n - 1) else at_ (power s) (n - 2)) = Good p2.
Proof.
  unfold computeA1B1. intros H. destruct (n <? 2); bind_inv; eauto 10.
Qed.

Lemma computePower_Ok n alpha gamma s p s1 :
  computePower X n alpha gamma s = Ok p s1 ->
  scratch_only s s1 /\ exists ab, computeA1B1 X s1 n gamma = Good ab.
Proof.
  intros H. split.
  - pose proof (computePower_frame X n alpha gamma s) as Hf. rewrite H in Hf. exact Hf.
  - revert H. unfold computePower. rewrite !bind_unfold. cbn [get]. rewrite !bind_unfold.
    destruct (for_range _ _ _ _ _) as [[[tau s_hat_d] s_d_prev] s0|]; [|discriminate].
    rewrite !bind_unfold. cbn [get]. rewrite !bind_unfold.
    destruct (computeA1B1 X s0 n gamma) as [ab|] eqn:Hab; [|discriminate]. cbn [lift].
    destruct (computeABC X s0 n alpha ab tau s_hat_d s_d_prev); [|discriminate].
    intros [= <- <-]. eauto.
Qed.

Lemma computeDT_params s s' n : params s' = params s -> computeDT s' n = computeDT s n.
Proof. intros H. unfold computeDT. rewrite H. reflexivity. Qed.

(** Once [power[n]] is stored the acceptance test finds all it reads. *)
Lemma acceptTransformation_Good n alpha gamma s p s1 v :
  computePower X n alpha gamma s = Ok p s1 ->
  store (power s1) n p = Good v ->
  exists verdict, acceptTransformation X (with_power v s1) n alpha gamma = Good verdict.
Proof.
  intros Hp Hs. apply computePower_Ok in Hp as [_ [ab Hab]].
  apply computeA1B1_reads in Hab as (dt & p1 & p2 & Hdt & Hp1 & Hp2).
  apply store_Good in Hs as [Hn ->].
  unfold acceptTransformation. cbn [power with_power].
  rewrite (computeDT_params s1 (with_power _ s1) n eq_refl), Hdt.
  rewrite (at_insert_eq (power s1) n p Hn).
  rewrite !(at_insert_ne (power s1) n p) by lia.
  rewrite Hp2, Hp1. cbn. eauto.
Qed.

Lemma tested_update_eq n alpha gamma s :
  tested_update X n alpha gamma s = solve_update X n alpha gamma s.
Proof.
  unfold tested_update, solve_update. rewrite !bind_unfold.
  destruct (computePower X n alpha gamma s) as [p s1|] eqn:Hp; [|reflexivity].
  rewrite !bind_unfold, set_power_unfold.
  destruct (store (power s1) n p) as [v|] eqn:Hs; [|reflexivity].
  rewrite !bind_unfold. cbn [get]. rewrite !bind_unfold.
  destruct (acceptTransformation_Good n alpha gamma s p s1 v Hp Hs) as [verdict ->].
  reflexivity.
Qed.

Lemma tested_step_eq n alpha s : tested_step X n alpha s = solve_step X n alpha s.
Proof.
  unfold tested_step, solve_step. rewrite !bind_unfold. cbn [get]. rewrite !bind_unfold.
  destruct (lift (computeGamma s n) s) as [gamma s0|]; [|reflexivity].
  rewrite !bind_unfold. destruct (solve_alpha X n alpha s0) as [a s1|]; [|reflexivity].
  rewrite !bind_unfold, tested_update_eq. reflexivity.
Qed.

Lemma for_range_ext {S A} (body1 body2 : Z -> A -> M S A) lo hi a s :
  (forall n a s, body1 n a s = body2 n a s) ->
  for_range lo hi body1 a s = for_range lo hi body2 a s.
Proof.
  intros H. unfold for_range. revert a s.
  induction (seqZ lo (hi - lo)) as [|n ns IH]; intros a s; [reflexivity|].
  cbn [for_each]. rewrite !bind_unfold, H. destruct (body2 n a s); [apply IH | reflexivity].
Qed.

Lemma tested_solve_eq s : tested_solve X s = solve X s.
Proof.
  unfold tested_solve, solve. rewrite !bind_unfold. cbn [get]. rewrite !bind_unfold.
  rewrite (for_range_ext (tested_step X) (solve_step X)) by apply tested_step_eq.
  reflexivity.
Qed.

End AcceptanceTest.

(** * The calls of a run *)

Section Logging.

Lemma spends_nil ok : spends [] ok [].
Proof. split; [constructor|]. destruct ok; reflexivity. Qed.

Lemma spends_fail ns1 ns2 seg : spends ns1 false seg -> spends (ns1 ++ ns2) false seg.
Proof. intros [H1 H2]. split; [exact H1|]. by apply prefix_app_r. Qed.

Lemma spends_app ns1 ns2 ok seg1 seg2 :
  spends ns1 true seg1 -> spends ns2 ok seg2 -> spends (ns1 ++ ns2) ok (seg1 ++ seg2).
Proof.
  intros [H1 E1] [H2 E2]. split; [apply Forall_app; auto|].
  unfold abc_steps in *. rewrite omap_app, E1.
  destruct ok; [by rewrite E2 | by apply prefix_app].
Qed.

Lemma logs_ret {A} (a : A) : logs (mret a) (mret a) [].
Proof.
  intros s l. split; [reflexivity|]. exists []. split; [|apply spends_nil].
  cbn. by rewrite app_nil_r.
Qed.

Lemma logs_lift {A} (r : result A) : logs (lift r) (lift r) [].
Proof.
  intros s l. destruct r; (split; [reflexivity|]); exists [];
    (split; [cbn; by rewrite app_nil_r | apply spends_nil]).
Qed.

Lemma logs_self : logs self get [].
Proof.
  intros s l. split; [reflexivity|]. exists []. split; [|apply spends_nil].
  cbn. by rewrite app_nil_r.
Qed.

Lemma logs_on_this {A} (m : M Solver A) : logs (on_this m) m [].
Proof.
  intros s l. unfold on_this. cbn [fst snd].
  destruct (m s); (split; [reflexivity|]); exists [];
    (split; [cbn; by rewrite app_nil_r | apply spends_nil]).
Qed.

Lemma logs_bind {A B} (mt : Traced A) (m : M Solver A) (kt : A -> Traced B)
    (k : A -> M Solver B) ns1 ns2 ns :
  logs mt m ns1 -> (forall a, logs (kt a) (k a) ns2) -> ns = ns1 ++ ns2 ->
  logs (mt ≫= kt) (m ≫= k) ns.
Proof.
  intros Hm Hk -> s l. rewrite (bind_unfold mt), (bind_unfold m).
  destruct (Hm s l) as (Hu & seg & Hc & Hs).
  destruct (mt (s, l)) as [a [s1 l1]|f [s1 l1]]; cbn in Hu, Hc, Hs; rewrite <- Hu.
  - subst l1. destruct (Hk a s1 (l ++ seg)) as (Hu2 & seg2 & Hc2 & Hs2).
    split; [exact Hu2|]. exists (seg ++ seg2). split.
    + rewrite Hc2. by rewrite app_assoc.
    + by apply spends_app.
  - split; [reflexivity|]. exists seg. split; [exact Hc|]. by apply spends_fail.
Qed.

Lemma logs_called {A} (c : call) (kt : Traced A) (m : M Solver A) ns1 ns :
  untested c -> logs kt m ns1 -> ns = abc_steps [c] ++ ns1 ->
  logs (called c;; kt) m ns.
Proof.
  intros Hc Hk -> s l. rewrite (bind_unfold (called c)). cbn [called fst snd].
  destruct (Hk s (l ++ [c])) as (Hu & seg & Hl & Hs).
  split; [exact Hu|]. exists ([c] ++ seg). split.
  - rewrite Hl. by rewrite app_assoc.
  - apply spends_app; [|exact Hs]. split; [by repeat constructor | reflexivity].
Qed.

Lemma logs_call_bind {A B} (mt : Traced A) (r : result A) (kt : A -> Traced B)
    (k : A -> result B) ns1 ns2 ns :
  logs mt (lift r) ns1 -> (forall a, logs (kt a) (lift (k a)) ns2) -> ns = ns1 ++ ns2 ->
  logs (mt ≫= kt) (lift (r ≫= k)) ns.
Proof.
  intros Hm Hk E s l.
  destruct (logs_bind mt (lift r) kt (fun a => lift (k a)) ns1 ns2 ns Hm Hk E s l)
    as [Hu Hl].
  split; [|exact Hl]. rewrite Hu. rewrite bind_unfold. by destruct r.
Qed.

Lemma logs_lift_bind {A B} (r : result A) (kt : A -> Traced B) (k : A -> result B) ns :
  (forall a, logs (kt a) (lift (k a)) ns) -> logs (lift r ≫= kt) (lift (r ≫= k)) ns.
Proof. intros Hk. by apply (logs_call_bind _ _ _ _ [] ns); [apply logs_lift | |]. Qed.

(** A loop whose passes call [computeABC] for no step, and one whose pass [n]
    calls it for the step [n]. *)
Lemma logs_for_range {A} (bt : Z -> A -> Traced A) (b : Z -> A -> M Solver A)
    (f : Z -> list Z) (hi : Z) :
  (forall n a, logs (bt n a) (b n a) (f n)) ->
  forall lo a, logs (for_range lo hi bt a) (for_range lo hi b a)
                    (concat (f <$> seqZ lo (hi - lo))).
Proof.
  intros Hb lo a. remember (Z.to_nat (hi - lo)) as j eqn:Hj. revert lo a Hj.
  induction j as [|j IH]; intros lo a Hj s l.
  - rewrite !for_range_nil by lia. rewrite seqZ_nil by lia. apply logs_ret.
  - rewrite !for_range_cons by lia.
    refine (logs_bind _ _ _ _ (f lo) (concat (f <$> seqZ (lo + 1) (hi - (lo + 1)))) _
              (Hb lo a) (fun a' => IH (lo + 1) a' ltac:(lia)) _ s l).
    rewrite (seqZ_cons lo) by lia. cbn [fmap list_fmap concat].
    replace (Z.succ lo) with (lo + 1) by lia.
    replace (Z.pred (hi - lo)) with (hi - (lo + 1)) by lia. reflexivity.
Qed.

Lemma concat_nils (l : list Z) : concat ((fun _ => @nil Z) <$> l) = [].
Proof. induction l; [reflexivity | assumption]. Qed.

Lemma concat_singletons (l : list Z) : concat ((fun n => [n]) <$> l) = l.
Proof. induction l as [|n l IH]; [reflexivity | cbn; by rewrite IH]. Qed.

(** A loop whose passes call [computeABC] for no step, and one whose pass [n]
    calls it for the step [n]. *)
Lemma logs_for_range_quiet {A} (bt : Z -> A -> Traced A) (b : Z -> A -> M Solver A)
    (lo hi : Z) (a : A) :
  (forall n a, logs (bt n a) (b n a) []) ->
  logs (for_range lo hi bt a) (for_range lo hi b a) [].
Proof.
  intros Hb. pose proof (logs_for_range bt b (fun _ => []) hi Hb lo a) as H.
  by rewrite concat_nils in H.
Qed.

Lemma logs_for_range_steps {A} (bt : Z -> A -> Traced A) (b : Z -> A -> M Solver A)
    (lo hi : Z) (a : A) :
  (forall n a, logs (bt n a) (b n a) [n]) ->
  logs (for_range lo hi bt a) (for_range lo hi b a) (seqZ lo (hi - lo)).
Proof.
  intros Hb. pose proof (logs_for_range bt b (fun n => [n]) hi Hb lo a) as H.
  by rewrite concat_singletons in H.
Qed.

End Logging.

Section CallsOfSolve.
Context (X : Externals).

Local Open Scope float_scope.

Lemma logs_computeDT s n : logs (traced_computeDT s n) (lift (computeDT s n)) [].
Proof.
  unfold traced_computeDT, computeDT.
  eapply logs_called; [exact I | | reflexivity].
  do 2 (apply logs_lift_bind; intros ?). apply logs_ret.
Qed.

(** The statements of a [const] method, one after the other. *)
Ltac log_const :=
  cbv zeta;
  first
    [ apply logs_ret
    | apply logs_lift
    | apply logs_lift_bind; let x := fresh "x" in
      intros x; try (destruct x as [[? ?] ?]); log_const
    | eapply logs_call_bind;
      [ apply logs_computeDT | intros ?; log_const | reflexivity ] ].

Lemma logs_computeGamma s n : logs (traced_computeGamma s n) (lift (computeGamma s n)) [].
Proof.
  unfold traced_computeGamma, computeGamma.
  eapply logs_called; [exact I | | reflexivity].
  destruct (n <? 2)%Z; log_const.
Qed.

Lemma logs_computeOmega s k n w gamma :
  logs (traced_computeOmega X s k n w gamma) (lift (computeOmega X s k n w gamma)) [].
Proof.
  unfold traced_computeOmega, computeOmega.
  eapply logs_called; [exact I | | reflexivity]. log_const.
Qed.

Lemma logs_computeZetaHat s k n w gamma :
  logs (traced_computeZetaHat X s k n w gamma) (lift (computeZetaHat X s k n w gamma)) [].
Proof.
  unfold traced_computeZetaHat, computeZetaHat.
  eapply logs_called; [exact I | | reflexivity]. log_const.
Qed.

Lemma logs_computeA1B1 s n gamma :
  logs (traced_computeA1B1 X s n gamma) (lift (computeA1B1 X s n gamma)) [].
Proof.
  unfold traced_computeA1B1, computeA1B1.
  eapply logs_called; [exact I | | reflexivity]. log_const.
Qed.

Lemma logs_quadratic s n alpha a1b1 tau s_hat_d s_d_prev :
  logs (traced_quadratic X s n alpha a1b1 tau s_hat_d s_d_prev)
       (lift (quadratic X s n alpha a1b1 tau s_hat_d s_d_prev)) [].
Proof. unfold traced_quadratic, quadratic. log_const. Qed.

Lemma logs_computeABC s n alpha a1b1 tau s_hat_d s_d_prev :
  logs (traced_computeABC X s n alpha a1b1 tau s_hat_d s_d_prev)
       (lift (computeABC X s n alpha a1b1 tau s_hat_d s_d_prev)) [n].
Proof.
  unfold traced_computeABC, computeABC.
  eapply logs_called; [exact I | | reflexivity].
  eapply logs_call_bind; [apply logs_quadratic | | reflexivity].
  intros [[a b] c]. apply logs_lift.
Qed.

(** The statements of a method that writes. *)
Ltac log_run :=
  cbv zeta;
  first
    [ apply logs_ret
    | apply logs_lift
    | apply logs_on_this
    | apply logs_computeABC
    | eapply logs_bind;
      [ first [ apply logs_self | apply logs_lift | apply logs_on_this
              | apply logs_computeDT | apply logs_computeGamma
              | apply logs_computeOmega | apply logs_computeZetaHat
              | apply logs_computeA1B1 ]
      | let x := fresh "x" in intros x; log_run
      | reflexivity ] ].

Lemma logs_computePower_group n gamma k acc :
  logs (traced_computePower_group X n gamma k acc) (computePower_group X n gamma k acc) [].
Proof.
  unfold traced_computePower_group, computePower_group.
  destruct acc as [[tau s_hat_d] s_d_prev]. log_run.
Qed.

Lemma logs_computePower n alpha gamma :
  logs (traced_computePower X n alpha gamma) (computePower X n alpha gamma) [n].
Proof.
  unfold traced_computePower, computePower.
  eapply logs_called; [exact I | | reflexivity].
  eapply logs_bind; [apply logs_self | intros s | reflexivity].
  eapply logs_bind;
    [apply logs_for_range_quiet; intros; apply logs_computePower_group | | reflexivity].
  intros [[tau s_hat_d] s_d_prev]. log_run.
Qed.

Lemma logs_solve_alpha n alpha :
  logs (traced_solve_alpha X n alpha) (solve_alpha X n alpha) [].
Proof. unfold traced_solve_alpha, solve_alpha. destruct (n >? 1)%Z; log_run. Qed.

Lemma logs_update_rho n gamma :
  logs (traced_update_rho X n gamma) (update_rho X n gamma) [].
Proof. unfold traced_update_rho, update_rho. log_run. Qed.

Lemma logs_solve_update n alpha gamma :
  logs (traced_solve_update X n alpha gamma) (solve_update X n alpha gamma) [n].
Proof.
  unfold traced_solve_update, solve_update.
  eapply logs_bind; [apply logs_computePower | intros p | reflexivity].
  do 2 (eapply logs_bind; [apply logs_on_this | intros _ | reflexivity]).
  apply logs_update_rho.
Qed.

Lemma logs_solve_step n alpha :
  logs (traced_solve_step X n alpha) (solve_step X n alpha) [n].
Proof.
  unfold traced_solve_step, solve_step.
  eapply logs_bind; [apply logs_self | intros s | reflexivity].
  eapply logs_bind; [apply logs_computeGamma | intros gamma | reflexivity].
  eapply logs_bind; [apply logs_solve_alpha | intros alpha' | reflexivity].
  eapply logs_bind; [apply logs_solve_update | intros _ | reflexivity].
  apply logs_ret.
Qed.

(** The run and the list of its calls. *)
Lemma traced_solve_run s l :
  untraced (traced_solve X (s, l)) = solve X s /\
  exists seg, calls (traced_solve X (s, l)) = l ++ seg /\
    spends (seqZ (Precomp.getNumTimeSteps (precomp s))
                 (Params.getNumTimeSteps (params s) - Precomp.getNumTimeSteps (precomp s)))
           (completed (traced_solve X (s, l))) seg.
Proof.
  unfold traced_solve, solve. rewrite (bind_unfold self), (bind_unfold get).
  cbn [self get fst].
  eapply logs_bind; [apply logs_for_range_steps; intros; apply logs_solve_step | |].
  - intros _. eapply logs_bind; [apply logs_self | intros s1; apply logs_ret | reflexivity].
  - cbn [app]. by rewrite app_nil_r.
Qed.

End CallsOfSolve.

(** * The abort on a positive leading coefficient *)

Section Abort.
Context (X : Externals).

Lemma computePower_quadratic_frame n alpha gamma s :
  scratch_only s (state_of (computePower_quadratic X n alpha gamma s)).
Proof.
  unfold computePower_quadratic.
  frame_with scratch_only_refl scratch_only_trans
    ltac:(apply computePower_group_frame).
Qed.

Lemma solve_step_quadratic_frame n alpha s :
  scratch_only s (state_of (solve_step_quadratic X n alpha s)).
Proof.
  unfold solve_step_quadratic.
  frame_with scratch_only_refl scratch_only_trans
    ltac:(first [ apply computePower_quadratic_frame
                | rewrite solve_alpha_state; apply scratch_only_refl ]).
Qed.

Lemma solve_step_positive n alpha s a b c s1 :
  solve_step_quadratic X n alpha s = Ok (a, b, c) s1 ->
  (0 <? a)%float = true ->
  solve_step X n alpha s = Fail terminate s1.
Proof.
  unfold solve_step_quadratic, solve_step. rewrite !bind_unfold. cbn [get].
  rewrite !bind_unfold.
  destruct (lift (computeGamma s n) s) as [gamma s0|]; [|discriminate].
  rewrite !bind_unfold. destruct (solve_alpha X n alpha s0) as [al s2|]; [|discriminate].
  intros Hq Ha. rewrite !bind_unfold. unfold solve_update. rewrite !bind_unfold.
  rewrite computePower_select, Hq, (select_root_positive a b c Ha). reflexivity.
Qed.

Lemma positive_at_inv s n :
  positive_at X s n = true ->
  exists alpha_n s_n a b c s1,
    (Precomp.getNumTimeSteps (precomp s) <= n < Params.getNumTimeSteps (params s)) /\
    for_range (Precomp.getNumTimeSteps (precomp s)) n (solve_step X) 0%float s
      = Ok alpha_n s_n /\
    solve_step_quadratic X n alpha_n s_n = Ok (a, b, c) s1 /\
    (0 <? a)%float = true.
Proof.
  unfold positive_at, quadratic_at. rewrite !andb_true_iff, Z.leb_le, Z.ltb_lt.
  rewrite bind_unfold. intros [Hn H].
  destruct (for_range _ _ _ _ _) as [alpha_n s_n|]; [|discriminate].
  destruct (solve_step_quadratic X n alpha_n s_n) as [[[a b] c] s1|] eqn:Hq; [|discriminate].
  exists alpha_n, s_n, a, b, c, s1. auto.
Qed.

(** The run aborts in step [n], and leaves the history entries of index [n]
    and beyond as they were. *)
Lemma solve_abort s n :
  positive_at X s n = true ->
  exists alpha_n s_n s1,
    for_range (Precomp.getNumTimeSteps (precomp s)) n (solve_step X) 0%float s
      = Ok alpha_n s_n /\
    solve_step X n alpha_n s_n = Fail terminate s1 /\
    solve X s = Fail terminate s1 /\
    forall i, n <= i -> same_history_at i s s1.
Proof.
  intros H. apply positive_at_inv in H as (alpha_n & s_n & a & b & c & s1 & Hn & Hpre & Hq & Ha).
  pose proof (solve_step_positive n alpha_n s_n a b c s1 Hq Ha) as Hstep.
  exists alpha_n, s_n, s1. split; [exact Hpre|]. split; [exact Hstep|]. split.
  - rewrite solve_unfold.
    rewrite (for_range_split _ n) by lia. rewrite bind_unfold, Hpre.
    rewrite for_range_cons by lia. rewrite bind_unfold, Hstep. reflexivity.
  - intros i Hi. eapply same_history_trans.
    + pose proof (solve_loop_frame X (Precomp.getNumTimeSteps (precomp s)) n 0%float s) as [_ H1].
      rewrite Hpre in H1. apply H1. lia.
    + pose proof (solve_step_quadratic_frame n alpha_n s_n) as H2. rewrite Hq in H2.
      apply (scratch_only_unchanged 0 0) in H2 as [_ H2]. apply H2. lia.
Qed.

End Abort.

(** * Accesses within bounds *)

Lemma well_sized_shape p s s' : same_shape s s' -> well_sized p s -> well_sized p s'.
Proof.
  intros [Hp _ _ Hw Hr Ho Hz Hc] [].
  assert (length (concentrations s') = length (concentrations s)) as Hlen.
  { apply (f_equal length) in Hc. rewrite !length_fmap in Hc. exact Hc. }
  split; try congruence.
  apply Forall_lookup. intros i row Hrow.
  assert ((length <$> concentrations s) !! i = Some (length row)) as H.
  { rewrite <- Hc, list_lookup_fmap, Hrow. reflexivity. }
  rewrite list_lookup_fmap in H. apply fmap_Some in H as (row0 & Hrow0 & ->).
  rewrite Forall_lookup in sized_rows0. eauto.
Qed.

Section Reads.
Context (X : Externals) (p : EPKEParameters) (s : Solver) (Hs : well_sized p s).

Ltac sizes :=
  destruct Hs as [Hparams (? & ? & ? & ? & ? & ? & ? & ?) ? ? ? ? ? ?];
  rewrite ?Hparams.

Ltac read :=
  repeat (match goal with
          | |- context [at2 ?m ?k ?i] =>
            let x := fresh "x" in
            let H := fresh "H" in
            destruct (at2_ok m k i (length (time p))) as [x H];
            [ assumption | lia | lia | rewrite H; clear H ]
          | |- context [at_ ?v ?i] =>
            let x := fresh "x" in
            let H := fresh "H" in
            destruct (at_ok v i) as [x H]; [ lia | rewrite H; clear H ]
          end; cbn [mbind mret result_bind result_ret]).

Ltac unfold_params :=
  unfold Params.getTime, Params.getGenTime, Params.getPowNorm, Params.getRhoImp,
    Params.getBetaEff, Params.getLambdaH, Params.getDecayConstant,
    Params.getDelayedFraction.

Lemma computeDT_ok n :
  1 <= n < Z.of_nat (length (time p)) -> exists v, computeDT s n = Good v.
Proof. intros Hn. unfold computeDT. unfold_params. sizes. read. eauto. Qed.

Lemma computeGamma_ok n :
  1 <= n < Z.of_nat (length (time p)) -> exists v, computeGamma s n = Good v.
Proof.
  intros Hn. unfold computeGamma. destruct (Z.ltb_spec n 2); [cbn; eauto|].
  destruct (computeDT_ok (n - 1)) as [d1 ->]; [lia|].
  destruct (computeDT_ok n) as [d0 ->]; [lia|]. cbn. eauto.
Qed.

Lemma extrapolation_rate_ok n :
  1 <= n < Z.of_nat (length (time p)) -> exists v, extrapolation_rate X s n = Good v.
Proof.
  intros Hn. unfold extrapolation_rate. destruct (Z.gtb_spec n 1); [|cbn; eauto].
  destruct (computeDT_ok (n - 1)) as [d1 ->]; [lia|]. cbn.
  sizes. read. eauto.
Qed.

Lemma getDecayConstant_ok k n :
  0 <= n < Z.of_nat (length (time p)) ->
  0 <= k < Z.of_nat (length (decay_constant p)) ->
  exists v, Params.getDecayConstant (params s) k n = Good v.
Proof. intros Hn Hk. unfold_params. sizes. read. eauto. Qed.

Lemma computeOmega_ok k n w gamma :
  1 <= n < Z.of_nat (length (time p)) ->
  0 <= k < Z.of_nat (length (decay_constant p)) ->
  exists v, computeOmega X s k n w gamma = Good v.
Proof.
  intros Hn Hk. unfold computeOmega.
  destruct (computeDT_ok n) as [dt ->]; [lia|].
  unfold_params. sizes. read. eauto.
Qed.

Lemma computeZetaHat_ok k n w gamma :
  1 <= n < Z.of_nat (length (time p)) ->
  0 <= k < Z.of_nat (length (decay_constant p)) ->
  exists v, computeZetaHat X s k n w gamma = Good v.
Proof.
  intros Hn Hk. unfold computeZetaHat.
  destruct (computeDT_ok n) as [dt ->]; [lia|].
  unfold_params. sizes. destruct (Z.ltb_spec n 2); read; eauto.
Qed.

Lemma computeA1B1_ok n gamma :
  1 <= n < Z.of_nat (length (time p)) ->
  exists v, computeA1B1 X s n gamma = Good v.
Proof.
  intros Hn. unfold computeA1B1.
  destruct (computeDT_ok n) as [dt ->]; [lia|].
  unfold_params. sizes. destruct (Z.ltb_spec n 2); read; eauto.
Qed.

Lemma quadratic_ok n alpha a1b1 tau s_hat_d s_d_prev :
  1 <= n < Z.of_nat (length (time p)) ->
  exists v, quadratic X s n alpha a1b1 tau s_hat_d s_d_prev = Good v.
Proof.
  intros Hn. unfold quadratic.
  destruct (computeDT_ok n) as [dt ->]; [lia|].
  unfold_params. sizes. read. eauto.
Qed.

Lemma select_root_safe a b c :
  (exists v, select_root a b c = Good v) \/ select_root a b c = Bad terminate.
Proof.
  unfold select_root. destruct (a <? 0)%float; [left; cbn; eauto|].
  destruct (a =? 0)%float; [left; cbn; eauto | right; reflexivity].
Qed.

Lemma computeABC_safe n alpha a1b1 tau s_hat_d s_d_prev :
  1 <= n < Z.of_nat (length (time p)) ->
  (exists v, computeABC X s n alpha a1b1 tau s_hat_d s_d_prev = Good v) \/
  computeABC X s n alpha a1b1 tau s_hat_d s_d_prev = Bad terminate.
Proof.
  intros Hn. unfold computeABC.
  destruct (quadratic_ok n alpha a1b1 tau s_hat_d s_d_prev Hn) as [[[a b] c] ->].
  cbn. apply select_root_safe.
Qed.

Lemma omega_ok k :
  0 <= k < Z.of_nat (length (decay_constant p)) -> exists v, at_ (omega s) k = Good v.
Proof. intros. sizes. read. eauto. Qed.

Lemma zeta_hat_ok k :
  0 <= k < Z.of_nat (length (decay_constant p)) -> exists v, at_ (zeta_hat s) k = Good v.
Proof. intros. sizes. read. eauto. Qed.

Lemma power_ok n :
  0 <= n < Z.of_nat (length (time p)) -> exists v, at_ (power s) n = Good v.
Proof. intros. sizes. read. eauto. Qed.

Lemma concentration_ok k n :
  0 <= n < Z.of_nat (length (time p)) ->
  0 <= k < Z.of_nat (length (decay_constant p)) ->
  exists v, at2 (concentrations s) k n = Good v.
Proof. intros. sizes. read. eauto. Qed.

End Reads.

Section Safety.
Context (X : Externals) (p : EPKEParameters).

Lemma post_bind_get {A} (k : Solver -> M Solver A) s Q R :
  post (k s s) Q R -> post ((get ≫= k) s) Q R.
Proof. auto. Qed.

Lemma post_bind_lift {A B} (r : result A) (k : A -> M Solver B) s Q R :
  (exists v, r = Good v) -> (forall v, r = Good v -> post (k v s) Q R) ->
  post ((lift r ≫= k) s) Q R.
Proof. intros [v ->] H. apply (H v eq_refl). Qed.

Lemma post_lift_Good {A} (r : result A) s (Q : A -> Solver -> Prop) R :
  (exists v, r = Good v) -> (forall v, Q v s) -> post (lift r s) Q R.
Proof. intros [v ->] H. apply H. Qed.

Lemma sound_harmless {A} (o : outcome Solver A) : sound p o -> harmless p o.
Proof. intros H. eapply post_mono; [exact H | auto | contradiction]. Qed.

Lemma set_power_sound n x s :
  well_sized p s -> 0 <= n < Z.of_nat (length (time p)) -> sound p (set_power n x s).
Proof.
  intros Hs Hn. pose proof (set_power_frame n x s) as [Hf _]. revert Hf.
  rewrite set_power_unfold, store_ok by (rewrite (sized_power p s Hs); lia).
  cbn. intros Hf. eapply well_sized_shape; eauto.
Qed.

Lemma set_rho_sound n x s :
  well_sized p s -> 0 <= n < Z.of_nat (length (time p)) -> sound p (set_rho n x s).
Proof.
  intros Hs Hn. pose proof (set_rho_frame n x s) as [Hf _]. revert Hf.
  rewrite set_rho_unfold, store_ok by (rewrite (sized_rho p s Hs); lia).
  cbn. intros Hf. eapply well_sized_shape; eauto.
Qed.

Lemma set_omega_sound k x s :
  well_sized p s -> 0 <= k < Z.of_nat (length (decay_constant p)) ->
  sound p (set_omega k x s).
Proof.
  intros Hs Hk. pose proof (set_omega_frame k x s) as [Hf _]. revert Hf.
  rewrite set_omega_unfold, store_ok by (rewrite (sized_omega p s Hs); lia).
  cbn. intros Hf. eapply well_sized_shape; eauto.
Qed.

Lemma set_zeta_hat_sound k x s :
  well_sized p s -> 0 <= k < Z.of_nat (length (decay_constant p)) ->
  sound p (set_zeta_hat k x s).
Proof.
  intros Hs Hk. pose proof (set_zeta_hat_frame k x s) as [Hf _]. revert Hf.
  rewrite set_zeta_hat_unfold, store_ok by (rewrite (sized_zeta_hat p s Hs); lia).
  cbn. intros Hf. eapply well_sized_shape; eauto.
Qed.

Lemma set_concentration_sound k n x s :
  well_sized p s -> 0 <= k < Z.of_nat (length (decay_constant p)) ->
  0 <= n < Z.of_nat (length (time p)) ->
  sound p (set_concentration k n x s).
Proof.
  intros Hs Hk Hn. pose proof (set_concentration_frame k n x s) as [Hf _]. revert Hf.
  rewrite set_concentration_unfold.
  destruct (store2_ok (concentrations s) k n x (length (time p))) as [m' ->];
    [apply (sized_rows p s Hs) | rewrite (sized_conc p s Hs); lia | lia |].
  cbn. intros Hf. eapply well_sized_shape; eauto.
Qed.

Lemma computePower_group_sound n gamma k acc s :
  well_sized p s -> 1 <= n < Z.of_nat (length (time p)) ->
  0 <= k < Z.of_nat (length (decay_constant p)) ->
  sound p (computePower_group X n gamma k acc s).
Proof.
  intros Hs Hn Hk. destruct acc as [[tau s_hat_d] s_d_prev].
  unfold computePower_group, sound.
  apply post_bind_get. cbn beta.
  apply post_bind_lift; [eapply getDecayConstant_ok; eauto; lia | intros lam _].
  apply post_bind_lift; [eapply computeDT_ok; eauto | intros dt _].
  apply post_bind_lift; [eapply computeOmega_ok; eauto | intros om _].
  eapply post_bind; [apply set_omega_sound; auto | cbn beta].
  intros _ s1 Hs1. apply post_bind_get. cbn beta.
  apply post_bind_lift; [eapply computeZetaHat_ok; eauto | intros zh _].
  eapply post_bind; [apply set_zeta_hat_sound; auto | cbn beta].
  intros _ s2 Hs2. apply post_bind_get. cbn beta.
  apply post_bind_lift; [eapply getDecayConstant_ok; eauto; lia | intros l1 _].
  apply post_bind_lift; [eapply omega_ok; eauto | intros omk _].
  apply post_bind_lift; [eapply getDecayConstant_ok; eauto; lia | intros l2 _].
  apply post_bind_lift; [eapply zeta_hat_ok; eauto | intros zhk _].
  apply post_bind_lift; [eapply getDecayConstant_ok; eauto; lia | intros l3 _].
  apply post_bind_lift; [eapply concentration_ok; eauto; lia | intros c1 _].
  exact Hs2.
Qed.

Lemma computePower_harmless n alpha gamma s :
  well_sized p s -> 1 <= n < Z.of_nat (length (time p)) ->
  harmless p (computePower X n alpha gamma s).
Proof.
  intros Hs Hn. unfold computePower, harmless.
  apply post_bind_get. cbn beta.
  eapply post_bind.
  - apply (post_for_range (fun _ _ s' => well_sized p s') (fun f _ => f = terminate)
             (computePower_group X n gamma) 0); [|lia|exact Hs].
    intros k acc s1 Hk Hs1. apply sound_harmless.
    apply computePower_group_sound; auto.
    rewrite (sized_params p s Hs) in Hk. unfold Params.getNumPrecursors in Hk. lia.
  - cbn beta. intros [[tau s_hat_d] s_d_prev] s1 Hs1.
    apply post_bind_get. cbn beta.
    apply post_bind_lift; [eapply computeA1B1_ok; eauto | intros ab _].
    apply post_lift.
    destruct (computeABC_safe X p s1 Hs1 n alpha ab tau s_hat_d s_d_prev Hn) as [[v ->]| ->];
      auto.
Qed.

Lemma update_concentrations_sound n s :
  well_sized p s -> 0 <= n < Z.of_nat (length (time p)) ->
  sound p (update_concentrations n s).
Proof.
  intros Hs Hn. unfold update_concentrations, sound.
  apply post_bind_get. cbn beta.
  eapply post_mono.
  - apply (post_for_range (fun _ _ s' => well_sized p s') (fun _ _ => False) _ 0);
      [|lia|exact Hs].
    intros k [] s1 Hk Hs1. cbn beta.
    rewrite (sized_params p s Hs) in Hk. unfold Params.getNumPrecursors in Hk.
    apply post_bind_get. cbn beta.
    apply post_bind_lift; [eapply power_ok; eauto | intros pn _].
    apply post_bind_lift; [eapply omega_ok; eauto; lia | intros om _].
    apply post_bind_lift; [eapply zeta_hat_ok; eauto; lia | intros zh _].
    apply set_concentration_sound; auto; lia.
  - auto.
  - auto.
Qed.

Lemma update_rho_sound n gamma s :
  well_sized p s -> 1 <= n < Z.of_nat (length (time p)) ->
  sound p (update_rho X n gamma s).
Proof.
  intros Hs Hn. unfold update_rho, sound.
  apply post_bind_get. cbn beta.
  apply post_bind_lift; [eapply computeA1B1_ok; eauto | intros ab _].
  apply post_bind_lift; [eapply power_ok; eauto; lia | intros pn _].
  apply set_rho_sound; auto. lia.
Qed.

Lemma solve_update_harmless n alpha gamma s :
  well_sized p s -> 1 <= n < Z.of_nat (length (time p)) ->
  harmless p (solve_update X n alpha gamma s).
Proof.
  intros Hs Hn. unfold solve_update, harmless.
  eapply post_bind; [apply computePower_harmless; auto | cbn beta].
  intros pw s1 Hs1.
  eapply post_bind; [apply sound_harmless, set_power_sound; auto; lia | cbn beta].
  intros _ s2 Hs2.
  eapply post_bind; [apply sound_harmless, update_concentrations_sound; auto; lia | cbn beta].
  intros _ s3 Hs3. apply sound_harmless, update_rho_sound; auto.
Qed.

Lemma solve_step_harmless n alpha s :
  well_sized p s -> 1 <= n < Z.of_nat (length (time p)) ->
  harmless p (solve_step X n alpha s).
Proof.
  intros Hs Hn. unfold solve_step, harmless.
  apply post_bind_get. cbn beta.
  apply post_bind_lift; [eapply computeGamma_ok; eauto | intros gamma _].
  eapply post_bind.
  - rewrite solve_alpha_lift. apply post_lift_Good with (Q := fun _ s' => well_sized p s').
    + destruct (n >? 1); [eapply extrapolation_rate_ok; eauto | eauto].
    + intros _. exact Hs.
  - cbn beta. intros al s1 Hs1.
    eapply post_bind; [apply solve_update_harmless; auto | cbn beta].
    intros _ s2 Hs2. exact Hs2.
Qed.

(** From a non-empty prefix on, the run never leaves a vector: it completes
    or it aborts on a positive leading coefficient. *)
Lemma solve_harmless s :
  well_sized p s -> 1 <= Precomp.getNumTimeSteps (precomp s) ->
  harmless p (solve X s).
Proof.
  intros Hs Hseed. rewrite solve_unfold.
  pose proof (post_for_range (fun _ _ s' => well_sized p s') (fun f _ => f = terminate)
                (solve_step X) (Precomp.getNumTimeSteps (precomp s))
                (Params.getNumTimeSteps (params s))) as H.
  specialize (H ltac:(intros n a s1 Hn Hs1; apply solve_step_harmless; auto;
                      rewrite (sized_params p s Hs) in Hn;
                      unfold Params.getNumTimeSteps in Hn; lia)
                (Precomp.getNumTimeSteps (precomp s)) 0%float s ltac:(lia) Hs).
  unfold harmless. destruct (for_range _ _ _ _ _); exact H.
Qed.

End Safety.

(** * The constructor *)

Section Constructor.
Context (p : EPKEParameters) (h : EPKEOutput).

Local Abbreviation s0 := (Solver_init p h).
Local Abbreviation L := (Precomp.getNumTimeSteps h).

Lemma conc_filled_pass k n s :
  0 <= n < L -> conc_filled p h k n s ->
  post ((x ← lift (Precomp.getConcentration h k n); set_concentration k n x) s)
       (fun _ s' => conc_filled p h k (n + 1) s') (fun _ _ => True).
Proof.
  intros Hn (Hp & Hr & Hsh & Hhi & Hlo). rewrite bind_unfold.
  destruct (Precomp.getConcentration h k n) as [x|] eqn:Hx; cbn [lift post]; [|exact I].
  rewrite set_concentration_unfold.
  destruct (store2 (concentrations s) k n x) as [m|] eqn:Hm; cbn [post]; [|exact I].
  split; [exact Hp|]. split; [exact Hr|]. split; [|split].
  - eapply same_shape_trans; [exact Hsh|].
    destruct Hsh. split; cbn; auto. eapply store2_shape; eauto.
  - intros k' i Hi. cbn. rewrite (store2_at2_ne _ _ _ _ _ k' i Hm) by (right; lia).
    apply Hhi, Hi.
  - intros k' i Hi Hk. cbn. destruct (decide (k' = k /\ i = n)) as [[-> ->]|Hne].
    + rewrite Hx. eapply store2_at2_eq; eauto.
    + rewrite (store2_at2_ne _ _ _ _ _ k' i Hm) by lia. apply Hlo; [exact Hi | lia].
Qed.

Lemma prefix_filled_pass s1 n s :
  0 <= n < L -> prefix_filled p h s1 n s ->
  post ((x ← lift (Precomp.getPower h n); set_power n x;;
         y ← lift (Precomp.getRho h n); set_rho n y) s)
       (fun _ s' => prefix_filled p h s1 (n + 1) s') (fun _ _ => True).
Proof.
  intros Hn (Hc & Hsh & Hhi & Hlo). rewrite bind_unfold.
  destruct (Precomp.getPower h n) as [x|] eqn:Hx; cbn [lift post]; [|exact I].
  rewrite bind_unfold, set_power_unfold.
  destruct (store (power s) n x) as [v|] eqn:Hv; cbn [post]; [|exact I].
  rewrite bind_unfold.
  destruct (Precomp.getRho h n) as [y|] eqn:Hy; cbn [lift post]; [|exact I].
  rewrite set_rho_unfold. cbn [rho with_power].
  destruct (store (rho s) n y) as [w|] eqn:Hw; cbn [post]; [|exact I].
  apply store_Good in Hv as [Hnv ->]. apply store_Good in Hw as [Hnw ->].
  split; [exact Hc|]. split; [|split].
  - eapply same_shape_trans; [exact Hsh|]. split; cbn; auto; apply length_insert.
  - intros i Hi. cbn. rewrite !at_insert_ne by lia. apply Hhi, Hi.
  - intros i Hi. cbn. destruct (decide (i = n)) as [->|Hne].
    + rewrite !at_insert_eq by lia. auto.
    + rewrite !at_insert_ne by lia. apply Hlo. lia.
Qed.

(** The constructor copies the prefix of the history provider, entry by
    entry, and writes nothing else. *)
Lemma Solver_new_spec s :
  Solver_new p h = Ok tt s ->
  same_shape s0 s /\
  (forall i, 0 <= i < L ->
     at_ (power s) i = Precomp.getPower h i /\
     at_ (rho s) i = Precomp.getRho h i /\
     forall k, 0 <= k < Params.getNumPrecursors p ->
       at2 (concentrations s) k i = Precomp.getConcentration h k i) /\
  (forall i, L <= i -> same_history_at i s0 s).
Proof.
  unfold Solver_new, Solver_body. rewrite bind_unfold. cbn [get].
  change (precomp s0) with h. change (params s0) with p.
  rewrite bind_unfold.
  pose proof (post_for_range (fun k (_ : unit) s' => conc_filled p h k 0 s') (fun _ _ => True)
    (fun k _ => for_range 0 L (fun n _ =>
       x ← lift (Precomp.getConcentration h k n); set_concentration k n x) tt)
    0 (Params.getNumPrecursors p)) as Hconc.
  specialize (Hconc ltac:(
    intros k [] s1 Hk H1;
    pose proof (post_for_range (fun n (_ : unit) s' => conc_filled p h k n s') (fun _ _ => True)
      (fun n _ => x ← lift (Precomp.getConcentration h k n); set_concentration k n x)
      0 L ltac:(intros n [] s2 Hn H2; apply conc_filled_pass; [lia | exact H2])
      0 tt s1 ltac:(lia) H1) as Hin;
    eapply post_mono; [exact Hin | | auto];
    intros [] s2 (? & ? & ? & ? & Hlo); cbn beta;
    repeat (split; [assumption|]);
    intros k' i Hi Hk'; apply Hlo; [exact Hi | lia]) 0 tt s0 ltac:(lia)).
  specialize (Hconc ltac:(
    repeat (split; [first [reflexivity | apply same_shape_refl]|]);
    intros; lia)).
  destruct (for_range 0 (Params.getNumPrecursors p) _ tt s0) as [[] s1|]; [|discriminate].
  cbn [post] in Hconc. destruct Hconc as (Hp1 & Hr1 & Hsh1 & Hhi1 & Hlo1).
  pose proof (post_for_range (fun n (_ : unit) s' => prefix_filled p h s1 n s') (fun _ _ => True)
    (fun n _ => x ← lift (Precomp.getPower h n); set_power n x;;
                y ← lift (Precomp.getRho h n); set_rho n y)
    0 L ltac:(intros n [] s2 Hn H2; apply prefix_filled_pass; [lia | exact H2])
    0 tt s1 ltac:(lia)) as Hpre.
  specialize (Hpre ltac:(
    split; [reflexivity|]; split; [exact Hsh1|]; split;
    [intros; rewrite Hp1, Hr1; auto | intros; lia])).
  destruct (for_range 0 L _ tt s1) as [[] s2|]; [|discriminate].
  intros [= <-]. cbn [post] in Hpre. destruct Hpre as (Hc2 & Hsh2 & Hhi2 & Hlo2).
  assert (0 <= L) as HL by (unfold Precomp.getNumTimeSteps; lia).
  split; [exact Hsh2|]. split.
  - intros i Hi. destruct (Hlo2 i) as [? ?]; [lia|]. repeat split; auto.
    intros k Hk. rewrite Hc2. apply Hlo1; [exact Hi | lia].
  - intros i Hi. destruct (Hhi2 i Hi) as [? ?]. split; auto.
    intros k. rewrite Hc2. apply Hhi1, Hi.
Qed.

End Constructor.

(** * What a step reads *)

Section Agreement.
Context (X : Externals) (p : EPKEParameters).

Lemma agree_next n k s1 s2 :
  agree p (n + 1) (n + 1) n (Z.max 0 (Params.getNumPrecursors p)) k k s1 s2 ->
  agree_below p (n + 1) s1 s2.
Proof.
  intros []. split; auto.
  - intros j i Hj Hi. apply agree_conc0; lia.
  - intros; lia.
  - intros; lia.
Qed.

Lemma store_both {A} (v1 v2 : list A) i x :
  length v1 = length v2 ->
  match store v1 i x, store v2 i x with
  | Good w1, Good w2 =>
    0 <= i < Z.of_nat (length v1) /\
    w1 = <[Z.to_nat i := x]> v1 /\ w2 = <[Z.to_nat i := x]> v2
  | Bad f1, Bad f2 => f1 = f2
  | _, _ => False
  end.
Proof.
  intros Hlen. unfold store, in_range. rewrite <- Hlen.
  destruct (0 <=? i) eqn:E1, (i <? Z.of_nat (length v1)) eqn:E2; cbn; auto.
  apply Z.leb_le in E1. apply Z.ltb_lt in E2. auto.
Qed.

Lemma store2_both {A} (m1 m2 : list (list A)) k i x :
  length <$> m1 = length <$> m2 ->
  match store2 m1 k i x, store2 m2 k i x with
  | Good w1, Good w2 =>
    length <$> w1 = length <$> w2 /\
    at2 w1 k i = Good x /\ at2 w2 k i = Good x /\
    forall k' i', k' <> k \/ i' <> i ->
      at2 w1 k' i' = at2 m1 k' i' /\ at2 w2 k' i' = at2 m2 k' i'
  | Bad f1, Bad f2 => f1 = f2
  | _, _ => False
  end.
Proof.
  intros Hsh.
  destruct (store2 m1 k i x) as [w1|f1] eqn:H1, (store2 m2 k i x) as [w2|f2] eqn:H2.
  - split; [rewrite (store2_shape _ _ _ _ _ H1), (store2_shape _ _ _ _ _ H2); exact Hsh|].
    split; [eapply store2_at2_eq; eauto|]. split; [eapply store2_at2_eq; eauto|].
    intros k' i' Hne. split; eapply store2_at2_ne; eauto.
  - exfalso. apply store2_Good in H1 as (row & Hk & Hrow & Hi & _).
    revert H2. unfold store2.
    assert (length m1 = length m2) as Hlen.
    { apply (f_equal length) in Hsh. rewrite !length_fmap in Hsh. exact Hsh. }
    assert (in_range m2 k = true) as ->.
    { apply in_range_spec. apply lookup_lt_Some in Hrow. lia. }
    assert ((length <$> m2) !! Z.to_nat k = Some (length row)) as Hrow2.
    { rewrite <- Hsh, list_lookup_fmap, Hrow. reflexivity. }
    rewrite list_lookup_fmap in Hrow2. apply fmap_Some in Hrow2 as (row2 & -> & Hl).
    rewrite store_ok by lia. discriminate.
  - exfalso. apply store2_Good in H2 as (row & Hk & Hrow & Hi & _).
    revert H1. unfold store2.
    assert (length m1 = length m2) as Hlen.
    { apply (f_equal length) in Hsh. rewrite !length_fmap in Hsh. exact Hsh. }
    assert (in_range m1 k = true) as ->.
    { apply in_range_spec. apply lookup_lt_Some in Hrow. lia. }
    assert ((length <$> m1) !! Z.to_nat k = Some (length row)) as Hrow1.
    { rewrite Hsh, list_lookup_fmap, Hrow. reflexivity. }
    rewrite list_lookup_fmap in Hrow1. apply fmap_Some in Hrow1 as (row1 & -> & Hl).
    rewrite store_ok by lia. discriminate.
  - rewrite (store2_Bad _ _ _ _ _ H1), (store2_Bad _ _ _ _ _ H2). reflexivity.
Qed.


Lemma both_bind_get {A} (k1 k2 : Solver -> M Solver A) s1 s2 Q :
  both (k1 s1 s1) (k2 s2 s2) Q -> both ((get ≫= k1) s1) ((get ≫= k2) s2) Q.
Proof. auto. Qed.

Lemma both_bind_lift {A B} (r1 r2 : result A) (k1 k2 : A -> M Solver B) s1 s2 Q :
  r1 = r2 -> (forall a, both (k1 a s1) (k2 a s2) Q) ->
  both ((lift r1 ≫= k1) s1) ((lift r2 ≫= k2) s2) Q.
Proof. intros <- H. rewrite !bind_unfold. destruct r1; cbn; auto. Qed.

Lemma both_ret {A} (a : A) s1 s2 (Q : A -> Solver -> Solver -> Prop) :
  Q a s1 s2 -> both (mret (M := M Solver) a s1) (mret (M := M Solver) a s2) Q.
Proof. cbn. auto. Qed.

(** The stores. *)

Lemma both_set_omega np nr nc kc kz k x s1 s2 :
  agree p np nr nc kc k kz s1 s2 ->
  both (set_omega k x s1) (set_omega k x s2) (fun _ => agree p np nr nc kc (k + 1) kz).
Proof.
  intros H. rewrite !set_omega_unfold.
  pose proof (store_both (omega s1) (omega s2) k x (agree_len_omega H)) as Hs.
  destruct (store (omega s1) k x), (store (omega s2) k x); cbn; try tauto.
  destruct Hs as (Hk & -> & ->). split; [reflexivity|].
  destruct H. split; cbn; auto.
  - rewrite !length_insert. assumption.
  - intros j Hj. destruct (decide (j = k)) as [->|Hne].
    + rewrite !at_insert_eq by lia. reflexivity.
    + rewrite !at_insert_ne by lia. apply agree_omega0. lia.
Qed.

Lemma both_set_zeta_hat np nr nc kc ko k x s1 s2 :
  agree p np nr nc kc ko k s1 s2 ->
  both (set_zeta_hat k x s1) (set_zeta_hat k x s2) (fun _ => agree p np nr nc kc ko (k + 1)).
Proof.
  intros H. rewrite !set_zeta_hat_unfold.
  pose proof (store_both (zeta_hat s1) (zeta_hat s2) k x
                (agree_len_zeta_hat H)) as Hs.
  destruct (store (zeta_hat s1) k x), (store (zeta_hat s2) k x); cbn; try tauto.
  destruct Hs as (Hk & -> & ->). split; [reflexivity|].
  destruct H. split; cbn; auto.
  - rewrite !length_insert. assumption.
  - intros j Hj. destruct (decide (j = k)) as [->|Hne].
    + rewrite !at_insert_eq by lia. reflexivity.
    + rewrite !at_insert_ne by lia. apply agree_zeta_hat0. lia.
Qed.

Lemma both_set_power nr nc kc ko kz n x s1 s2 :
  agree p n nr nc kc ko kz s1 s2 ->
  both (set_power n x s1) (set_power n x s2) (fun _ => agree p (n + 1) nr nc kc ko kz).
Proof.
  intros H. rewrite !set_power_unfold.
  pose proof (store_both (power s1) (power s2) n x (agree_len_power H)) as Hs.
  destruct (store (power s1) n x), (store (power s2) n x); cbn; try tauto.
  destruct Hs as (Hk & -> & ->). split; [reflexivity|].
  destruct H. split; cbn; auto.
  - rewrite !length_insert. assumption.
  - intros j Hj. destruct (decide (j = n)) as [->|Hne].
    + rewrite !at_insert_eq by lia. reflexivity.
    + rewrite !at_insert_ne by lia. apply agree_power0. lia.
Qed.

Lemma both_set_rho np nc kc ko kz n x s1 s2 :
  agree p np n nc kc ko kz s1 s2 ->
  both (set_rho n x s1) (set_rho n x s2) (fun _ => agree p np (n + 1) nc kc ko kz).
Proof.
  intros H. rewrite !set_rho_unfold.
  pose proof (store_both (rho s1) (rho s2) n x (agree_len_rho H)) as Hs.
  destruct (store (rho s1) n x), (store (rho s2) n x); cbn; try tauto.
  destruct Hs as (Hk & -> & ->). split; [reflexivity|].
  destruct H. split; cbn; auto.
  - rewrite !length_insert. assumption.
  - intros j Hj. destruct (decide (j = n)) as [->|Hne].
    + rewrite !at_insert_eq by lia. reflexivity.
    + rewrite !at_insert_ne by lia. apply agree_rho0. lia.
Qed.

Lemma both_set_concentration np nr ko kz k n x s1 s2 :
  agree p np nr n k ko kz s1 s2 ->
  both (set_concentration k n x s1) (set_concentration k n x s2)
       (fun _ => agree p np nr n (k + 1) ko kz).
Proof.
  intros H. rewrite !set_concentration_unfold.
  pose proof (store2_both (concentrations s1) (concentrations s2) k n x
                (agree_shape_conc H)) as Hs.
  destruct (store2 (concentrations s1) k n x), (store2 (concentrations s2) k n x);
    cbn; try tauto.
  destruct Hs as (Hsh & Hx1 & Hx2 & Hne). split; [reflexivity|].
  destruct H. split; cbn; auto.
  intros j i Hj Hi. destruct (decide (j = k /\ i = n)) as [[-> ->]|Hji].
  - rewrite Hx1, Hx2. reflexivity.
  - destruct (Hne j i) as [-> ->]; [lia|]. apply agree_conc0; [exact Hj | lia].
Qed.

(** The reads of the [const] methods. *)

Section AgreedReads.
Context (np nr nc kc ko kz : Z) (s1 s2 : Solver) (H : agree p np nr nc kc ko kz s1 s2).
Context (n : Z) (Hn : 0 < n) (Hnp : n <= np) (Hnr : n <= nr) (Hnc : n <= nc).

Ltac agreed :=
  rewrite ?(agree_params1 H), ?(agree_params2 H);
  rewrite ?(agree_power H) by lia;
  rewrite ?(agree_rho H) by lia;
  reflexivity.

Lemma computeDT_agree m : computeDT s1 m = computeDT s2 m.
Proof. unfold computeDT. agreed. Qed.

Lemma computeGamma_agree m : computeGamma s1 m = computeGamma s2 m.
Proof. unfold computeGamma. rewrite !computeDT_agree. reflexivity. Qed.

Lemma extrapolation_rate_agree : extrapolation_rate X s1 n = extrapolation_rate X s2 n.
Proof. unfold extrapolation_rate. rewrite !computeDT_agree. agreed. Qed.

Lemma computeOmega_agree k w gamma :
  computeOmega X s1 k n w gamma = computeOmega X s2 k n w gamma.
Proof. unfold computeOmega. rewrite !computeDT_agree. agreed. Qed.

Lemma computeZetaHat_agree k w gamma :
  0 <= k < Params.getNumPrecursors p ->
  computeZetaHat X s1 k n w gamma = computeZetaHat X s2 k n w gamma.
Proof.
  intros Hk. unfold computeZetaHat. rewrite !computeDT_agree.
  rewrite (agree_conc H k (n - 1)) by lia. agreed.
Qed.

Lemma computeA1B1_agree gamma : computeA1B1 X s1 n gamma = computeA1B1 X s2 n gamma.
Proof. unfold computeA1B1. rewrite !computeDT_agree. agreed. Qed.

Lemma computeABC_agree alpha a1b1 tau s_hat_d s_d_prev :
  computeABC X s1 n alpha a1b1 tau s_hat_d s_d_prev =
  computeABC X s2 n alpha a1b1 tau s_hat_d s_d_prev.
Proof. unfold computeABC, quadratic. rewrite !computeDT_agree. agreed. Qed.

End AgreedReads.

End Agreement.

Section StepAgreement.
Context (X : Externals) (p : EPKEParameters).

Ltac rel_lift lem :=
  apply both_bind_lift; [lem | intros ?].

Ltac same_params H :=
  rewrite ?(agree_params1 H), ?(agree_params2 H); reflexivity.

Lemma both_computePower_group np nr nc kc n gamma k acc s1 s2 :
  0 < n -> n <= np -> n <= nr -> n <= nc ->
  0 <= k < Params.getNumPrecursors p ->
  agree p np nr nc kc k k s1 s2 ->
  both (computePower_group X n gamma k acc s1) (computePower_group X n gamma k acc s2)
       (fun _ => agree p np nr nc kc (k + 1) (k + 1)).
Proof.
  intros Hn Hnp Hnr Hnc Hk H. destruct acc as [[tau s_hat_d] s_d_prev].
  unfold computePower_group.
  apply both_bind_get. cbn beta.
  rel_lift ltac:(same_params H).
  rel_lift ltac:(eapply computeDT_agree; eauto).
  rel_lift ltac:(eapply computeOmega_agree; eauto).
  eapply both_bind; [apply both_set_omega; exact H | cbn beta].
  intros _ t1 t2 H1. apply both_bind_get. cbn beta.
  rel_lift ltac:(eapply computeZetaHat_agree; eauto).
  eapply both_bind; [apply both_set_zeta_hat; exact H1 | cbn beta].
  intros _ u1 u2 H2. apply both_bind_get. cbn beta.
  rel_lift ltac:(same_params H2).
  rel_lift ltac:(apply (agree_omega H2); lia).
  rel_lift ltac:(same_params H2).
  rel_lift ltac:(apply (agree_zeta_hat H2); lia).
  rel_lift ltac:(same_params H2).
  rel_lift ltac:(apply (agree_conc H2); lia).
  apply both_ret. exact H2.
Qed.

Lemma both_computePower np nr nc kc n alpha gamma s1 s2 :
  0 < n -> n <= np -> n <= nr -> n <= nc ->
  agree p np nr nc kc 0 0 s1 s2 ->
  both (computePower X n alpha gamma s1) (computePower X n alpha gamma s2)
       (fun _ => agree p np nr nc kc (Z.max 0 (Params.getNumPrecursors p))
                         (Z.max 0 (Params.getNumPrecursors p))).
Proof.
  intros Hn Hnp Hnr Hnc H. unfold computePower.
  apply both_bind_get. cbn beta.
  rewrite (agree_params1 H), (agree_params2 H).
  eapply both_bind.
  - apply (both_for_range (fun k _ => agree p np nr nc kc k k)
             (computePower_group X n gamma) (computePower_group X n gamma) 0);
      [|lia|exact H].
    intros k acc t1 t2 Hk H1. apply both_computePower_group; auto.
  - cbn beta. intros [[tau s_hat_d] s_d_prev] t1 t2 H1.
    apply both_bind_get. cbn beta.
    rel_lift ltac:(eapply computeA1B1_agree; eauto).
    apply both_lift; [eapply computeABC_agree; eauto | intros; exact H1].
Qed.

Lemma both_update_concentrations np nr n s1 s2 :
  n < np ->
  agree p np nr n 0 (Z.max 0 (Params.getNumPrecursors p))
        (Z.max 0 (Params.getNumPrecursors p)) s1 s2 ->
  both (update_concentrations n s1) (update_concentrations n s2)
       (fun _ => agree p np nr n (Z.max 0 (Params.getNumPrecursors p))
                         (Z.max 0 (Params.getNumPrecursors p))
                         (Z.max 0 (Params.getNumPrecursors p))).
Proof.
  intros Hn H. unfold update_concentrations.
  apply both_bind_get. cbn beta.
  rewrite (agree_params1 H), (agree_params2 H).
  apply (both_for_range
           (fun k (_ : unit) => agree p np nr n k (Z.max 0 (Params.getNumPrecursors p))
                                      (Z.max 0 (Params.getNumPrecursors p)))
           _ _ 0); [|lia|exact H].
  intros k [] t1 t2 Hk H1. cbn beta.
  apply both_bind_get. cbn beta.
  rel_lift ltac:(apply (agree_power H1); lia).
  rel_lift ltac:(apply (agree_omega H1); lia).
  rel_lift ltac:(apply (agree_zeta_hat H1); lia).
  apply both_set_concentration. exact H1.
Qed.

Lemma both_update_rho nc kc ko kz n gamma s1 s2 :
  0 < n -> n <= nc ->
  agree p (n + 1) n nc kc ko kz s1 s2 ->
  both (update_rho X n gamma s1) (update_rho X n gamma s2)
       (fun _ => agree p (n + 1) (n + 1) nc kc ko kz).
Proof.
  intros Hn Hnc H. unfold update_rho.
  apply both_bind_get. cbn beta.
  rel_lift ltac:(eapply computeA1B1_agree; eauto; lia).
  rel_lift ltac:(apply (agree_power H); lia).
  apply both_set_rho. exact H.
Qed.

Lemma both_solve_update n alpha gamma s1 s2 :
  0 < n -> agree_below p n s1 s2 ->
  both (solve_update X n alpha gamma s1) (solve_update X n alpha gamma s2)
       (fun _ => agree_below p (n + 1)).
Proof.
  intros Hn H. unfold solve_update.
  eapply both_bind; [apply both_computePower; [exact Hn | | | | exact H]; lia | cbn beta].
  intros pw t1 t2 H1.
  eapply both_bind; [apply both_set_power; exact H1 | cbn beta].
  intros _ u1 u2 H2.
  eapply both_bind; [apply both_update_concentrations; [|exact H2]; lia | cbn beta].
  intros _ v1 v2 H3.
  eapply both_mono; [apply both_update_rho; [exact Hn | | exact H3]; lia|].
  intros [] w1 w2 H4. eapply agree_next; eauto.
Qed.

(** The writes of step [n] depend on the parameters, on the sizes of the
    vectors and on the history entries of the indices below [n], and on
    nothing else. *)
Lemma both_solve_step n alpha s1 s2 :
  0 < n -> agree_below p n s1 s2 ->
  both (solve_step X n alpha s1) (solve_step X n alpha s2)
       (fun _ => agree_below p (n + 1)).
Proof.
  intros Hn H. unfold solve_step.
  apply both_bind_get. cbn beta.
  rel_lift ltac:(eapply computeGamma_agree; eauto).
  eapply both_bind.
  - rewrite !solve_alpha_lift.
    apply both_lift with (Q := fun _ => agree_below p n); [|intros; exact H].
    assert (extrapolation_rate X s1 n = extrapolation_rate X s2 n) as ->
      by (eapply extrapolation_rate_agree; first [exact H | lia]).
    reflexivity.
  - cbn beta. intros al t1 t2 H1.
    eapply both_bind; [apply both_solve_update; eauto | cbn beta].
    intros _ u1 u2 H2. apply both_ret. exact H2.
Qed.

Lemma both_solve_loop lo hi alpha s1 s2 :
  0 < lo -> agree_below p lo s1 s2 ->
  both (for_range lo hi (solve_step X) alpha s1) (for_range lo hi (solve_step X) alpha s2)
       (fun _ => agree_below p (Z.max lo hi)).
Proof.
  intros Hlo H.
  apply (both_for_range (fun n _ => agree_below p n) (solve_step X) (solve_step X) lo);
    [|lia|exact H].
  intros n a t1 t2 Hn H1. apply both_solve_step; [lia | exact H1].
Qed.

End StepAgreement.

(** * A step without a predecessor *)

Section FirstStep.
Context (X : Externals).

Lemma computeDT_nonpos s n : n <= 0 -> computeDT s n = Bad out_of_range.
Proof.
  intros Hn. unfold computeDT, Params.getTime.
  destruct (at_ (time (params s)) n) as [t1|f] eqn:E; cbn.
  - rewrite at_negative by lia. reflexivity.
  - rewrite (at_Bad _ _ _ E). reflexivity.
Qed.

Lemma computeA1B1_nonpos s n gamma : n <= 0 -> computeA1B1 X s n gamma = Bad out_of_range.
Proof.
  intros Hn. unfold computeA1B1, Params.getLambdaH.
  destruct (at_ (lambda_h (params s)) n) as [lh|f] eqn:E; cbn.
  - rewrite computeDT_nonpos by lia. reflexivity.
  - rewrite (at_Bad _ _ _ E). reflexivity.
Qed.

Lemma computePower_group_nonpos s n gamma k acc :
  n <= 0 -> computePower_group X n gamma k acc s = Fail out_of_range s.
Proof.
  intros Hn. destruct acc as [[tau s_hat_d] s_d_prev]. unfold computePower_group.
  rewrite bind_unfold. cbn [get]. rewrite bind_unfold.
  destruct (Params.getDecayConstant (params s) k n) as [lam|f] eqn:E; cbn [lift].
  - rewrite bind_unfold, computeDT_nonpos by lia. reflexivity.
  - unfold Params.getDecayConstant in E. rewrite (at2_Bad _ _ _ _ E). reflexivity.
Qed.

Lemma computePower_nonpos s n alpha gamma :
  n <= 0 -> computePower X n alpha gamma s = Fail out_of_range s.
Proof.
  intros Hn. unfold computePower. rewrite bind_unfold. cbn [get]. rewrite bind_unfold.
  destruct (Z_lt_le_dec 0 (Params.getNumPrecursors (params s))) as [HK|HK].
  - rewrite for_range_cons by lia. rewrite bind_unfold, computePower_group_nonpos by lia.
    reflexivity.
  - rewrite for_range_nil by lia. rewrite bind_unfold. cbn [get].
    rewrite bind_unfold, computeA1B1_nonpos by lia. reflexivity.
Qed.

(** At [n = 0] the step reads [time(n - 1)] before it writes anything. *)
Lemma solve_step_nonpos s n alpha :
  n <= 0 -> solve_step X n alpha s = Fail out_of_range s.
Proof.
  intros Hn. unfold solve_step. rewrite bind_unfold. cbn [get]. rewrite bind_unfold.
  unfold computeGamma. destruct (Z.ltb_spec n 2); [|lia]. cbn [mret result_ret lift].
  rewrite bind_unfold, solve_alpha_lift. destruct (Z.gtb_spec n 1); [lia|]. cbn [lift].
  rewrite bind_unfold. unfold solve_update. rewrite bind_unfold, computePower_nonpos by lia.
  reflexivity.
Qed.

Lemma solve_empty_prefix s :
  Precomp.getNumTimeSteps (precomp s) = 0 -> 0 < Params.getNumTimeSteps (params s) ->
  solve X s = Fail out_of_range s.
Proof.
  intros Hseed HN. rewrite solve_unfold, Hseed.
  rewrite for_range_cons by lia. rewrite bind_unfold, solve_step_nonpos by lia. reflexivity.
Qed.

End FirstStep.

Section Constructed.
Context (p : EPKEParameters) (h : EPKEOutput).

Lemma Solver_init_well_sized : consistent p -> well_sized p (Solver_init p h).
Proof.
  intros Hp. unfold Solver_init, Params.getNumTimeSteps, Params.getNumPrecursors.
  rewrite !Nat2Z.id. split; cbn; auto; rewrite ?length_replicate; auto.
  apply Forall_replicate. apply length_replicate.
Qed.

Lemma Solver_new_well_sized s :
  consistent p -> Solver_new p h = Ok tt s -> well_sized p s.
Proof.
  intros Hp Hs. apply Solver_new_spec in Hs as (Hsh & _ & _).
  eapply well_sized_shape; [exact Hsh | apply Solver_init_well_sized, Hp].
Qed.

Lemma Solver_new_members s :
  Solver_new p h = Ok tt s ->
  params s = p /\ precomp s = h /\ _fine_solvers s = [].
Proof.
  intros Hs. apply Solver_new_spec in Hs as ([] & _ & _). auto.
Qed.

End Constructed.

(** * Running [solve] again *)

Section Again.
Context (X : Externals) (p : EPKEParameters).

Lemma at2_ext {A} (m1 m2 : list (list A)) :
  length m1 = length m2 ->
  (forall k i, 0 <= k < Z.of_nat (length m1) -> at2 m1 k i = at2 m2 k i) ->
  m1 = m2.
Proof.
  intros Hlen H. apply list_eq_same_length with (length m1); auto.
  intros k row1 row2 Hk H1 H2. apply at_ext. intros i.
  specialize (H (Z.of_nat k) i ltac:(lia)). unfold at2 in H.
  assert (at_ m1 (Z.of_nat k) = Good row1) as E1
    by (apply at_Good; rewrite Nat2Z.id; split; [lia | exact H1]).
  assert (at_ m2 (Z.of_nat k) = Good row2) as E2
    by (apply at_Good; rewrite Nat2Z.id; split; [lia | exact H2]).
  rewrite E1, E2 in H. exact H.
Qed.

Lemma agree_output n s1 s2 :
  well_sized p s1 -> well_sized p s2 -> agree_below p n s1 s2 ->
  Params.getNumTimeSteps p <= n ->
  solve_output s1 = solve_output s2.
Proof.
  intros W1 W2 H Hn. unfold Params.getNumTimeSteps in Hn.
  assert (power s1 = power s2) as Hp.
  { apply at_ext. intros i. destruct (Z_lt_le_dec i n).
    - apply (agree_power H). lia.
    - rewrite !at_beyond; [reflexivity|..].
      + rewrite (sized_power p s2 W2). lia.
      + rewrite (sized_power p s1 W1). lia. }
  assert (rho s1 = rho s2) as Hr.
  { apply at_ext. intros i. destruct (Z_lt_le_dec i n).
    - apply (agree_rho H). lia.
    - rewrite !at_beyond; [reflexivity|..].
      + rewrite (sized_rho p s2 W2). lia.
      + rewrite (sized_rho p s1 W1). lia. }
  assert (concentrations s1 = concentrations s2) as Hc.
  { apply at2_ext.
    - rewrite (sized_conc p s1 W1), (sized_conc p s2 W2). reflexivity.
    - intros k i Hk. destruct (Z_lt_le_dec i n).
      + apply (agree_conc H); [|lia]. unfold Params.getNumPrecursors.
        rewrite <- (sized_conc p s1 W1). exact Hk.
      + unfold at2.
        destruct (at_ok (concentrations s1) k Hk) as [row1 E1].
        destruct (at_ok (concentrations s2) k) as [row2 E2].
        { rewrite (sized_conc p s2 W2), <- (sized_conc p s1 W1). exact Hk. }
        rewrite E1, E2. cbn.
        apply at_Good in E1 as [_ E1]. apply at_Good in E2 as [_ E2].
        pose proof (sized_rows p s1 W1) as R1. pose proof (sized_rows p s2 W2) as R2.
        rewrite Forall_lookup in R1, R2.
        rewrite !at_beyond; [reflexivity|..].
        * rewrite (R2 _ _ E2). lia.
        * rewrite (R1 _ _ E1). lia. }
  unfold solve_output. rewrite Hp, Hr, Hc. reflexivity.
Qed.

Lemma unchanged_agree lo hi s s' :
  params s = p -> unchanged_outside lo hi s s' -> agree_below p lo s s'.
Proof.
  intros Hp [[] Hh]. split; try congruence.
  - intros i Hi. symmetry. apply Hh. lia.
  - intros i Hi. symmetry. apply Hh. lia.
  - intros k i Hk Hi. symmetry. apply Hh. lia.
  - intros; lia.
  - intros; lia.
Qed.

(** A second run of [solve] on the same solver recomputes the same
    histories. *)
Lemma solve_again s out s' :
  well_sized p s -> 0 < Precomp.getNumTimeSteps (precomp s) ->
  solve X s = Ok out s' ->
  exists s'', solve X s' = Ok out s''.
Proof.
  intros W Hseed Hrun.
  pose proof (solve_frame X s) as Hf. rewrite Hrun in Hf. cbn in Hf.
  pose proof (unchanged_agree _ _ s s' (sized_params p s W) Hf) as Hag.
  destruct Hf as [Hsh _].
  pose proof (well_sized_shape p s s' Hsh W) as W'.
  revert Hrun. rewrite !solve_unfold.
  rewrite (shape_precomp _ _ Hsh), (shape_params _ _ Hsh).
  pose proof (both_solve_loop X p (Precomp.getNumTimeSteps (precomp s))
                (Params.getNumTimeSteps (params s)) 0%float s s' Hseed Hag) as Hb.
  pose proof (solve_loop_frame X (Precomp.getNumTimeSteps (precomp s))
                (Params.getNumTimeSteps (params s)) 0%float s') as [Hsh' _].
  destruct (for_range _ _ _ _ s) as [a1 t1|]; [|discriminate].
  destruct (for_range _ _ _ _ s') as [a2 t2|]; [|contradiction].
  cbn in Hb, Hsh'. destruct Hb as [<- Hb]. intros [= <- <-].
  exists t2. f_equal.
  pose proof (well_sized_shape p t1 t2 Hsh' W') as W2.
  symmetry. eapply agree_output; eauto.
  rewrite (sized_params p s W). lia.
Qed.

End Again.

(** * Not-a-number and the branches of [computeABC] *)

Section NaN.
Local Open Scope float_scope.

Lemma sub_nan_r (x : float) : x - nan = nan.
Proof.
  apply Prim2SF_inj. rewrite sub_spec.
  change (Prim2SF nan) with S754_nan.
  destruct (Prim2SF x) as [sg|sg| |sg m e]; try destruct sg; reflexivity.
Qed.

Lemma div_nan_l (y : float) : nan / y = nan.
Proof.
  apply Prim2SF_inj. rewrite div_spec.
  change (Prim2SF nan) with S754_nan. reflexivity.
Qed.

Lemma sqrt_negative (d : float) : (d <? 0) = true -> sqrt d = nan.
Proof.
  rewrite FloatAxioms.ltb_spec. intros H.
  apply Prim2SF_inj. rewrite sqrt_spec.
  change (Prim2SF nan) with S754_nan.
  change (Prim2SF 0) with (S754_zero false) in H.
  destruct (Prim2SF d) as [sg|sg| |sg m e]; try destruct sg; try discriminate; reflexivity.
Qed.

Lemma not_root_cases (a : float) :
  ((a <? 0) = false /\ (a =? 0) = false) <-> ((0 <? a) = true \/ is_nan a = true).
Proof.
  unfold is_nan.
  rewrite !FloatAxioms.ltb_spec, !FloatAxioms.eqb_spec.
  change (Prim2SF 0) with (S754_zero false).
  destruct (Prim2SF a) as [sg|sg| |sg m e]; try destruct sg; cbn;
    rewrite ?Z.compare_refl;
    try (change (PosDef.Pos.compare_cont Eq m m) with (Pos.compare m m);
         rewrite Pos.compare_refl); cbn;
    intuition congruence.
Qed.
End NaN.

(** * Where the time step is defined *)

Section Domain.
Context (X : Externals).
Local Open Scope float_scope.

Lemma computeDT_Good s n :
  (1 <= n < Params.getNumTimeSteps (params s))%Z ->
  exists t1 t0, Params.getTime (params s) n = Good t1 /\
    Params.getTime (params s) (n - 1) = Good t0 /\ computeDT s n = Good (t1 - t0).
Proof.
  unfold Params.getNumTimeSteps, computeDT, Params.getTime. intros Hn.
  destruct (at_ok (time (params s)) n) as [t1 H1]; [lia|].
  destruct (at_ok (time (params s)) (n - 1)) as [t0 H0]; [lia|].
  exists t1, t0. rewrite H1, H0. auto.
Qed.

Lemma computeDT_beyond s n :
  (Params.getNumTimeSteps (params s) <= n)%Z -> computeDT s n = Bad out_of_range.
Proof.
  unfold Params.getNumTimeSteps, computeDT, Params.getTime. intros Hn.
  rewrite (at_beyond _ n) by lia. reflexivity.
Qed.

Lemma quadratic_Bad s n alpha a1b1 tau shd sdp f :
  quadratic X s n alpha a1b1 tau shd sdp = Bad f -> f = out_of_range.
Proof.
  unfold quadratic, computeDT, Params.getTime, Params.getGenTime, Params.getBetaEff.
  repeat match goal with
  | |- context [at_ ?v ?i ≫= _] =>
      let E := fresh "E" in
      destruct (at_ v i) eqn:E; cbn [mbind result_bind mret result_ret];
      [| intros [= <-]; exact (at_Bad _ _ _ E)]
  end.
  discriminate.
Qed.

Lemma select_root_complex a b c :
  (a <? 0) = true -> (b * b - 4 * a * c <? 0) = true -> select_root a b c = Good nan.
Proof.
  intros Ha Hd. rewrite (select_root_negative a b c Ha).
  rewrite (sqrt_negative _ Hd), sub_nan_r, div_nan_l. reflexivity.
Qed.

End Domain.


(** * Completed computations, call by call *)

Section Inversion.
Context {S : Type}.

Lemma bind_Ok {A B} (m : M S A) (k : A -> M S B) s b s' :
  (m ≫= k) s = Ok b s' -> exists a s1, m s = Ok a s1 /\ k a s1 = Ok b s'.
Proof. rewrite bind_unfold. destruct (m s) as [a s1|]; [eauto | discriminate]. Qed.

Lemma lift_Ok {A} (r : result A) (s : S) a s' : lift r s = Ok a s' -> r = Good a /\ s' = s.
Proof. destruct r; cbn; [intros [= -> ->]; auto | discriminate]. Qed.

Lemma post_Ok {A} (o : outcome S A) Q : post o Q (fun _ _ => False) -> exists a s, o = Ok a s /\ Q a s.
Proof. destruct o; cbn; [eauto | contradiction]. Qed.

End Inversion.

(** * The constructor on a prefix that fits, and on one that does not *)

Section ConstructorRuns.
Context (p : EPKEParameters) (h : EPKEOutput) (Hh : rectangular p h).

Local Abbreviation init := (Solver_init p h).
Local Abbreviation L := (Precomp.getNumTimeSteps h).
Local Abbreviation N := (Params.getNumTimeSteps p).
Local Abbreviation K := (Params.getNumPrecursors p).

Lemma init_shape s :
  same_shape init s ->
  length (power s) = Z.to_nat N /\ length (rho s) = Z.to_nat N /\
  length (concentrations s) = Z.to_nat K /\
  Forall (fun row => length row = Z.to_nat N) (concentrations s).
Proof.
  intros [_ _ _ Hpw Hrh _ _ Hcn]. cbn in *. rewrite length_replicate in *.
  split; [auto|]. split; [auto|].
  rewrite fmap_replicate in Hcn.
  split.
  - apply (f_equal length) in Hcn. rewrite length_fmap, length_replicate in Hcn.
    exact Hcn.
  - apply Forall_lookup. intros i row Hrow.
    assert ((length <$> concentrations s) !! i = Some (length row)) as E
      by (rewrite list_lookup_fmap, Hrow; reflexivity).
    rewrite Hcn in E. apply lookup_replicate in E as [E _].
    rewrite length_replicate in E. auto.
Qed.

Lemma getConcentration_ok k n :
  0 <= k < K -> 0 <= n < L -> exists x, Precomp.getConcentration h k n = Good x.
Proof.
  intros Hk Hn. destruct Hh as (_ & Hrows & Hall).
  unfold Precomp.getConcentration. eapply at2_ok; [exact Hall | |exact Hn].
  rewrite Hrows. exact Hk.
Qed.

Lemma getPower_ok n : 0 <= n < L -> exists x, Precomp.getPower h n = Good x.
Proof. intros Hn. apply at_ok. exact Hn. Qed.

Lemma getRho_ok n : 0 <= n < L -> exists x, Precomp.getRho h n = Good x.
Proof.
  intros Hn. apply at_ok. destruct Hh as (-> & _). exact Hn.
Qed.

(** The passes of the first loop nest over the entries [lo <= n < hi] of
    group [k], all within the grid. *)
Lemma conc_row_fill k lo hi s :
  0 <= k < K -> 0 <= lo -> hi <= L -> hi <= N -> same_shape init s ->
  post (for_range lo hi (fun n (_ : unit) =>
          x ← lift (Precomp.getConcentration h k n); set_concentration k n x) tt s)
       (fun _ s' => same_shape init s') (fun _ _ => False).
Proof.
  intros Hk Hlo HL HN Hs.
  eapply post_mono;
    [apply (post_for_range (fun _ (_ : unit) s' => same_shape init s') (fun _ _ => False) _ lo)
    | auto | auto]; [|lia|exact Hs].
  intros n [] s1 Hn Hs1. cbn beta.
  destruct (getConcentration_ok k n) as [x Hx]; [lia | lia |].
  rewrite bind_unfold, Hx. cbn [lift]. rewrite set_concentration_unfold.
  destruct (init_shape s1 Hs1) as (_ & _ & Hlen & Hrows).
  destruct (store2_ok (concentrations s1) k n x (Z.to_nat N) Hrows) as [m' Hm']; [lia | lia |].
  rewrite Hm'. cbn. eapply same_shape_trans; [exact Hs1|].
  split; cbn; auto. eapply store2_shape; eauto.
Qed.

Lemma prefix_fill lo hi s :
  0 <= lo -> hi <= L -> hi <= N -> same_shape init s ->
  post (for_range lo hi (fun n (_ : unit) =>
          x ← lift (Precomp.getPower h n); set_power n x;;
          y ← lift (Precomp.getRho h n); set_rho n y) tt s)
       (fun _ s' => same_shape init s') (fun _ _ => False).
Proof.
  intros Hlo HL HN Hs.
  eapply post_mono;
    [apply (post_for_range (fun _ (_ : unit) s' => same_shape init s') (fun _ _ => False) _ lo)
    | auto | auto]; [|lia|exact Hs].
  intros n [] s1 Hn Hs1. cbn beta.
  destruct (getPower_ok n) as [x Hx]; [lia|].
  destruct (getRho_ok n) as [y Hy]; [lia|].
  destruct (init_shape s1 Hs1) as (Hpw & Hr & _ & _).
  rewrite bind_unfold, Hx. cbn [lift]. rewrite bind_unfold, set_power_unfold.
  rewrite store_ok by lia. rewrite bind_unfold, Hy. cbn [lift].
  rewrite set_rho_unfold. cbn [rho with_power]. rewrite store_ok by lia. cbn.
  eapply same_shape_trans; [exact Hs1|].
  split; cbn; auto; apply length_insert.
Qed.

Lemma Solver_new_fits : L <= N -> exists s, Solver_new p h = Ok tt s.
Proof.
  intros HLN. unfold Solver_new, Solver_body. rewrite bind_unfold. cbn [get].
  change (precomp init) with h. change (params init) with p.
  rewrite bind_unfold.
  pose proof (post_for_range (fun _ (_ : unit) s' => same_shape init s') (fun _ _ => False)
    (fun k _ => for_range 0 L (fun n _ =>
       x ← lift (Precomp.getConcentration h k n); set_concentration k n x) tt)
    0 K) as H1.
  specialize (H1 ltac:(intros k [] s1 Hk Hs1; apply conc_row_fill; auto; lia)
                 0 tt init ltac:(lia) (same_shape_refl _)).
  apply post_Ok in H1 as ([] & s1 & -> & Hs1).
  pose proof (prefix_fill 0 L s1 ltac:(lia) ltac:(lia) HLN Hs1) as H2.
  apply post_Ok in H2 as ([] & s2 & -> & Hs2). eauto.
Qed.

Lemma Solver_new_overflow : N < L -> exists s, Solver_new p h = Fail undefined s.
Proof.
  intros HLN. unfold Solver_new, Solver_body. rewrite bind_unfold. cbn [get].
  change (precomp init) with h. change (params init) with p.
  rewrite bind_unfold.
  assert (0 <= N) as HN0 by (unfold Params.getNumTimeSteps; lia).
  destruct (Z_lt_le_dec 0 K) as [HK|HK].
  - rewrite for_range_cons by lia. rewrite bind_unfold.
    rewrite (for_range_split 0 N L) by lia. rewrite bind_unfold.
    pose proof (conc_row_fill 0 0 N init ltac:(lia) ltac:(lia) ltac:(lia) ltac:(lia)
                  (same_shape_refl _)) as H1.
    apply post_Ok in H1 as ([] & s1 & -> & Hs1).
    rewrite for_range_cons by lia. rewrite bind_unfold.
    destruct (getConcentration_ok 0 N) as [x Hx]; [lia | lia |].
    rewrite bind_unfold, Hx. cbn [lift]. rewrite set_concentration_unfold.
    destruct (store2 (concentrations s1) 0 N x) as [m|f] eqn:Hm.
    + exfalso. apply store2_Good in Hm as (row & _ & Hrow & Hn & _).
      destruct (init_shape s1 Hs1) as (_ & _ & _ & Hrows).
      rewrite Forall_lookup in Hrows. rewrite (Hrows _ _ Hrow) in Hn. lia.
    + rewrite (store2_Bad _ _ _ _ _ Hm). eauto.
  - rewrite for_range_nil by lia.
    rewrite (for_range_split 0 N L) by lia. rewrite bind_unfold.
    pose proof (prefix_fill 0 N init ltac:(lia) ltac:(lia) ltac:(lia) (same_shape_refl _)) as H1.
    apply post_Ok in H1 as ([] & s1 & -> & Hs1).
    rewrite for_range_cons by lia. rewrite bind_unfold.
    destruct (getPower_ok N) as [x Hx]; [lia|].
    rewrite bind_unfold, Hx. cbn [lift]. rewrite bind_unfold, set_power_unfold.
    destruct (store (power s1) N x) as [v|f] eqn:Hv.
    + exfalso. apply store_Good in Hv as [Hn _].
      destruct (init_shape s1 Hs1) as (Hpw & _). lia.
    + rewrite (store_Bad _ _ _ _ Hv). eauto.
Qed.

End ConstructorRuns.

Lemma at2_outside {A} (m : list (list A)) k i (n : nat) :
  Forall (fun row => length row = n) m -> 0 <= k < Z.of_nat (length m) ->
  i < 0 \/ Z.of_nat n <= i -> at2 m k i = Bad out_of_range.
Proof.
  intros Hrows Hk Hi. destruct (at_ok m k Hk) as [row Hrow].
  unfold at2. rewrite Hrow. cbn.
  apply at_Good in Hrow as [_ Hrow]. rewrite Forall_lookup in Hrows.
  destruct Hi; [apply at_negative; lia | apply at_beyond].
  rewrite (Hrows _ _ Hrow). lia.
Qed.

Lemma well_sized_conc_shape p s :
  well_sized p s ->
  length <$> concentrations s = replicate (length (decay_constant p)) (length (time p)).
Proof.
  intros W. rewrite <- (sized_conc p s W).
  pose proof (sized_rows p s W) as Hrows.
  induction Hrows as [|row rows Hrow _ IH]; [reflexivity|].
  cbn. rewrite Hrow, IH. reflexivity.
Qed.

(** * Completed runs *)

Section Runs.
Context (X : Externals).

Lemma solve_Ok s out s' :
  solve X s = Ok out s' ->
  out = solve_output s' /\
  exists a, for_range (Precomp.getNumTimeSteps (precomp s))
              (Params.getNumTimeSteps (params s)) (solve_step X) 0%float s = Ok a s'.
Proof.
  rewrite solve_unfold. destruct (for_range _ _ _ _ _) as [a t|]; [|discriminate].
  intros [= <- <-]. eauto.
Qed.

Lemma solve_shape p h s out s' :
  Solver_new p h = Ok tt s -> solve X s = Ok out s' ->
  length (out_power out) = length (time p) /\
  length (out_rho out) = length (time p) /\
  length <$> out_concentrations out
  = replicate (length (decay_constant p)) (length (time p)).
Proof.
  intros Hnew Hrun. apply Solver_new_spec in Hnew as (Hsh & _ & _).
  pose proof (solve_frame X s) as [Hsh' _]. rewrite Hrun in Hsh'. cbn in Hsh'.
  apply solve_Ok in Hrun as [-> _]. cbn.
  destruct Hsh, Hsh'. cbn in *.
  unfold Params.getNumTimeSteps, Params.getNumPrecursors in *.
  rewrite !Nat2Z.id, ?length_replicate, ?fmap_replicate in *.
  rewrite length_replicate in *.
  repeat split; congruence.
Qed.

Lemma solve_nothing_to_do s :
  Params.getNumTimeSteps (params s) <= Precomp.getNumTimeSteps (precomp s) ->
  solve X s = Ok (solve_output s) s.
Proof. intros H. rewrite solve_unfold, for_range_nil by lia. reflexivity. Qed.

Lemma solve_passes_prefix p h s :
  rectangular p h -> Precomp.getNumTimeSteps h = Params.getNumTimeSteps p ->
  Solver_new p h = Ok tt s ->
  solve X s = Ok h s.
Proof.
  intros (Hr & Hk & Hrows) HLN Hnew.
  destruct (Solver_new_members p h s Hnew) as (Hp & Hpre & _).
  rewrite solve_nothing_to_do by (rewrite Hp, Hpre; lia).
  f_equal. apply Solver_new_spec in Hnew as (Hsh & Hlo & _).
  destruct (init_shape p h s Hsh) as (Hlp & Hlr & Hlc & Hlrows).
  unfold Precomp.getNumTimeSteps, Params.getNumTimeSteps in *.
  unfold Precomp.getPower, Precomp.getRho, Precomp.getConcentration in Hlo.
  destruct h as [hp hr hc]. cbn in *. unfold solve_output. f_equal.
  - apply at_ext. intros i.
    destruct (Z_lt_le_dec i 0); [rewrite !at_negative by lia; reflexivity|].
    destruct (Z_lt_le_dec i (Z.of_nat (length hp))); [apply Hlo; lia|].
    rewrite !at_beyond by lia. reflexivity.
  - apply at_ext. intros i.
    destruct (Z_lt_le_dec i 0); [rewrite !at_negative by lia; reflexivity|].
    destruct (Z_lt_le_dec i (Z.of_nat (length hp))); [apply Hlo; lia|].
    rewrite !at_beyond by lia. reflexivity.
  - unfold Params.getNumPrecursors in *.
    apply at2_ext; [lia|].
    intros k i Hki.
    destruct (decide (0 <= i < Z.of_nat (length hp))) as [Hi|Hi].
    + apply Hlo; [exact Hi | lia].
    + rewrite (at2_outside (concentrations s) k i _ Hlrows) by lia.
      rewrite (at2_outside hc k i _ Hrows) by lia. reflexivity.
Qed.


Lemma both_drop_value {S A} (o1 o2 : outcome S A) (Q : S -> S -> Prop) :
  both o1 o2 (fun _ => Q) -> both (drop_value o1) (drop_value o2) (fun _ => Q).
Proof. destruct o1, o2; cbn; tauto. Qed.

Lemma rate_step_solve_step n s : rate_step X n tt s = drop_value (solve_step X n 0%float s).
Proof. symmetry. apply solve_step_rate. reflexivity. Qed.

Lemma both_rate_loop p lo hi s1 s2 :
  0 < lo -> agree_below p lo s1 s2 ->
  both (for_range lo hi (rate_step X) tt s1) (for_range lo hi (rate_step X) tt s2)
       (fun _ => agree_below p (Z.max lo hi)).
Proof.
  intros Hlo H.
  apply (both_for_range (fun n (_ : unit) => agree_below p n) (rate_step X) (rate_step X) lo);
    [|lia|exact H].
  intros n [] t1 t2 Hn H1. rewrite !rate_step_solve_step.
  apply both_drop_value. apply both_solve_step; [lia | exact H1].
Qed.

Lemma rate_solve_Ok s out s' :
  solve X s = Ok out s' ->
  out = solve_output s' /\
  for_range (Precomp.getNumTimeSteps (precomp s))
    (Params.getNumTimeSteps (params s)) (rate_step X) tt s = Ok tt s'.
Proof.
  rewrite rate_solve_eq. unfold rate_solve. rewrite bind_unfold. cbn [get]. rewrite bind_unfold.
  destruct (for_range _ _ _ _ _) as [[] t|]; [|discriminate].
  intros [= <- <-]. auto.
Qed.

Lemma rate_solve_intro s s' :
  for_range (Precomp.getNumTimeSteps (precomp s))
    (Params.getNumTimeSteps (params s)) (rate_step X) tt s = Ok tt s' ->
  solve X s = Ok (solve_output s') s'.
Proof.
  intros H. rewrite rate_solve_eq. unfold rate_solve. rewrite bind_unfold. cbn [get].
  rewrite bind_unfold, H. reflexivity.
Qed.

Lemma rate_loop_frame lo hi s :
  unchanged_outside lo hi s (state_of (for_range lo hi (rate_step X) tt s)).
Proof.
  apply frame_for_range.
  - apply unchanged_refl.
  - apply unchanged_trans.
  - intros n [] s' Hn. rewrite rate_step_solve_step.
    pose proof (solve_step_frame X n 0%float s') as H.
    destruct (solve_step X n 0%float s'); cbn in *; (eapply unchanged_mono; [exact H | lia..]).
Qed.

Lemma solve_restart_run p h s out s' m h2 s2 :
  consistent p -> 0 < Precomp.getNumTimeSteps h ->
  Solver_new p h = Ok tt s -> solve X s = Ok out s' ->
  Precomp.getNumTimeSteps h <= m <= Params.getNumTimeSteps p ->
  Precomp.getNumTimeSteps h2 = m ->
  (forall i, 0 <= i < m ->
     Precomp.getPower h2 i = Precomp.getPower out i /\
     Precomp.getRho h2 i = Precomp.getRho out i /\
     forall k, 0 <= k < Params.getNumPrecursors p ->
       Precomp.getConcentration h2 k i = Precomp.getConcentration out k i) ->
  Solver_new p h2 = Ok tt s2 ->
  exists s2', solve X s2 = Ok out s2'.
Proof.
  intros Hp HL Hnew Hrun Hm Hm2 Hpre Hnew2.
  pose proof (Solver_new_well_sized p h s Hp Hnew) as W.
  pose proof (Solver_new_well_sized p h2 s2 Hp Hnew2) as W2.
  destruct (Solver_new_members p h s Hnew) as (Hps & Hhs & _).
  destruct (Solver_new_members p h2 s2 Hnew2) as (Hps2 & Hhs2 & _).
  apply rate_solve_Ok in Hrun as [-> Hloop]. rewrite Hps, Hhs in Hloop.
  rewrite (for_range_split _ m) in Hloop by lia.
  apply bind_Ok in Hloop as ([] & s_m & Hpre_loop & Hrest).
  (* the state the first run had before step [m] and the new solver agree
     below [m] *)
  pose proof (rate_loop_frame (Precomp.getNumTimeSteps h) m s) as Hf1.
  rewrite Hpre_loop in Hf1. cbn in Hf1.
  pose proof (rate_loop_frame m (Params.getNumTimeSteps p) s_m) as Hf2.
  rewrite Hrest in Hf2. cbn in Hf2.
  pose proof (well_sized_shape p s s_m (proj1 Hf1) W) as Wm.
  pose proof (well_sized_shape p s_m s' (proj1 Hf2) Wm) as W'.
  destruct (Solver_new_spec p h2 s2 Hnew2) as (_ & Hlo2 & _). rewrite Hm2 in Hlo2.
  assert (agree_below p m s_m s2) as Hag.
  { destruct Hf2 as [_ Hh2].
    split.
    - apply (sized_params p s_m Wm).
    - exact Hps2.
    - rewrite (sized_power p _ Wm), (sized_power p _ W2). reflexivity.
    - rewrite (sized_rho p _ Wm), (sized_rho p _ W2). reflexivity.
    - rewrite (sized_omega p _ Wm), (sized_omega p _ W2). reflexivity.
    - rewrite (sized_zeta_hat p _ Wm), (sized_zeta_hat p _ W2). reflexivity.
    - rewrite (well_sized_conc_shape p _ Wm), (well_sized_conc_shape p _ W2). reflexivity.
    - intros i Hi. destruct (Z_lt_le_dec i 0); [rewrite !at_negative by lia; reflexivity|].
      destruct (Hlo2 i) as (-> & _ & _); [lia|].
      destruct (Hpre i) as (-> & _ & _); [lia|].
      symmetry. apply (Hh2 i). lia.
    - intros i Hi. destruct (Z_lt_le_dec i 0); [rewrite !at_negative by lia; reflexivity|].
      destruct (Hlo2 i) as (_ & -> & _); [lia|].
      destruct (Hpre i) as (_ & -> & _); [lia|].
      symmetry. apply (Hh2 i). lia.
    - intros k i Hk Hi. unfold Params.getNumPrecursors in Hk.
      destruct (Z_lt_le_dec i 0).
      { rewrite (at2_outside (concentrations s_m) k i _ (sized_rows p _ Wm))
          by (rewrite ?(sized_conc p _ Wm); lia).
        rewrite (at2_outside (concentrations s2) k i _ (sized_rows p _ W2))
          by (rewrite ?(sized_conc p _ W2); lia).
        reflexivity. }
      destruct (Hlo2 i) as (_ & _ & E2); [lia|]. rewrite (E2 k Hk).
      destruct (Hpre i) as (_ & _ & E1); [lia|]. rewrite (E1 k Hk).
      symmetry. apply (Hh2 i). lia.
    - intros; lia.
    - intros; lia. }
  pose proof (both_rate_loop p m (Params.getNumTimeSteps p) s_m s2 ltac:(lia) Hag) as Hb.
  rewrite Hrest in Hb.
  destruct (for_range m _ _ tt s2) as [[] s2'|] eqn:Hloop2; [|contradiction].
  cbn in Hb. destruct Hb as [_ Hb].
  exists s2'. rewrite (rate_solve_intro s2 s2') by (rewrite Hps2, Hhs2, Hm2; exact Hloop2).
  f_equal. symmetry.
  pose proof (rate_loop_frame m (Params.getNumTimeSteps p) s2) as Hf3.
  rewrite Hloop2 in Hf3. cbn in Hf3.
  eapply (agree_output p); [exact W' | eapply well_sized_shape; [exact (proj1 Hf3) | exact W2] | exact Hb | lia].
Qed.

End Runs.

(** * The entries the constructor does not copy *)

Section Zeros.
Context (p : EPKEParameters) (h : EPKEOutput).

Lemma Solver_new_zero s :
  Solver_new p h = Ok tt s ->
  forall n, Precomp.getNumTimeSteps h <= n < Params.getNumTimeSteps p ->
    at_ (power s) n = Good 0%float /\ at_ (rho s) n = Good 0%float /\
    forall k, 0 <= k < Params.getNumPrecursors p ->
      at2 (concentrations s) k n = Good 0%float.
Proof.
  intros Hnew n Hn. destruct (Solver_new_spec p h s Hnew) as (_ & _ & Hhi).
  assert (0 <= Precomp.getNumTimeSteps h) as HL by (unfold Precomp.getNumTimeSteps; lia).
  destruct (Hhi n ltac:(lia)) as [Hp Hr Hc].
  unfold Params.getNumTimeSteps, Params.getNumPrecursors in *.
  assert (at_ (replicate (length (time p)) 0%float) n = Good 0%float) as Hz.
  { apply at_Good. split; [lia|]. apply lookup_replicate_2. lia. }
  cbn in Hp, Hr, Hc. unfold Params.getNumTimeSteps, Params.getNumPrecursors in *.
  rewrite !Nat2Z.id in *.
  split; [rewrite Hp; exact Hz|]. split; [rewrite Hr; exact Hz|].
  intros k Hk. rewrite Hc. unfold at2.
  assert (at_ (replicate (length (decay_constant p)) (replicate (length (time p)) 0%float)) k
          = Good (replicate (length (time p)) 0%float)) as ->.
  { apply at_Good. split; [lia|]. apply lookup_replicate_2. lia. }
  exact Hz.
Qed.

End Zeros.


(** * The finished histories *)

Section Final.
Context (X : Externals).
Local Open Scope float_scope.

Lemma rate_step_Ok n s s' :
  rate_step X n tt s = Ok tt s' ->
  exists gamma alpha, computeGamma s n = Good gamma /\
    extrapolation_rate X s n = Good alpha /\ solve_update X n alpha gamma s = Ok tt s'.
Proof.
  unfold rate_step. intros H.
  apply bind_Ok in H as (s0 & t0 & [= <- <-] & H).
  apply bind_Ok in H as (gamma & t1 & Hg & H). apply lift_Ok in Hg as [Hg ->].
  apply bind_Ok in H as (alpha & t2 & Ha & H). apply lift_Ok in Ha as [Ha ->].
  eauto.
Qed.

Lemma rate_step_positive n s s' : rate_step X n tt s = Ok tt s' -> (0 < n)%Z.
Proof.
  intros H. destruct (Z_lt_le_dec 0 n) as [|Hn]; [assumption|].
  rewrite rate_step_solve_step, (solve_step_nonpos X s n _ Hn) in H. discriminate.
Qed.

(** What a completed run had at step [n]: the state [s_n] the steps before
    it left, the state [s_m] it left, and the frame of the steps after it. *)
Lemma run_at p h s out s' n :
  Solver_new p h = Ok tt s -> solve X s = Ok out s' ->
  (Precomp.getNumTimeSteps h <= n < Params.getNumTimeSteps p)%Z ->
  out = solve_output s' /\ (0 < n)%Z /\ same_shape (Solver_init p h) s' /\
  exists s_n s_m,
    params s_n = p /\
    rate_step X n tt s_n = Ok tt s_m /\
    unchanged_outside (n + 1) (Params.getNumTimeSteps p) s_m s'.
Proof.
  intros Hnew Hrun Hn.
  destruct (Solver_new_members p h s Hnew) as (Hps & Hhs & _).
  destruct (Solver_new_spec p h s Hnew) as (Hsh & _ & _).
  pose proof (solve_frame X s) as [Hsh' _]. rewrite Hrun in Hsh'. cbn in Hsh'.
  apply rate_solve_Ok in Hrun as [-> Hloop]. rewrite Hps, Hhs in Hloop.
  destruct (for_range_Ok _ _ _ _ _ _ _ n Hloop Hn) as ([] & s_n & [] & s_m & Hpre & Hstep & Hsuf).
  split; [reflexivity|]. split; [eapply rate_step_positive; eauto|].
  split; [eapply same_shape_trans; eauto|].
  exists s_n, s_m.
  pose proof (rate_loop_frame X (Precomp.getNumTimeSteps h) n s) as [[Hpn] _].
  rewrite Hpre in Hpn. cbn in Hpn.
  split; [congruence|]. split; [exact Hstep|].
  pose proof (rate_loop_frame X (n + 1) (Params.getNumTimeSteps p) s_m) as Hf.
  rewrite Hsuf in Hf. exact Hf.
Qed.

Lemma solve_step_again p h s out s' n :
  Solver_new p h = Ok tt s -> solve X s = Ok out s' ->
  (Precomp.getNumTimeSteps h <= n < Params.getNumTimeSteps p)%Z ->
  exists alpha s'',
    solve_step X n 0 s' = Ok alpha s'' /\
    power s'' = power s' /\ rho s'' = rho s' /\ concentrations s'' = concentrations s'.
Proof.
  intros Hnew Hrun Hn.
  destruct (run_at p h s out s' n Hnew Hrun Hn)
    as (-> & Hpos & Hsh & s_n & s_m & Hps & Hstep & Hrest).
  rewrite rate_step_solve_step in Hstep.
  pose proof (solve_step_frame X n 0 s_n) as Hfn.
  destruct (solve_step X n 0 s_n) as [a t|] eqn:Hs; [|discriminate].
  cbn in Hstep, Hfn. injection Hstep as ->.
  assert (agree_below p n s_n s') as Hag.
  { apply (unchanged_agree p n (Params.getNumTimeSteps p)); [exact Hps|].
    eapply unchanged_trans; (eapply unchanged_mono; [eassumption | lia..]). }
  pose proof (both_solve_step X p n 0 s_n s' Hpos Hag) as Hb. rewrite Hs in Hb.
  pose proof (solve_step_frame X n 0 s') as Hf'.
  destruct (solve_step X n 0 s') as [a' s''|]; [|contradiction].
  cbn in Hb, Hf'. destruct Hb as [<- Hb]. exists a, s''. split; [reflexivity|].
  destruct Hf' as [Hsh' Hf']. destruct Hrest as [_ Hrest].
  split; [|split].
  - apply at_ext. intros i. destruct (decide (i = n)) as [->|Hi].
    + rewrite <- (agree_power Hb) by lia. symmetry. apply (Hrest n). lia.
    + apply (Hf' i). lia.
  - apply at_ext. intros i. destruct (decide (i = n)) as [->|Hi].
    + rewrite <- (agree_rho Hb) by lia. symmetry. apply (Hrest n). lia.
    + apply (Hf' i). lia.
  - destruct (init_shape p h s' Hsh) as (_ & _ & Hlc & _).
    apply at2_ext.
    + pose proof (shape_conc _ _ Hsh') as E. apply (f_equal length) in E.
      rewrite !length_fmap in E. exact E.
    + intros k i Hk. destruct (decide (i = n)) as [->|Hi].
      * rewrite <- (agree_conc Hb); [symmetry; apply (Hrest n); lia | | lia].
        pose proof (shape_conc _ _ Hsh') as E. apply (f_equal length) in E.
        rewrite !length_fmap in E. unfold Params.getNumPrecursors in *. lia.
      * apply (Hf' i). lia.
Qed.


Lemma set_power_Ok n x s s' :
  set_power n x s = Ok tt s' ->
  (0 <= n < Z.of_nat (length (power s)))%Z /\ s' = with_power (<[Z.to_nat n := x]> (power s)) s.
Proof.
  rewrite set_power_unfold. destruct (store (power s) n x) as [v|] eqn:E; [|discriminate].
  apply store_Good in E as [Hn ->]. intros [= <-]. auto.
Qed.

Lemma set_rho_Ok n x s s' :
  set_rho n x s = Ok tt s' ->
  (0 <= n < Z.of_nat (length (rho s)))%Z /\ s' = with_rho (<[Z.to_nat n := x]> (rho s)) s.
Proof.
  rewrite set_rho_unfold. destruct (store (rho s) n x) as [v|] eqn:E; [|discriminate].
  apply store_Good in E as [Hn ->]. intros [= <-]. auto.
Qed.

Lemma update_rho_Ok n gamma s s' :
  update_rho X n gamma s = Ok tt s' ->
  exists a1 b1 pn,
    computeA1B1 X s n gamma = Good (a1, b1) /\ at_ (power s) n = Good pn /\
    at_ (rho s') n = Good (a1 * pn + b1) /\ power s' = power s /\
    concentrations s' = concentrations s /\ unchanged_outside n (n + 1) s s'.
Proof.
  intros H. pose proof (set_rho_frame n) as Hf. revert H. unfold update_rho. intros H.
  apply bind_Ok in H as (s0 & t0 & [= <- <-] & H).
  apply bind_Ok in H as ([a1 b1] & t1 & Hab & H). apply lift_Ok in Hab as [Hab ->].
  apply bind_Ok in H as (pn & t2 & Hpn & H). apply lift_Ok in Hpn as [Hpn ->].
  specialize (Hf (a1 * pn + b1) s). cbn [fst snd] in H. rewrite H in Hf. cbn in Hf.
  apply set_rho_Ok in H as [Hn ->].
  exists a1, b1, pn.
  split; [exact Hab|]. split; [exact Hpn|]. split; [cbn; apply at_insert_eq; exact Hn|].
  split; [reflexivity|]. split; [reflexivity | exact Hf].
Qed.

Lemma solve_update_Ok n alpha gamma s s' :
  solve_update X n alpha gamma s = Ok tt s' ->
  exists pn s1 s3,
    computePower X n alpha gamma s = Ok pn s1 /\
    update_concentrations n (with_power (<[Z.to_nat n := pn]> (power s1)) s1) = Ok tt s3 /\
    (0 <= n < Z.of_nat (length (power s1)))%Z /\
    update_rho X n gamma s3 = Ok tt s'.
Proof.
  unfold solve_update. intros H.
  apply bind_Ok in H as (pn & s1 & Hp & H).
  apply bind_Ok in H as ([] & s2 & Hs & H). apply set_power_Ok in Hs as [Hn ->].
  apply bind_Ok in H as ([] & s3 & Hc & H).
  exists pn, s1, s3. auto.
Qed.

Lemma update_concentrations_power n s :
  power (state_of (update_concentrations n s)) = power s.
Proof.
  unfold update_concentrations.
  frame_with (fun s : Solver => eq_refl (power s))
    (fun s1 s2 s3 (H1 : power s2 = power s1) (H2 : power s3 = power s2) =>
       eq_trans H2 H1)
    ltac:(rewrite set_concentration_unfold; destruct (store2 _ _ _ _); reflexivity).
Qed.

Lemma update_rho_law p h s out s' n :
  Solver_new p h = Ok tt s -> solve X s = Ok out s' ->
  (Precomp.getNumTimeSteps h <= n < Params.getNumTimeSteps p)%Z ->
  exists gamma a1 b1 pn,
    computeGamma s' n = Good gamma /\
    computeA1B1 X s' n gamma = Good (a1, b1) /\
    at_ (out_power out) n = Good pn /\
    at_ (out_rho out) n = Good (a1 * pn + b1).
Proof.
  intros Hnew Hrun Hn.
  destruct (run_at p h s out s' n Hnew Hrun Hn)
    as (-> & Hpos & Hsh & s_n & s_m & Hps & Hstep & Hrest).
  apply rate_step_Ok in Hstep as (gamma & alpha & Hg & _ & Hupd).
  pose proof (solve_update_frame X n alpha gamma s_n) as Hfu. rewrite Hupd in Hfu. cbn in Hfu.
  apply solve_update_Ok in Hupd as (pn0 & s1 & s3 & _ & _ & _ & Hrho).
  apply update_rho_Ok in Hrho as (a1 & b1 & pn & Hab & Hpn & Hr & Hpw & _ & Hf3).
  exists gamma, a1, b1, pn. cbn [out_power out_rho solve_output].
  assert (params s' = p) as Hps' by (destruct Hsh; assumption).
  assert (params s3 = p) as Hps3.
  { destruct Hf3 as [[E3] _]. destruct Hrest as [[Em] _]. congruence. }
  assert (agree_below p n s3 s') as Hag.
  { apply (unchanged_agree p n (Params.getNumTimeSteps p)); [exact Hps3|].
    eapply unchanged_trans; (eapply unchanged_mono; [eassumption | lia..]). }
  destruct Hrest as [_ Hrest].
  split; [|split; [|split]].
  - rewrite <- Hg. unfold computeGamma, computeDT. rewrite Hps', Hps. reflexivity.
  - rewrite <- Hab. symmetry.
    eapply (computeA1B1_agree X p); [exact Hag | lia..].
  - rewrite (same_power _ _ _ (Hrest n ltac:(lia))), Hpw. exact Hpn.
  - rewrite (same_rho _ _ _ (Hrest n ltac:(lia))). exact Hr.
Qed.


Lemma reads_scratch s t k n w gamma :
  scratch_only s t ->
  Params.getDecayConstant (params t) k n = Params.getDecayConstant (params s) k n /\
  computeDT t n = computeDT s n /\
  computeOmega X t k n w gamma = computeOmega X s k n w gamma /\
  computeZetaHat X t k n w gamma = computeZetaHat X s k n w gamma.
Proof.
  intros ([Hp] & Hpw & _ & Hc).
  unfold computeOmega, computeZetaHat, computeDT. rewrite Hp, Hpw, Hc. auto.
Qed.

Lemma set_omega_Ok k x s s' :
  set_omega k x s = Ok tt s' ->
  (0 <= k < Z.of_nat (length (omega s)))%Z /\ s' = with_omega (<[Z.to_nat k := x]> (omega s)) s.
Proof.
  rewrite set_omega_unfold. destruct (store (omega s) k x) as [v|] eqn:E; [|discriminate].
  apply store_Good in E as [Hn ->]. intros [= <-]. auto.
Qed.

Lemma set_zeta_hat_Ok k x s s' :
  set_zeta_hat k x s = Ok tt s' ->
  (0 <= k < Z.of_nat (length (zeta_hat s)))%Z /\
  s' = with_zeta_hat (<[Z.to_nat k := x]> (zeta_hat s)) s.
Proof.
  rewrite set_zeta_hat_unfold. destruct (store (zeta_hat s) k x) as [v|] eqn:E; [|discriminate].
  apply store_Good in E as [Hn ->]. intros [= <-]. auto.
Qed.

Lemma computePower_group_Ok n gamma k acc s acc' s' :
  computePower_group X n gamma k acc s = Ok acc' s' ->
  exists om zh,
    group_coefficients X s n gamma k om zh /\
    (0 <= k < Z.of_nat (length (omega s)))%Z /\
    (0 <= k < Z.of_nat (length (zeta_hat s)))%Z /\
    s' = with_zeta_hat (<[Z.to_nat k := zh]> (zeta_hat s))
           (with_omega (<[Z.to_nat k := om]> (omega s)) s).
Proof.
  destruct acc as [[tau s_hat_d] s_d_prev]. unfold computePower_group. intros H.
  apply bind_Ok in H as (s0 & t0 & [= <- <-] & H).
  apply bind_Ok in H as (lam & t1 & Hlam & H). apply lift_Ok in Hlam as [Hlam ->].
  apply bind_Ok in H as (dt & t1 & Hdt & H). apply lift_Ok in Hdt as [Hdt ->].
  apply bind_Ok in H as (om & t1 & Hom & H). apply lift_Ok in Hom as [Hom ->].
  apply bind_Ok in H as ([] & t1 & Hso & H). apply set_omega_Ok in Hso as [Hk ->].
  apply bind_Ok in H as (s0 & t0 & [= <- <-] & H).
  apply bind_Ok in H as (zh & t1 & Hzh & H). apply lift_Ok in Hzh as [Hzh ->].
  apply bind_Ok in H as ([] & t1 & Hsz & H). apply set_zeta_hat_Ok in Hsz as [Hk' ->].
  apply bind_Ok in H as (s0 & t0 & [= <- <-] & H).
  apply bind_Ok in H as (l1 & t1 & Hl1 & H). apply lift_Ok in Hl1 as [Hl1 ->].
  apply bind_Ok in H as (omk & t1 & Homk & H). apply lift_Ok in Homk as [Homk ->].
  apply bind_Ok in H as (l2 & t1 & Hl2 & H). apply lift_Ok in Hl2 as [Hl2 ->].
  apply bind_Ok in H as (zhk & t1 & Hzhk & H). apply lift_Ok in Hzhk as [Hzhk ->].
  apply bind_Ok in H as (l3 & t1 & Hl3 & H). apply lift_Ok in Hl3 as [Hl3 ->].
  apply bind_Ok in H as (c1 & t1 & Hc1 & H). apply lift_Ok in Hc1 as [Hc1 ->].
  injection H as <- <-.
  exists om, zh. split; [exists lam, dt; auto|]. auto.
Qed.

(** After [computePower] the scratch holds the coefficients of every
    group. *)
Lemma computePower_scratch n alpha gamma s pn s1 :
  computePower X n alpha gamma s = Ok pn s1 ->
  scratch_only s s1 /\
  forall k, (0 <= k < Params.getNumPrecursors (params s))%Z ->
    exists om zh, group_coefficients X s n gamma k om zh /\
      at_ (omega s1) k = Good om /\ at_ (zeta_hat s1) k = Good zh.
Proof.
  intros H. split; [eapply computePower_Ok; eauto|].
  revert H. unfold computePower. intros H.
  apply bind_Ok in H as (s0 & t0 & [= <- <-] & H).
  apply bind_Ok in H as (acc & t1 & Hloop & H).
  assert (t1 = s1) as ->.
  { destruct acc as [[tau s_hat_d] s_d_prev].
    apply bind_Ok in H as (s0 & t0 & [= <- <-] & H).
    apply bind_Ok in H as (ab & t2 & Hab & H). apply lift_Ok in Hab as [_ ->].
    apply lift_Ok in H as [_ ->]. reflexivity. }
  clear H.
  pose proof (post_for_range
    (fun k (_ : float * float * float) t =>
       scratch_only s t /\
       forall j, (0 <= j < k)%Z ->
         exists om zh, group_coefficients X s n gamma j om zh /\
           at_ (omega t) j = Good om /\ at_ (zeta_hat t) j = Good zh)
    (fun _ _ => True) (computePower_group X n gamma) 0
    (Params.getNumPrecursors (params s))) as Hinv.
  specialize (Hinv ltac:(
    intros k acc0 t Hk [Hsc Hlow];
    destruct (computePower_group X n gamma k acc0 t) as [acc' t'|] eqn:Hg; cbn; [|exact I];
    apply computePower_group_Ok in Hg as (om & zh & (lam & dt & Hl & Hd & Ho & Hz) & Hko & Hkz & ->);
    destruct (reads_scratch s t k n (1 / E X lam dt) gamma Hsc) as (El & Ed & Eo & Ez);
    split;
    [ eapply scratch_only_trans; [exact Hsc|];
      split; [split; cbn; auto; apply length_insert | cbn; auto]
    | intros j Hj; destruct (decide (j = k)) as [->|Hne];
      [ exists om, zh; split; [exists lam, dt; rewrite <- El, <- Ed, <- Eo, <- Ez; auto|];
        cbn; rewrite !at_insert_eq by assumption; auto
      | destruct (Hlow j ltac:(lia)) as (om' & zh' & Hc' & Ho' & Hz');
        exists om', zh'; split; [exact Hc'|];
        cbn; rewrite !at_insert_ne by lia; auto ] ])
    0%Z (0, 0, 0) s ltac:(lia)).
  rewrite Hloop in Hinv. specialize (Hinv ltac:(split; [apply scratch_only_refl | intros; lia])). cbn in Hinv. destruct Hinv as [_ Hinv].
  intros k Hk. apply Hinv. lia.
Qed.


Lemma update_concentrations_Ok n s s3 :
  update_concentrations n s = Ok tt s3 ->
  forall k, (0 <= k < Params.getNumPrecursors (params s))%Z ->
    exists pn om zh,
      at_ (power s) n = Good pn /\ at_ (omega s) k = Good om /\
      at_ (zeta_hat s) k = Good zh /\
      at2 (concentrations s3) k n = Good (pn * om + zh).
Proof.
  unfold update_concentrations. intros H.
  apply bind_Ok in H as (s0 & t0 & [= <- <-] & Hloop).
  pose proof (post_for_range
    (fun k (_ : unit) t =>
       power t = power s /\ omega t = omega s /\ zeta_hat t = zeta_hat s /\
       forall j, (0 <= j < k)%Z ->
         exists pn om zh,
           at_ (power s) n = Good pn /\ at_ (omega s) j = Good om /\
           at_ (zeta_hat s) j = Good zh /\
           at2 (concentrations t) j n = Good (pn * om + zh))
    (fun _ _ => True)
    (fun k (_ : unit) =>
       s ← get; pn ← lift (at_ (power s) n); om ← lift (at_ (omega s) k);
       zh ← lift (at_ (zeta_hat s) k); set_concentration k n (pn * om + zh))
    0 (Params.getNumPrecursors (params s))) as Hinv.
  specialize (Hinv ltac:(
    intros k [] t Hk (Hp & Ho & Hz & Hlow); cbn beta;
    match goal with |- post ?o _ _ => destruct o as [[] t'|] eqn:Hb; cbn; [|exact I] end;
    apply bind_Ok in Hb as (s0 & t0 & [= <- <-] & Hb);
    apply bind_Ok in Hb as (pn & t1 & Hpn & Hb); apply lift_Ok in Hpn as [Hpn ->];
    apply bind_Ok in Hb as (om & t1 & Hom & Hb); apply lift_Ok in Hom as [Hom ->];
    apply bind_Ok in Hb as (zh & t1 & Hzh & Hb); apply lift_Ok in Hzh as [Hzh ->];
    rewrite set_concentration_unfold in Hb;
    destruct (store2 (concentrations t) k n (pn * om + zh)) as [m'|] eqn:Hm; [|discriminate];
    injection Hb as <-; cbn;
    repeat (split; [assumption|]);
    intros j Hj; destruct (decide (j = k)) as [->|Hne];
    [ exists pn, om, zh; rewrite <- Hp, <- Ho, <- Hz;
      repeat (split; [assumption|]); eapply store2_at2_eq; eauto
    | destruct (Hlow j ltac:(lia)) as (pn' & om' & zh' & ? & ? & ? & Hc);
      exists pn', om', zh'; repeat (split; [assumption|]);
      rewrite (store2_at2_ne _ _ _ _ _ j n Hm) by (left; exact Hne); exact Hc ])
    0%Z tt s ltac:(lia)).
  rewrite Hloop in Hinv.
  specialize (Hinv ltac:(repeat (split; [reflexivity|]); intros; lia)).
  cbn in Hinv. destruct Hinv as (_ & _ & _ & Hinv).
  intros k Hk. apply Hinv. lia.
Qed.

Lemma update_concentrations_law p h s out s' n k :
  Solver_new p h = Ok tt s -> solve X s = Ok out s' ->
  (Precomp.getNumTimeSteps h <= n < Params.getNumTimeSteps p)%Z ->
  (0 <= k < Params.getNumPrecursors p)%Z ->
  exists gamma lam dt om zh pn,
    computeGamma s' n = Good gamma /\
    Params.getDecayConstant p k n = Good lam /\ computeDT s' n = Good dt /\
    computeOmega X s' k n (1 / E X lam dt) gamma = Good om /\
    computeZetaHat X s' k n (1 / E X lam dt) gamma = Good zh /\
    at_ (out_power out) n = Good pn /\
    at2 (out_concentrations out) k n = Good (pn * om + zh).
Proof.
  intros Hnew Hrun Hn Hk.
  destruct (run_at p h s out s' n Hnew Hrun Hn)
    as (-> & Hpos & Hsh & s_n & s_m & Hps & Hstep & Hrest).
  apply rate_step_Ok in Hstep as (gamma & alpha & Hg & _ & Hupd).
  pose proof (solve_update_frame X n alpha gamma s_n) as Hfu. rewrite Hupd in Hfu. cbn in Hfu.
  apply solve_update_Ok in Hupd as (pn & s1 & s3 & Hpw & Hconc & Hnr & Hrho).
  apply computePower_scratch in Hpw as [Hsc Hco].
  destruct (Hco k) as (om & zh & (lam & dt & Hl & Hd & Ho & Hz) & Hom & Hzh);
    [rewrite Hps; exact Hk|].
  assert (params s1 = p) as Hps1 by (destruct Hsc as [[E1] _]; congruence).
  destruct (update_concentrations_Ok n _ s3 Hconc k) as (pn' & om' & zh' & Hpn' & Hom' & Hzh' & Hc);
    [cbn; rewrite Hps1; exact Hk|].
  cbn in Hpn', Hom', Hzh'. rewrite at_insert_eq in Hpn' by exact Hnr.
  rewrite Hom in Hom'. rewrite Hzh in Hzh'.
  injection Hpn' as <-. injection Hom' as <-. injection Hzh' as <-.
  apply update_rho_Ok in Hrho as (a1 & b1 & pn3 & _ & Hpn3 & _ & Hpw3 & Hc3 & _).
  pose proof (update_concentrations_power n (with_power (<[Z.to_nat n := pn]> (power s1)) s1)) as Hp3.
  rewrite Hconc in Hp3. cbn in Hp3.
  assert (params s' = p) as Hps' by (destruct Hsh; assumption).
  assert (agree_below p n s_n s') as Hag.
  { apply (unchanged_agree p n (Params.getNumTimeSteps p)); [exact Hps|].
    eapply unchanged_trans; (eapply unchanged_mono; [eassumption | lia..]). }
  destruct Hrest as [_ Hrest].
  exists gamma, lam, dt, om, zh, pn. cbn [out_power out_concentrations solve_output].
  split; [|split; [|split; [|split; [|split; [|split]]]]].
  - rewrite <- Hg. unfold computeGamma, computeDT. rewrite Hps', Hps. reflexivity.
  - rewrite <- Hps. exact Hl.
  - rewrite <- Hd. unfold computeDT. rewrite Hps', Hps. reflexivity.
  - rewrite <- Ho. symmetry. eapply (computeOmega_agree X p); [exact Hag | lia..].
  - rewrite <- Hz. symmetry. eapply (computeZetaHat_agree X p); [exact Hag | lia.. | exact Hk].
  - rewrite (same_power _ _ _ (Hrest n ltac:(lia))), Hpw3, Hp3.
    apply at_insert_eq. exact Hnr.
  - rewrite (same_conc _ _ _ (Hrest n ltac:(lia))), Hc3. exact Hc.
Qed.

End Final.

(** * The coefficients of a completed run *)

Section Coefficients.
Context (X : Externals).
Local Open Scope float_scope.

Lemma computePower_Ok_root n alpha gamma s pn s1 :
  computePower X n alpha gamma s = Ok pn s1 ->
  exists a b c, computePower_quadratic X n alpha gamma s = Ok (a, b, c) s1 /\
    select_root a b c = Good pn.
Proof.
  rewrite computePower_select.
  destruct (computePower_quadratic X n alpha gamma s) as [[[a b] c] t|]; [|discriminate].
  intros H. apply lift_Ok in H as [H ->]. eauto.
Qed.

Lemma select_root_Good a b c v :
  select_root a b c = Good v ->
  ((a <? 0) = true /\ v = (- b - sqrt (b * b - 4 * a * c)) / (2 * a)) \/
  ((a =? 0) = true /\ v = - c / b).
Proof.
  unfold select_root. destruct (a <? 0) eqn:E1.
  - intros [= <-]. auto.
  - destruct (a =? 0) eqn:E2; [|discriminate]. intros [= <-]. auto.
Qed.

Lemma solve_Ok_roots p h s out s' n :
  Solver_new p h = Ok tt s -> solve X s = Ok out s' ->
  (Precomp.getNumTimeSteps h <= n < Params.getNumTimeSteps p)%Z ->
  exists a b c t,
    quadratic_at X s n = Ok (a, b, c) t /\
    positive_at X s n = false /\ is_nan a = false /\
    (((a <? 0) = true /\
      at_ (out_power out) n = Good ((- b - sqrt (b * b - 4 * a * c)) / (2 * a))) \/
     ((a =? 0) = true /\ at_ (out_power out) n = Good (- c / b))).
Proof.
  intros Hnew Hrun Hn.
  destruct (Solver_new_members p h s Hnew) as (Hps & Hhs & _).
  destruct (solve_Ok X s out s' Hrun) as [-> [a_end Hloop]].
  rewrite Hps, Hhs in Hloop.
  destruct (for_range_Ok _ _ _ _ _ _ _ n Hloop Hn)
    as (alpha_n & s_n & alpha_m & s_m & Hpre & Hstep & Hsuf).
  pose proof (solve_loop_frame X (n + 1) (Params.getNumTimeSteps p) alpha_m s_m) as [_ Hf].
  rewrite Hsuf in Hf. cbn in Hf.
  (* the step, call by call *)
  pose proof Hstep as Hstep0. unfold solve_step in Hstep.
  apply bind_Ok in Hstep as (s0 & t0 & [= <- <-] & Hstep).
  apply bind_Ok in Hstep as (gamma & t1 & Hg & Hstep).
  destruct (lift_Ok _ _ _ _ Hg) as [Hg' ->].
  apply bind_Ok in Hstep as (alpha & t2 & Ha & Hstep).
  assert (t2 = s_n) as -> by (pose proof (solve_alpha_state X n alpha_n s_n) as E;
                              rewrite Ha in E; exact E).
  apply bind_Ok in Hstep as ([] & t3 & Hupd & Hret). injection Hret as E1 E2. subst t3 alpha_m.
  destruct (solve_update_power X n alpha gamma s_n s_m Hupd) as (pn & s1 & Hpw & Hat).
  destruct (computePower_Ok_root n alpha gamma s_n pn s1 Hpw) as (a & b & c & Hq & Hroot).
  assert (quadratic_at X s n = Ok (a, b, c) s1) as Hqa.
  { unfold quadratic_at. rewrite bind_unfold, Hhs, Hpre.
    unfold solve_step_quadratic. rewrite bind_unfold. cbn [get].
    rewrite bind_unfold, Hg. rewrite bind_unfold, Ha. exact Hq. }
  exists a, b, c, s1. split; [exact Hqa|].
  assert ((0 <? a) = false /\ is_nan a = false) as [Hpos Hnan].
  { destruct (0 <? a) eqn:E1, (is_nan a) eqn:E2; auto; exfalso;
      (assert ((0 <? a) = true \/ is_nan a = true) as Hc by auto;
       apply not_root_cases in Hc as [Hc1 Hc2];
       unfold select_root in Hroot; rewrite Hc1, Hc2 in Hroot; discriminate). }
  split; [|split; [exact Hnan|]].
  - unfold positive_at. rewrite Hqa, Hpos. apply andb_false_r.
  - cbn [out_power solve_output].
    rewrite (same_power _ _ _ (Hf n ltac:(lia))), Hat.
    destruct (select_root_Good a b c pn Hroot) as [[E ->]|[E ->]]; auto.
Qed.

End Coefficients.

(** * The list of fine solvers *)

Section Children.
Context (X : Externals) (fs : list ptr).

Local Abbreviation but_fine_solvers := (fun (fs : list ptr) (s1 s2 : Solver) => s2 = with_fine_solvers fs s1).

Ltac rel_read := apply both_bind_lift; [reflexivity | intros ?].

Lemma fine_set_power n x s :
  both (set_power n x s) (set_power n x (with_fine_solvers fs s)) (fun _ => but_fine_solvers fs).
Proof.
  rewrite !set_power_unfold. cbn [power with_fine_solvers].
  destruct (store (power s) n x); cbn; auto.
Qed.

Lemma fine_set_rho n x s :
  both (set_rho n x s) (set_rho n x (with_fine_solvers fs s)) (fun _ => but_fine_solvers fs).
Proof.
  rewrite !set_rho_unfold. cbn [rho with_fine_solvers].
  destruct (store (rho s) n x); cbn; auto.
Qed.

Lemma fine_set_omega n x s :
  both (set_omega n x s) (set_omega n x (with_fine_solvers fs s)) (fun _ => but_fine_solvers fs).
Proof.
  rewrite !set_omega_unfold. cbn [omega with_fine_solvers].
  destruct (store (omega s) n x); cbn; auto.
Qed.

Lemma fine_set_zeta_hat n x s :
  both (set_zeta_hat n x s) (set_zeta_hat n x (with_fine_solvers fs s))
       (fun _ => but_fine_solvers fs).
Proof.
  rewrite !set_zeta_hat_unfold. cbn [zeta_hat with_fine_solvers].
  destruct (store (zeta_hat s) n x); cbn; auto.
Qed.

Lemma fine_set_concentration k n x s :
  both (set_concentration k n x s) (set_concentration k n x (with_fine_solvers fs s))
       (fun _ => but_fine_solvers fs).
Proof.
  rewrite !set_concentration_unfold. cbn [concentrations with_fine_solvers].
  destruct (store2 (concentrations s) k n x); cbn; auto.
Qed.

Lemma fine_computePower_group n gamma k acc s :
  both (computePower_group X n gamma k acc s)
       (computePower_group X n gamma k acc (with_fine_solvers fs s))
       (fun _ => but_fine_solvers fs).
Proof.
  destruct acc as [[tau s_hat_d] s_d_prev]. unfold computePower_group.
  apply both_bind_get. cbn beta. do 3 rel_read.
  eapply both_bind; [apply fine_set_omega | cbn beta]. intros _ t1 t2 ->.
  apply both_bind_get. cbn beta. rel_read.
  eapply both_bind; [apply fine_set_zeta_hat | cbn beta]. intros _ u1 u2 ->.
  apply both_bind_get. cbn beta. do 6 rel_read.
  apply both_ret. reflexivity.
Qed.

Lemma fine_computePower n alpha gamma s :
  both (computePower X n alpha gamma s) (computePower X n alpha gamma (with_fine_solvers fs s))
       (fun _ => but_fine_solvers fs).
Proof.
  unfold computePower. apply both_bind_get. cbn beta.
  eapply both_bind.
  - apply (both_for_range (fun _ _ => but_fine_solvers fs)
             (computePower_group X n gamma) (computePower_group X n gamma) 0);
      [|lia|reflexivity].
    intros k acc t1 t2 _ ->. apply fine_computePower_group.
  - cbn beta. intros [[tau s_hat_d] s_d_prev] t1 t2 ->.
    apply both_bind_get. cbn beta. rel_read.
    apply both_lift; [reflexivity | intros; reflexivity].
Qed.

Lemma fine_solve_step n alpha s :
  both (solve_step X n alpha s) (solve_step X n alpha (with_fine_solvers fs s))
       (fun _ => but_fine_solvers fs).
Proof.
  unfold solve_step. apply both_bind_get. cbn beta. rel_read.
  eapply both_bind.
  - rewrite !solve_alpha_lift.
    apply both_lift with (Q := fun _ => but_fine_solvers fs); [reflexivity | intros; reflexivity].
  - cbn beta. intros al t1 t2 ->. unfold solve_update.
    apply both_bind with (Q' := fun _ => but_fine_solvers fs);
      [|intros [] ? ? ->; apply both_ret; reflexivity].
    eapply both_bind; [apply fine_computePower | cbn beta]. intros pw u1 u2 ->.
    eapply both_bind; [apply fine_set_power | cbn beta]. intros _ v1 v2 ->.
    eapply both_bind.
    + unfold update_concentrations. apply both_bind_get. cbn beta.
      apply (both_for_range (fun _ (_ : unit) => but_fine_solvers fs) _ _ 0);
        [|lia|reflexivity].
      intros k [] w1 w2 _ ->. cbn beta. apply both_bind_get. cbn beta. do 3 rel_read.
      apply fine_set_concentration.
    + cbn beta. intros _ w1 w2 ->. unfold update_rho.
      apply both_bind_get. cbn beta. do 2 rel_read. apply fine_set_rho.
Qed.

Lemma fine_solve s :
  both (solve X s) (solve X (with_fine_solvers fs s))
       (fun _ s1 s2 => s2 = with_fine_solvers fs s1).
Proof.
  unfold solve. apply both_bind_get. cbn beta. cbn [precomp params with_fine_solvers].
  eapply both_bind.
  - apply (both_for_range (fun _ _ => but_fine_solvers fs) (solve_step X) (solve_step X)
             (Precomp.getNumTimeSteps (precomp s))); [|lia|reflexivity].
    intros n a t1 t2 _ ->. apply fine_solve_step.
  - cbn beta. intros a t1 t2 ->. apply both_bind_get. cbn beta.
    apply both_ret. reflexivity.
Qed.

End Children.

Section Registering.
Context (X : Externals).

Lemma createFineSolver_Ok this fine_time coarse_index sigma c sigma' :
  createFineSolver X this fine_time coarse_index sigma = Ok c sigma' ->
  exists me child,
    sigma !! this = Some me /\
    Solver_new (interpolate X (params me) fine_time)
               (createPrecomputed X (precomp me) coarse_index) = Ok tt child /\
    c = length sigma /\
    sigma' = <[this := with_fine_solvers (_fine_solvers me ++ [length sigma]) me]>
               (sigma ++ [child]).
Proof.
  unfold createFineSolver. destruct (sigma !! this) as [me|] eqn:Hme; [|discriminate].
  destruct (Solver_new _ _) as [[] child|] eqn:Hnew; [|discriminate].
  intros [= <- <-]. eauto 10.
Qed.

Lemma createFineSolver_parent this fine_time coarse_index sigma c sigma' me :
  sigma !! this = Some me ->
  createFineSolver X this fine_time coarse_index sigma = Ok c sigma' ->
  exists me',
    sigma' !! this = Some me' /\
    _fine_solvers me' = _fine_solvers me ++ [c] /\
    assembleGlobalOutput me' = assembleGlobalOutput me /\
    (forall out s, solve X me = Ok out s ->
       exists s', solve X me' = Ok out s' /\ _fine_solvers s' = _fine_solvers me ++ [c]) /\
    (forall f s, solve X me = Fail f s -> exists s', solve X me' = Fail f s').
Proof.
  intros Hme Hrun.
  apply createFineSolver_Ok in Hrun as (me0 & child & Hme0 & Hnew & -> & ->).
  rewrite Hme in Hme0. injection Hme0 as <-.
  pose proof (lookup_lt_Some _ _ _ Hme) as Hlt.
  eexists. split; [apply list_lookup_insert_eq; rewrite length_app; lia|].
  split; [reflexivity|]. split; [reflexivity|].
  pose proof (fine_solve X (_fine_solvers me ++ [length sigma]) me) as Hb.
  destruct (solve X me) as [out s|f s], (solve X (with_fine_solvers _ me)) as [out' s'|f' s'];
    cbn in Hb; try contradiction.
  - destruct Hb as [<- ->]. split; [|discriminate].
    intros ? ? [= <- <-]. eauto.
  - subst f'. split; [discriminate|]. intros ? ? [= <- <-]. eauto.
Qed.

Lemma createFineSolver_again this ft1 ci1 ft2 ci2 sigma c1 sigma1 c2 sigma2 me :
  sigma !! this = Some me ->
  createFineSolver X this ft1 ci1 sigma = Ok c1 sigma1 ->
  createFineSolver X this ft2 ci2 sigma1 = Ok c2 sigma2 ->
  c1 = length sigma /\ c2 = S (length sigma) /\ length sigma2 = S (S (length sigma)) /\
  sigma2 !! c1 = sigma1 !! c1 /\
  (exists child2,
     sigma2 !! c2 = Some child2 /\
     Solver_new (interpolate X (params me) ft2) (createPrecomputed X (precomp me) ci2)
     = Ok tt child2) /\
  (exists me2,
     sigma2 !! this = Some me2 /\ _fine_solvers me2 = _fine_solvers me ++ [c1; c2] /\
     with_fine_solvers (_fine_solvers me) me2 = me) /\
  (forall q, q <> this -> (q < length sigma)%nat -> sigma2 !! q = sigma !! q).
Proof.
  intros Hme H1 H2.
  apply createFineSolver_Ok in H1 as (me0 & child1 & Hme0 & Hnew1 & -> & ->).
  rewrite Hme in Hme0. injection Hme0 as <-.
  pose proof (lookup_lt_Some _ _ _ Hme) as Hlt.
  apply createFineSolver_Ok in H2 as (me1 & child2 & Hme1 & Hnew2 & -> & ->).
  rewrite list_lookup_insert_eq in Hme1 by (rewrite length_app; lia).
  injection Hme1 as <-. cbn [params precomp with_fine_solvers _fine_solvers] in *.
  repeat (rewrite length_insert || rewrite length_app). cbn [length].
  split; [reflexivity|]. split; [lia|]. split; [lia|]. split; [|split; [|split]].
  - rewrite list_lookup_insert_ne by lia.
    rewrite lookup_app_l by (rewrite length_insert, length_app; cbn; lia). reflexivity.
  - exists child2. split; [|exact Hnew2].
    rewrite list_lookup_insert_ne by lia.
    replace (length sigma + 1)%nat with (length (<[this:=with_fine_solvers (_fine_solvers me ++ [length sigma]) me]> (sigma ++ [child1])) + 0)%nat
      by (rewrite length_insert, length_app; cbn; lia).
    rewrite lookup_app_r by lia.
    replace (_ + 0 - _)%nat with 0%nat by lia. reflexivity.
  - eexists. split; [apply list_lookup_insert_eq; rewrite length_app, length_insert, length_app; cbn; lia|].
    cbn. rewrite <- app_assoc. split; [do 3 f_equal; lia|]. destruct me; reflexivity.
  - intros q Hq Hql. rewrite !list_lookup_insert_ne by auto.
    rewrite lookup_app_l by (rewrite length_insert, length_app; cbn; lia).
    rewrite list_lookup_insert_ne by auto. apply lookup_app_l. exact Hql.
Qed.

End Registering.

(** * The run on a shorter grid *)

Section Take.
Context {A : Type}.

Lemma at_take (v : list A) (m : nat) i : i < Z.of_nat m -> at_ (take m v) i = at_ v i.
Proof.
  intros Hi. unfold at_. destruct (Z.ltb_spec i 0); [reflexivity|].
  rewrite lookup_take_lt by lia. reflexivity.
Qed.

Lemma at2_take (c : list (list A)) (m : nat) k i :
  i < Z.of_nat m -> at2 (take m <$> c) k i = at2 c k i.
Proof.
  intros Hi. unfold at2.
  assert (at_ (take m <$> c) k = match at_ c k with Good row => Good (take m row)
                                                   | Bad f => Bad f end) as ->.
  { unfold at_. destruct (k <? 0); [reflexivity|].
    rewrite list_lookup_fmap. destruct (c !! Z.to_nat k); reflexivity. }
  destruct (at_ c k) as [row|]; cbn; [|reflexivity].
  apply at_take, Hi.
Qed.

Lemma store_take (v : list A) (m : nat) i x :
  i < Z.of_nat m ->
  store (take m v) i x = match store v i x with Good w => Good (take m w) | Bad f => Bad f end.
Proof.
  intros Hi. unfold store, in_range. rewrite length_take.
  destruct (0 <=? i) eqn:E1; cbn; [|reflexivity]. apply Z.leb_le in E1.
  destruct (Z.ltb_spec i (Z.of_nat (length v))) as [E2|E2].
  - destruct (Z.ltb_spec i (Z.of_nat (m `min` length v))); [|lia].
    rewrite take_insert_lt by lia. reflexivity.
  - destruct (Z.ltb_spec i (Z.of_nat (m `min` length v))); [lia | reflexivity].
Qed.

Lemma store2_take (c : list (list A)) (m : nat) k i x :
  i < Z.of_nat m ->
  store2 (take m <$> c) k i x
  = match store2 c k i x with Good w => Good (take m <$> w) | Bad f => Bad f end.
Proof.
  intros Hi. unfold store2, in_range. rewrite length_fmap.
  destruct ((0 <=? k) && (k <? Z.of_nat (length c))); [|reflexivity].
  rewrite list_lookup_fmap. destruct (c !! Z.to_nat k) as [row|]; cbn; [|reflexivity].
  rewrite (store_take row m i x Hi). destruct (store row i x) as [w|]; cbn; [|reflexivity].
  rewrite list_fmap_insert. reflexivity.
Qed.

End Take.

Section Truncated.
Context (X : Externals) (m : nat).

Local Abbreviation cut := (fun (s1 s2 : Solver) => s2 = truncate m s1).

Ltac cut_params :=
  unfold Params.getTime, Params.getGenTime, Params.getPowNorm, Params.getRhoImp,
    Params.getBetaEff, Params.getLambdaH, Params.getDecayConstant,
    Params.getDelayedFraction, Params.getTheta, Params.getGammaD, Params.getEta;
  cbn [params power rho concentrations truncate truncate_parameters time gen_time pow_norm
       rho_imp beta_eff lambda_h decay_constant delayed_fraction theta gamma_d eta];
  rewrite ?at_take, ?at2_take by lia; reflexivity.

Section CutReads.
Context (s : Solver) (n : Z) (Hn : n < Z.of_nat m).

Lemma computeDT_cut i : i <= n -> computeDT (truncate m s) i = computeDT s i.
Proof. intros Hi. unfold computeDT. cut_params. Qed.

Lemma computeGamma_cut : computeGamma (truncate m s) n = computeGamma s n.
Proof. unfold computeGamma. rewrite !computeDT_cut by lia. reflexivity. Qed.

Lemma extrapolation_rate_cut : extrapolation_rate X (truncate m s) n = extrapolation_rate X s n.
Proof. unfold extrapolation_rate. rewrite !computeDT_cut by lia. cut_params. Qed.

Lemma getDecayConstant_cut k i :
  i <= n ->
  Params.getDecayConstant (params (truncate m s)) k i = Params.getDecayConstant (params s) k i.
Proof. intros Hi. cut_params. Qed.

Lemma computeOmega_cut k w gamma :
  0 <= n -> computeOmega X (truncate m s) k n w gamma = computeOmega X s k n w gamma.
Proof. intros H0. unfold computeOmega. rewrite !computeDT_cut by lia. cut_params. Qed.

Lemma computeZetaHat_cut k w gamma :
  0 <= n -> computeZetaHat X (truncate m s) k n w gamma = computeZetaHat X s k n w gamma.
Proof. intros H0. unfold computeZetaHat. rewrite !computeDT_cut by lia. cut_params. Qed.

Lemma computeA1B1_cut gamma :
  0 <= n -> computeA1B1 X (truncate m s) n gamma = computeA1B1 X s n gamma.
Proof. intros H0. unfold computeA1B1. rewrite !computeDT_cut by lia. cut_params. Qed.

Lemma computeABC_cut alpha a1b1 tau s_hat_d s_d_prev :
  0 <= n ->
  computeABC X (truncate m s) n alpha a1b1 tau s_hat_d s_d_prev
  = computeABC X s n alpha a1b1 tau s_hat_d s_d_prev.
Proof. intros H0. unfold computeABC, quadratic. rewrite !computeDT_cut by lia. cut_params. Qed.

End CutReads.


Lemma cut_set_power n x s :
  n < Z.of_nat m -> both (set_power n x s) (set_power n x (truncate m s)) (fun _ => cut).
Proof.
  intros Hn. rewrite !set_power_unfold. cbn [power truncate].
  rewrite (store_take _ m n x Hn). destruct (store (power s) n x); cbn; auto.
Qed.

Lemma cut_set_rho n x s :
  n < Z.of_nat m -> both (set_rho n x s) (set_rho n x (truncate m s)) (fun _ => cut).
Proof.
  intros Hn. rewrite !set_rho_unfold. cbn [rho truncate].
  rewrite (store_take _ m n x Hn). destruct (store (rho s) n x); cbn; auto.
Qed.

Lemma cut_set_concentration k n x s :
  n < Z.of_nat m ->
  both (set_concentration k n x s) (set_concentration k n x (truncate m s)) (fun _ => cut).
Proof.
  intros Hn. rewrite !set_concentration_unfold. cbn [concentrations truncate].
  rewrite (store2_take _ m k n x Hn). destruct (store2 (concentrations s) k n x); cbn; auto.
Qed.

Lemma cut_set_omega k x s :
  both (set_omega k x s) (set_omega k x (truncate m s)) (fun _ => cut).
Proof.
  rewrite !set_omega_unfold. cbn [omega truncate].
  destruct (store (omega s) k x); cbn; auto.
Qed.

Lemma cut_set_zeta_hat k x s :
  both (set_zeta_hat k x s) (set_zeta_hat k x (truncate m s)) (fun _ => cut).
Proof.
  rewrite !set_zeta_hat_unfold. cbn [zeta_hat truncate].
  destruct (store (zeta_hat s) k x); cbn; auto.
Qed.

Ltac cut_read lem := apply both_bind_lift; [symmetry; lem | intros ?].

Lemma cut_computePower_group n gamma k acc s :
  0 <= n < Z.of_nat m ->
  both (computePower_group X n gamma k acc s)
       (computePower_group X n gamma k acc (truncate m s)) (fun _ => cut).
Proof.
  intros Hn. destruct acc as [[tau s_hat_d] s_d_prev]. unfold computePower_group.
  apply both_bind_get. cbn beta.
  cut_read ltac:(apply (getDecayConstant_cut s n); lia).
  cut_read ltac:(apply (computeDT_cut s n); lia).
  cut_read ltac:(apply (computeOmega_cut s n); lia).
  eapply both_bind; [apply cut_set_omega | cbn beta]. intros _ t1 t2 ->.
  apply both_bind_get. cbn beta.
  cut_read ltac:(apply (computeZetaHat_cut t1 n); lia).
  eapply both_bind; [apply cut_set_zeta_hat | cbn beta]. intros _ u1 u2 ->.
  apply both_bind_get. cbn beta.
  cut_read ltac:(apply (getDecayConstant_cut u1 n); lia).
  cut_read ltac:(reflexivity).
  cut_read ltac:(apply (getDecayConstant_cut u1 n); lia).
  cut_read ltac:(reflexivity).
  cut_read ltac:(apply (getDecayConstant_cut u1 n); lia).
  cut_read ltac:(cbn [concentrations truncate]; apply at2_take; lia).
  apply both_ret. reflexivity.
Qed.

Lemma cut_computePower n alpha gamma s :
  0 <= n < Z.of_nat m ->
  both (computePower X n alpha gamma s) (computePower X n alpha gamma (truncate m s))
       (fun _ => cut).
Proof.
  intros Hn. unfold computePower. apply both_bind_get. cbn beta.
  eapply both_bind.
  - replace (Params.getNumPrecursors (params (truncate m s)))
      with (Params.getNumPrecursors (params s))
      by (unfold Params.getNumPrecursors; cbn; rewrite length_fmap; reflexivity).
    apply (both_for_range (fun _ _ => cut)
             (computePower_group X n gamma) (computePower_group X n gamma) 0);
      [|lia|reflexivity].
    intros k acc t1 t2 _ ->. apply cut_computePower_group, Hn.
  - cbn beta. intros [[tau s_hat_d] s_d_prev] t1 t2 ->.
    apply both_bind_get. cbn beta.
    cut_read ltac:(apply (computeA1B1_cut t1 n); lia).
    apply both_lift; [symmetry; apply (computeABC_cut t1 n); lia | intros; reflexivity].
Qed.

Lemma cut_solve_step n alpha s :
  0 <= n < Z.of_nat m ->
  both (solve_step X n alpha s) (solve_step X n alpha (truncate m s)) (fun _ => cut).
Proof.
  intros Hn. unfold solve_step. apply both_bind_get. cbn beta.
  cut_read ltac:(apply (computeGamma_cut s n); lia).
  eapply both_bind.
  - rewrite !solve_alpha_lift.
    apply both_lift with (Q := fun _ => cut); [|intros; reflexivity].
    rewrite (extrapolation_rate_cut s n) by lia. reflexivity.
  - cbn beta. intros al t1 t2 ->. unfold solve_update.
    apply both_bind with (Q' := fun _ => cut);
      [|intros [] ? ? ->; apply both_ret; reflexivity].
    eapply both_bind; [apply cut_computePower, Hn | cbn beta]. intros pw u1 u2 ->.
    eapply both_bind; [apply cut_set_power; lia | cbn beta]. intros _ v1 v2 ->.
    eapply both_bind.
    + unfold update_concentrations. apply both_bind_get. cbn beta.
      replace (Params.getNumPrecursors (params (truncate m v1)))
        with (Params.getNumPrecursors (params v1))
        by (unfold Params.getNumPrecursors; cbn; rewrite length_fmap; reflexivity).
      apply (both_for_range (fun _ (_ : unit) => cut) _ _ 0);
        [|lia|reflexivity].
      intros k [] w1 w2 _ ->. cbn beta. apply both_bind_get. cbn beta.
      cut_read ltac:(cbn [power truncate]; apply at_take; lia).
      cut_read ltac:(reflexivity).
      cut_read ltac:(reflexivity).
      apply cut_set_concentration. lia.
    + cbn beta. intros _ w1 w2 ->. unfold update_rho.
      apply both_bind_get. cbn beta.
      cut_read ltac:(apply (computeA1B1_cut w1 n); lia).
      cut_read ltac:(cbn [power truncate]; apply at_take; lia).
      apply cut_set_rho. lia.
Qed.

(** The steps below [m] on the solver and on the solver cut after [m]
    points. *)
Lemma cut_solve_loop lo hi alpha s :
  0 <= lo -> hi <= Z.of_nat m ->
  both (for_range lo hi (solve_step X) alpha s)
       (for_range lo hi (solve_step X) alpha (truncate m s)) (fun _ => cut).
Proof.
  intros Hlo Hhi.
  eapply both_mono;
    [apply (both_for_range (fun _ _ => cut) (solve_step X) (solve_step X) lo);
       [|lia|reflexivity] | auto].
  intros n a t1 t2 Hn ->. apply cut_solve_step. lia.
Qed.

End Truncated.

Section Causality.
Context (X : Externals).

Lemma truncate_init (m : nat) p h :
  Solver_init (truncate_parameters m p) h = truncate m (Solver_init p h).
Proof.
  unfold Solver_init, truncate, Params.getNumTimeSteps, Params.getNumPrecursors.
  cbn [params precomp power rho omega zeta_hat concentrations _fine_solvers
       truncate_parameters time decay_constant].
  rewrite !Nat2Z.id, length_fmap, length_take, fmap_replicate, !take_replicate.
  reflexivity.
Qed.

Lemma cut_Solver_body (m : nat) s :
  Precomp.getNumTimeSteps (precomp s) <= Z.of_nat m ->
  both (Solver_body s) (Solver_body (truncate m s)) (fun _ s1 s2 => s2 = truncate m s1).
Proof.
  intros HL. unfold Solver_body. apply both_bind_get. cbn beta.
  replace (Params.getNumPrecursors (params (truncate m s)))
    with (Params.getNumPrecursors (params s))
    by (unfold Params.getNumPrecursors; cbn; rewrite length_fmap; reflexivity).
  cbn [precomp truncate].
  eapply both_bind.
  - apply (both_for_range (fun _ (_ : unit) s1 s2 => s2 = truncate m s1) _ _ 0);
      [|lia|reflexivity].
    intros k [] t1 t2 _ ->. cbn beta.
    apply (both_for_range (fun _ (_ : unit) s1 s2 => s2 = truncate m s1) _ _ 0);
      [|lia|reflexivity].
    intros n [] u1 u2 Hn ->. cbn beta.
    apply both_bind_lift; [reflexivity | intros x].
    apply cut_set_concentration. lia.
  - cbn beta. intros _ t1 t2 ->.
    apply (both_for_range (fun _ (_ : unit) s1 s2 => s2 = truncate m s1) _ _ 0);
      [|lia|reflexivity].
    intros n [] u1 u2 Hn ->. cbn beta.
    apply both_bind_lift; [reflexivity | intros x].
    eapply both_bind; [apply cut_set_power; lia | cbn beta]. intros _ v1 v2 ->.
    apply both_bind_lift; [reflexivity | intros y].
    apply cut_set_rho. lia.
Qed.

Lemma take_unchanged {A} (v v' : list A) (m : nat) :
  (forall i, i < Z.of_nat m -> at_ v' i = at_ v i) -> take m v' = take m v.
Proof.
  intros H. apply at_ext. intros i.
  destruct (Z_lt_le_dec i (Z.of_nat m)).
  - rewrite !at_take by lia. apply H. lia.
  - rewrite !at_beyond; [reflexivity | rewrite length_take; lia..].
Qed.

Lemma take_rows_unchanged {A} (c c' : list (list A)) (m : nat) :
  length c' = length c ->
  (forall k i, i < Z.of_nat m -> at2 c' k i = at2 c k i) ->
  take m <$> c' = take m <$> c.
Proof.
  intros Hlen H. apply at2_ext; [rewrite !length_fmap; exact Hlen|].
  intros k i Hk. rewrite length_fmap in Hk.
  destruct (Z_lt_le_dec i (Z.of_nat m)).
  - rewrite !at2_take by lia. apply H. lia.
  - destruct (at_ok c' k Hk) as [row' E'].
    destruct (at_ok c k ltac:(lia)) as [row E].
    unfold at2.
    assert (forall d : list (list A), at_ (take m <$> d) k
            = match at_ d k with Good r => Good (take m r) | Bad f => Bad f end) as Hd.
    { intros d. unfold at_. destruct (k <? 0); [reflexivity|].
      rewrite list_lookup_fmap. destruct (d !! Z.to_nat k); reflexivity. }
    rewrite !Hd, E, E'. cbn.
    rewrite !at_beyond; [reflexivity | rewrite length_take; lia..].
Qed.

Lemma solve_truncated_run p h s out s' (m : nat) :
  Precomp.getNumTimeSteps h <= Z.of_nat m <= Params.getNumTimeSteps p ->
  Solver_new p h = Ok tt s -> solve X s = Ok out s' ->
  exists sm sm',
    Solver_new (truncate_parameters m p) h = Ok tt sm /\
    solve X sm = Ok (truncate_output m out) sm'.
Proof.
  intros Hm Hnew Hrun.
  destruct (Solver_new_members p h s Hnew) as (Hps & Hhs & _).
  exists (truncate m s).
  assert (Solver_new (truncate_parameters m p) h = Ok tt (truncate m s)) as Hnew'.
  { unfold Solver_new in *. rewrite truncate_init.
    pose proof (cut_Solver_body m (Solver_init p h) ltac:(apply Hm)) as Hb.
    rewrite Hnew in Hb. destruct (Solver_body (truncate m _)) as [[] t|]; [|contradiction].
    destruct Hb as [_ ->]. reflexivity. }
  destruct (solve_Ok X s out s' Hrun) as [-> [a Hloop]]. rewrite Hps, Hhs in Hloop.
  rewrite (for_range_split _ (Z.of_nat m)) in Hloop by lia.
  apply bind_Ok in Hloop as (a_m & t & Hpre & Hrest).
  pose proof (cut_solve_loop X m (Precomp.getNumTimeSteps h) (Z.of_nat m) 0%float s
                ltac:(unfold Precomp.getNumTimeSteps; lia) ltac:(lia)) as Hb.
  rewrite Hpre in Hb.
  destruct (for_range _ _ _ _ (truncate m s)) as [a' t'|] eqn:Hcut; [|contradiction].
  destruct Hb as [<- ->].
  exists (truncate m t). split; [exact Hnew'|].
  rewrite solve_unfold. cbn [precomp params truncate].
  replace (Params.getNumTimeSteps (truncate_parameters m (params s))) with (Z.of_nat m)
    by (unfold Params.getNumTimeSteps in *; cbn; rewrite length_take, Hps; lia).
  rewrite Hhs, Hcut. f_equal.
  pose proof (solve_loop_frame X (Z.of_nat m) (Params.getNumTimeSteps p) a_m t) as [_ Hf].
  rewrite Hrest in Hf. cbn in Hf.
  unfold solve_output, truncate_output. cbn. f_equal.
  - symmetry. apply take_unchanged. intros i Hi. apply (Hf i). lia.
  - symmetry. apply take_unchanged. intros i Hi. apply (Hf i). lia.
  - symmetry. apply take_rows_unchanged.
    + pose proof (solve_loop_frame X (Z.of_nat m) (Params.getNumTimeSteps p) a_m t) as [Hsh _].
      rewrite Hrest in Hsh. cbn in Hsh. apply shape_conc in Hsh.
      apply (f_equal length) in Hsh. rewrite !length_fmap in Hsh. exact Hsh.
    + intros k i Hi. apply (Hf i). lia.
Qed.

End Causality.

(** * Strings *)

Section Strings.
Local Open Scope string_scope.

Lemma append_nil_r (a : string) : a ++ "" = a.
Proof. induction a as [|c a IH]; cbn; [reflexivity | rewrite IH; reflexivity]. Qed.

Lemma append_assoc (a b c : string) : (a ++ b) ++ c = a ++ (b ++ c).
Proof. induction a as [|x a IH]; cbn; [reflexivity | rewrite IH; reflexivity]. Qed.

Lemma joined_cons (x y : string) (l : list string) :
  joined (x :: y :: l) = x ++ " " ++ joined (y :: l).
Proof. reflexivity. Qed.

Lemma streamed_start V : streamed V 0 "".
Proof. reflexivity. Qed.

Lemma streamed_end V n acc : (length V <= n)%nat -> streamed V n acc -> acc = joined V.
Proof.
  unfold streamed. intros Hn. rewrite drop_ge by lia. cbn. rewrite append_nil_r. auto.
Qed.

Lemma streamed_next V n x acc (i : Z) (N : Z) :
  i = Z.of_nat n -> N = Z.of_nat (length V) -> V !! n = Some x -> streamed V n acc ->
  streamed V (S n)
    (if bool_decide (i ≠ N - 1)%Z then (acc ++ x) ++ " " else acc ++ x).
Proof.
  unfold streamed. intros -> -> Hx H. rewrite <- H, (drop_S _ _ _ Hx).
  pose proof (lookup_lt_Some _ _ _ Hx) as Hlt.
  destruct (drop (S n) V) as [|y rest] eqn:Hd.
  - assert (length (drop (S n) V) = 0%nat) as Hl by (rewrite Hd; reflexivity).
    rewrite length_drop in Hl.
    rewrite bool_decide_false by lia. cbn. rewrite append_nil_r. reflexivity.
  - assert (length (drop (S n) V) <> 0%nat) as Hl by (rewrite Hd; discriminate).
    rewrite length_drop in Hl.
    rewrite bool_decide_true by lia. rewrite joined_cons, !append_assoc. reflexivity.
Qed.

Lemma streamed_step V x acc (i N : Z) :
  (0 <= i)%Z -> N = Z.of_nat (length V) -> V !! Z.to_nat i = Some x ->
  streamed V (Z.to_nat i) acc ->
  ((i ≠ N - 1)%Z -> streamed V (Z.to_nat (i + 1)) ((acc ++ x) ++ " ")) /\
  ((i = N - 1)%Z -> streamed V (Z.to_nat (i + 1)) (acc ++ x)).
Proof.
  intros Hi HN Hx H.
  pose proof (streamed_next V (Z.to_nat i) x acc i N ltac:(lia) HN Hx H) as Hs.
  replace (Z.to_nat (i + 1)) with (S (Z.to_nat i)) by lia.
  split; intros Hc.
  - rewrite bool_decide_true in Hs by exact Hc. exact Hs.
  - rewrite bool_decide_false in Hs by lia. exact Hs.
Qed.

End Strings.

(** * The document tree *)

Section Tree.

Lemma node_at_last nd l c path :
  children nd = l ++ [c] -> node_at (length l :: path) nd = node_at path c.
Proof. intros H. cbn. rewrite H, list_lookup_middle by reflexivity. reflexivity. Qed.

Lemma on_node_last f nd l c path :
  children nd = l ++ [c] ->
  on_node f (length l :: path) nd = with_children (l ++ [on_node f path c]) nd.
Proof.
  intros H. cbn. rewrite H.
  replace (length l) with (length l + 0)%nat at 1 by lia.
  rewrite alter_app_r. reflexivity.
Qed.

Lemma append_child_last nd l c path name :
  children nd = l ++ [c] ->
  append_child (Some (length l :: path)) name nd
  = embed (length l) l nd (append_child (Some path) name c) (below (length l)).
Proof.
  intros H. unfold append_child. rewrite (node_at_last nd l c path H).
  destruct (node_at path c) as [[| |]|]; cbn [embed below fmap option_fmap option_map];
    rewrite ?(on_node_last _ nd l c path H); try reflexivity.
  all: rewrite <- H; destruct nd; cbn in *; try reflexivity;
    destruct l; discriminate.
Qed.

Lemma append_attribute_last nd l c path name value :
  children nd = l ++ [c] ->
  append_attribute (Some (length l :: path)) name value nd
  = embed (length l) l nd (append_attribute (Some path) name value c) id.
Proof.
  intros H. unfold append_attribute. rewrite (on_node_last _ nd l c path H). reflexivity.
Qed.

Lemma set_text_last nd l c path value :
  children nd = l ++ [c] ->
  set_text (Some (length l :: path)) value nd
  = embed (length l) l nd (set_text (Some path) value c) id.
Proof.
  intros H. unfold set_text. rewrite (on_node_last _ nd l c path H). reflexivity.
Qed.

End Tree.

Section OutputRuns.
Context (format : Z -> float -> string).

Lemma at_lookup {A} (v : list A) (n : Z) x :
  0 <= n -> v !! Z.to_nat n = Some x -> at_ v n = Good x.
Proof. intros Hn H. apply at_Good. auto. Qed.

Lemma printed_power_length s :
  printable s ->
  length (zip_with PrimFloat.mul (pow_norm (params s)) (power s)) = length (time (params s)).
Proof. intros []. rewrite length_zip_with. lia. Qed.

(** The first loop: the three streams hold the joined texts. *)
Lemma buildXMLDoc_streams s doc :
  printable s ->
  for_range 0 (Params.getNumTimeSteps (params s)) (buildXMLDoc_step format s)
    (""%string, ""%string, ""%string) doc
  = Ok (joined (format 6 <$> time (params s)),
        joined (format 12 <$> zip_with PrimFloat.mul (pow_norm (params s)) (power s)),
        joined (format 12 <$> rho s)) doc.
Proof.
  intros Hs. pose proof (printed_power_length s Hs) as HP. destruct Hs as [Hf Hp Hr _ _].
  pose proof (post_for_range
       (fun n (strs : string * string * string) d =>
          d = doc /\
          streamed (format 6 <$> time (params s)) (Z.to_nat n) strs.1.1 /\
          streamed (format 12 <$> zip_with PrimFloat.mul (pow_norm (params s)) (power s))
                   (Z.to_nat n) strs.1.2 /\
          streamed (format 12 <$> rho s) (Z.to_nat n) strs.2)
       (fun _ _ => False) (buildXMLDoc_step format s) 0
       (Params.getNumTimeSteps (params s))) as Hinv.
  unfold Params.getNumTimeSteps in *.
  specialize (Hinv ltac:(
    intros n [[ts ps] rs] d Hn (-> & H1 & H2 & H3); cbn [fst snd] in *;
    destruct (lookup_lt_is_Some_2 (time (params s)) (Z.to_nat n)) as [t Et]; [lia|];
    destruct (lookup_lt_is_Some_2 (pow_norm (params s)) (Z.to_nat n)) as [f Ef]; [lia|];
    destruct (lookup_lt_is_Some_2 (power s) (Z.to_nat n)) as [p Ep]; [lia|];
    destruct (lookup_lt_is_Some_2 (rho s) (Z.to_nat n)) as [r Er]; [lia|];
    unfold buildXMLDoc_step, Params.getTime, Params.getPowNorm, Params.getNumTimeSteps;
    rewrite !bind_unfold;
    rewrite (at_lookup _ n _ ltac:(lia) Et), (at_lookup _ n _ ltac:(lia) Ef),
      (at_lookup _ n _ ltac:(lia) Ep), (at_lookup _ n _ ltac:(lia) Er);
    cbn [lift];
    destruct (streamed_step (format 6 <$> time (params s)) (format 6 t) ts n
                (Z.of_nat (length (time (params s)))) ltac:(lia)
                ltac:(rewrite length_fmap; reflexivity)
                ltac:(rewrite list_lookup_fmap, Et; reflexivity) H1) as [T1 T2];
    destruct (streamed_step
                (format 12 <$> zip_with PrimFloat.mul (pow_norm (params s)) (power s))
                (format 12 (f * p)%float) ps n
                (Z.of_nat (length (time (params s)))) ltac:(lia)
                ltac:(rewrite length_fmap, HP; reflexivity)
                ltac:(rewrite list_lookup_fmap, lookup_zip_with, Ef, Ep; reflexivity) H2)
      as [P1 P2];
    destruct (streamed_step (format 12 <$> rho s) (format 12 r) rs n
                (Z.of_nat (length (time (params s)))) ltac:(lia)
                ltac:(rewrite length_fmap, Hr; reflexivity)
                ltac:(rewrite list_lookup_fmap, Er; reflexivity) H3) as [R1 R2];
    destruct (decide (n = Z.of_nat (length (time (params s))) - 1)) as [E|E];
    [ rewrite bool_decide_false by lia | rewrite bool_decide_true by exact E ];
    repeat (rewrite bind_unfold; cbn [lift]);
    unfold mret, M_ret; cbn [post fst snd];
    (split; [reflexivity|]; split; [|split]; auto))
    0 (""%string, ""%string, ""%string) doc ltac:(lia)).
  specialize (Hinv ltac:(split; [reflexivity|]; repeat split; apply streamed_start)).
  apply post_Ok in Hinv as ([[ts ps] rs] & d & -> & -> & H1 & H2 & H3).
  cbn [fst snd] in *. rewrite Z.max_r in * by lia. rewrite Nat2Z.id in *.
  apply streamed_end in H1; [|rewrite length_fmap; lia].
  apply streamed_end in H2; [|rewrite length_fmap, HP; lia].
  apply streamed_end in H3; [|rewrite length_fmap, Hr; lia].
  subst. reflexivity.
Qed.


(** The stream of one concentration history. *)
Lemma buildXMLDoc_row s k row (doc : xml_node) :
  0 <= k -> concentrations s !! Z.to_nat k = Some row ->
  length row = length (time (params s)) ->
  for_range 0 (Params.getNumTimeSteps (params s)) (fun n conc_str =>
    c ← lift (at2 (concentrations s) k n);
    let conc_str := (conc_str ++ format 12 c)%string in
    if bool_decide (n ≠ Params.getNumTimeSteps (params s) - 1)
    then mret (conc_str ++ " ")%string else mret conc_str) ""%string doc
  = Ok (joined (format 12 <$> row)) doc.
Proof.
  intros Hk Hrow Hlen.
  match goal with |- for_range _ _ ?b _ _ = _ =>
    pose proof (post_for_range
       (fun n (str : string) d =>
          d = doc /\ streamed (format 12 <$> row) (Z.to_nat n) str)
       (fun _ _ => False) b 0 (Params.getNumTimeSteps (params s))) as Hinv
  end.
  unfold Params.getNumTimeSteps in *.
  specialize (Hinv ltac:(
    intros n str d Hn (-> & H1); cbn beta;
    destruct (lookup_lt_is_Some_2 row (Z.to_nat n)) as [c Ec]; [lia|];
    unfold at2; rewrite (at_lookup _ k _ Hk Hrow); cbn [mbind result_bind];
    rewrite (at_lookup _ n _ ltac:(lia) Ec);
    destruct (streamed_step (format 12 <$> row) (format 12 c) str n
                (Z.of_nat (length (time (params s)))) ltac:(lia)
                ltac:(rewrite length_fmap, Hlen; reflexivity)
                ltac:(rewrite list_lookup_fmap, Ec; reflexivity) H1) as [T1 T2];
    destruct (decide (n = Z.of_nat (length (time (params s))) - 1)) as [E|E];
    [ rewrite bool_decide_false by lia | rewrite bool_decide_true by exact E ];
    repeat (rewrite bind_unfold; cbn [lift]);
    unfold mret, M_ret; cbn [post]; auto)
    0 ""%string doc ltac:(lia)).
  specialize (Hinv ltac:(split; [reflexivity | apply streamed_start])).
  apply post_Ok in Hinv as (str & d & -> & -> & H1).
  rewrite Z.max_r in * by lia. rewrite Nat2Z.id in *.
  apply streamed_end in H1; [|rewrite length_fmap; lia].
  subst. reflexivity.
Qed.

Lemma buildXMLDoc_group_run s ch T P R cs k row acc :
  0 <= k -> length cs = Z.to_nat k ->
  concentrations s !! Z.to_nat k = Some row ->
  length row = length (time (params s)) ->
  exists acc',
    buildXMLDoc_group format s (Some [length ch; 3%nat]) k acc (document_with ch T P R cs)
    = Ok acc' (document_with ch T P R (cs ++ [concentration_node format (Z.to_nat k) row])).
Proof.
  intros Hk Hcs Hrow Hlen. unfold buildXMLDoc_group, document_with.
  change 3%nat with (length [T; P; R]).
  rewrite bind_unfold.
  erewrite (append_child_last _ ch) by reflexivity.
  erewrite (append_child_last _ [T; P; R]) by reflexivity.
  cbn [append_child node_at children on_node with_children embed below fmap option_fmap
       option_map app].
  rewrite bind_unfold.
  erewrite (append_attribute_last _ ch) by reflexivity.
  erewrite (append_attribute_last _ [T; P; R]) by reflexivity.
  erewrite (append_attribute_last _ cs) by reflexivity.
  cbn [append_attribute node_at children on_node with_children embed id app].
  rewrite bind_unfold, (buildXMLDoc_row s k row _ Hk Hrow Hlen).
  rewrite bind_unfold.
  erewrite (set_text_last _ ch) by reflexivity.
  erewrite (set_text_last _ [T; P; R]) by reflexivity.
  erewrite (set_text_last _ cs) by reflexivity.
  cbn [set_text node_at children on_node with_children embed id app first_pcdata].
  unfold concentration_node. rewrite Z2Nat.id by lia. eexists. reflexivity.
Qed.


Lemma imap_snoc {A B} (f : nat -> A -> B) (l : list A) (x : A) :
  imap f (l ++ [x]) = imap f l ++ [f (length l) x].
Proof. rewrite imap_app. cbn. rewrite Nat.add_0_r. reflexivity. Qed.

(** The loop over the groups. *)
Lemma buildXMLDoc_groups s ch T P R :
  printable s ->
  exists acc',
    for_range 0 (Params.getNumPrecursors (params s))
      (buildXMLDoc_group format s (Some [length ch; 3%nat])) ""%string
      (document_with ch T P R [])
    = Ok acc' (document_with ch T P R (imap (concentration_node format) (concentrations s))).
Proof.
  intros [_ _ _ HK Hrows].
  pose proof (post_for_range
       (fun k (_ : string) d =>
          d = document_with ch T P R
                (imap (concentration_node format) (take (Z.to_nat k) (concentrations s))))
       (fun _ _ => False) (buildXMLDoc_group format s (Some [length ch; 3%nat])) 0
       (Params.getNumPrecursors (params s))) as Hinv.
  unfold Params.getNumPrecursors in *. rewrite <- HK in *.
  specialize (Hinv ltac:(
    intros k acc d Hk ->;
    destruct (lookup_lt_is_Some_2 (concentrations s) (Z.to_nat k)) as [row Hrow]; [lia|];
    destruct (buildXMLDoc_group_run s ch T P R
                (imap (concentration_node format) (take (Z.to_nat k) (concentrations s)))
                k row acc ltac:(lia)
                ltac:(rewrite length_imap, length_take; lia) Hrow
                ltac:(rewrite Forall_lookup in Hrows; eauto)) as [acc' ->];
    cbn [post];
    replace (Z.to_nat (k + 1)) with (S (Z.to_nat k)) by lia;
    rewrite (take_S_r _ _ _ Hrow), imap_snoc, length_take;
    do 4 f_equal; apply lookup_lt_Some in Hrow; lia)
    0 ""%string (document_with ch T P R []) ltac:(lia) eq_refl).
  apply post_Ok in Hinv as (acc' & d & -> & ->).
  exists acc'. rewrite Z.max_r by lia. rewrite Nat2Z.id, firstn_all. reflexivity.
Qed.

(** [buildXMLDoc] on a solver whose members are all there. *)
Lemma buildXMLDoc_printable s ch :
  printable s ->
  buildXMLDoc format s (document ch)
  = Ok tt (document (ch ++ [epke_output format (params s) (solve_output s)])).
Proof.
  intros Hs. unfold buildXMLDoc.
  rewrite bind_unfold.
  cbn [append_child node_at children on_node with_children app].
  rewrite bind_unfold. erewrite (append_child_last _ ch) by reflexivity.
  cbn [append_child node_at children on_node with_children embed below fmap option_fmap
       option_map app length].
  rewrite bind_unfold. erewrite (append_child_last _ ch) by reflexivity.
  cbn [append_child node_at children on_node with_children embed below fmap option_fmap
       option_map app length].
  rewrite bind_unfold. erewrite (append_child_last _ ch) by reflexivity.
  cbn [append_child node_at children on_node with_children embed below fmap option_fmap
       option_map app length].
  rewrite bind_unfold. erewrite (append_child_last _ ch) by reflexivity.
  cbn [append_child node_at children on_node with_children embed below fmap option_fmap
       option_map app length].
  rewrite bind_unfold, (buildXMLDoc_streams s _ Hs).
  rewrite bind_unfold. erewrite (set_text_last _ ch) by reflexivity.
  cbn [set_text node_at children on_node with_children embed id app length first_pcdata
       alter list_alter].
  rewrite bind_unfold. erewrite (set_text_last _ ch) by reflexivity.
  cbn [set_text node_at children on_node with_children embed id app length first_pcdata
       alter list_alter].
  rewrite bind_unfold. erewrite (set_text_last _ ch) by reflexivity.
  cbn [set_text node_at children on_node with_children embed id app length first_pcdata
       alter list_alter].
  rewrite bind_unfold.
  match goal with
  | |- context [for_range 0 _ _ _ (document (ch ++ [element _ _ [?T; ?P; ?R; _]]))] =>
    destruct (buildXMLDoc_groups s ch T P R Hs) as [acc' Hg]
  end.
  unfold document_with in Hg. rewrite Hg. reflexivity.
Qed.


(** The first loop where the power normalisation is shorter than the grid:
    it fails at the first index without one, and the document is as it
    was. *)
Lemma buildXMLDoc_streams_fail s doc :
  (length (pow_norm (params s)) < length (time (params s)))%nat ->
  length (power s) = length (time (params s)) ->
  length (rho s) = length (time (params s)) ->
  for_range 0 (Params.getNumTimeSteps (params s)) (buildXMLDoc_step format s)
    (""%string, ""%string, ""%string) doc
  = Fail out_of_range doc.
Proof.
  intros Hf Hp Hr. unfold Params.getNumTimeSteps.
  rewrite (for_range_split 0 (Z.of_nat (length (pow_norm (params s))))) by lia.
  rewrite bind_unfold.
  pose proof (post_for_range
       (fun _ (_ : string * string * string) d => d = doc)
       (fun _ _ => False) (buildXMLDoc_step format s) 0
       (Z.of_nat (length (pow_norm (params s))))) as Hinv.
  specialize (Hinv ltac:(
    intros n [[ts ps] rs] d Hn ->;
    destruct (lookup_lt_is_Some_2 (time (params s)) (Z.to_nat n)) as [t Et]; [lia|];
    destruct (lookup_lt_is_Some_2 (pow_norm (params s)) (Z.to_nat n)) as [f Ef]; [lia|];
    destruct (lookup_lt_is_Some_2 (power s) (Z.to_nat n)) as [p Ep]; [lia|];
    destruct (lookup_lt_is_Some_2 (rho s) (Z.to_nat n)) as [r Er]; [lia|];
    unfold buildXMLDoc_step, Params.getTime, Params.getPowNorm;
    rewrite !bind_unfold;
    rewrite (at_lookup _ n _ ltac:(lia) Et), (at_lookup _ n _ ltac:(lia) Ef),
      (at_lookup _ n _ ltac:(lia) Ep), (at_lookup _ n _ ltac:(lia) Er);
    cbn [lift]; repeat (rewrite bind_unfold; cbn [lift]);
    destruct (bool_decide _); reflexivity)
    0 (""%string, ""%string, ""%string) doc ltac:(lia) eq_refl).
  apply post_Ok in Hinv as ([[ts ps] rs] & d & -> & ->).
  rewrite for_range_cons by lia. rewrite bind_unfold.
  destruct (lookup_lt_is_Some_2 (time (params s)) (length (pow_norm (params s))))
    as [t Et]; [lia|].
  unfold buildXMLDoc_step, Params.getTime, Params.getPowNorm.
  rewrite bind_unfold.
  rewrite (at_lookup (time (params s)) _ t) by (rewrite ?Nat2Z.id; first [lia | exact Et]).
  cbn [lift]. rewrite bind_unfold, at_beyond by lia. reflexivity.
Qed.

Lemma buildXMLDoc_unprintable s ch :
  (length (pow_norm (params s)) < length (time (params s)))%nat ->
  length (power s) = length (time (params s)) ->
  length (rho s) = length (time (params s)) ->
  buildXMLDoc format s (document ch)
  = Fail out_of_range (document (ch ++ [epke_output_skeleton])).
Proof.
  intros Hf Hp Hr. unfold buildXMLDoc.
  rewrite bind_unfold.
  cbn [append_child node_at children on_node with_children app].
  rewrite bind_unfold. erewrite (append_child_last _ ch) by reflexivity.
  cbn [append_child node_at children on_node with_children embed below fmap option_fmap
       option_map app length].
  rewrite bind_unfold. erewrite (append_child_last _ ch) by reflexivity.
  cbn [append_child node_at children on_node with_children embed below fmap option_fmap
       option_map app length].
  rewrite bind_unfold. erewrite (append_child_last _ ch) by reflexivity.
  cbn [append_child node_at children on_node with_children embed below fmap option_fmap
       option_map app length].
  rewrite bind_unfold. erewrite (append_child_last _ ch) by reflexivity.
  cbn [append_child node_at children on_node with_children embed below fmap option_fmap
       option_map app length].
  rewrite bind_unfold, (buildXMLDoc_streams_fail s _ Hf Hp Hr). reflexivity.
Qed.

Lemma init_printable p h s :
  same_shape (Solver_init p h) s ->
  (length (time p) <= length (pow_norm p))%nat -> printable s.
Proof.
  intros Hsh Hf. destruct (init_shape p h s Hsh) as (Hp & Hr & Hc & Hrows).
  destruct Hsh as [Hparams _ _ _ _ _ _ _]. cbn in Hparams.
  unfold Params.getNumTimeSteps, Params.getNumPrecursors in *. rewrite !Nat2Z.id in *.
  split; rewrite ?Hparams; auto.
Qed.

End OutputRuns.

(** * The document of a solver the constructor has sized *)

Section PrintedRuns.
Context (X : Externals) (format : Z -> float -> string).

Lemma buildXMLDoc_solved p h s out s' ch :
  Solver_new p h = Ok tt s -> solve X s = Ok out s' ->
  (length (time p) <= length (pow_norm p))%nat ->
  buildXMLDoc format s' (document ch)
  = Ok tt (document (ch ++ [epke_output format p out])).
Proof.
  intros Hnew Hrun Hf.
  destruct (Solver_new_spec p h s Hnew) as (Hsh & _ & _).
  pose proof (solve_frame X s) as [Hsh' _]. rewrite Hrun in Hsh'. cbn in Hsh'.
  pose proof (same_shape_trans _ _ _ Hsh Hsh') as Hs.
  apply solve_Ok in Hrun as [-> _].
  rewrite (buildXMLDoc_printable format s' ch (init_printable p h s' Hs Hf)).
  destruct Hs as [-> _ _ _ _ _ _ _]. reflexivity.
Qed.

Lemma buildXMLDoc_short p h s ch :
  Solver_new p h = Ok tt s ->
  (length (pow_norm p) < length (time p))%nat ->
  buildXMLDoc format s (document ch)
  = Fail out_of_range (document (ch ++ [epke_output_skeleton])) /\
  buildXMLDoc format (state_of (solve X s)) (document ch)
  = Fail out_of_range (document (ch ++ [epke_output_skeleton])).
Proof.
  intros Hnew Hf.
  destruct (Solver_new_spec p h s Hnew) as (Hsh & _ & _).
  pose proof (solve_frame X s) as [Hsh' _].
  pose proof (same_shape_trans _ _ _ Hsh Hsh') as Hs.
  split.
  - destruct (init_shape p h s Hsh) as (Hp & Hr & _).
    destruct Hsh as [Hparams _ _ _ _ _ _ _]. cbn in Hparams.
    unfold Params.getNumTimeSteps in *. rewrite Nat2Z.id in *.
    apply buildXMLDoc_unprintable; rewrite ?Hparams; auto.
  - destruct (init_shape p h _ Hs) as (Hp & Hr & _).
    destruct Hs as [Hparams _ _ _ _ _ _ _]. cbn in Hparams.
    unfold Params.getNumTimeSteps in *. rewrite Nat2Z.id in *.
    apply buildXMLDoc_unprintable; rewrite ?Hparams; auto.
Qed.

End PrintedRuns.

(** * The acceptance test *)

Section NotANumber.
Local Open Scope float_scope.

Lemma sub_nan_l (y : float) : nan - y = nan.
Proof.
  apply Prim2SF_inj. rewrite sub_spec. change (Prim2SF nan) with S754_nan. reflexivity.
Qed.

Lemma abs_nan : abs nan = nan.
Proof. reflexivity. Qed.

Lemma leb_nan_l (y : float) : (nan <=? y) = false.
Proof. rewrite FloatAxioms.leb_spec. change (Prim2SF nan) with S754_nan. reflexivity. Qed.

Lemma mul_nan_r (x : float) : x * nan = nan.
Proof.
  apply Prim2SF_inj. rewrite mul_spec. change (Prim2SF nan) with S754_nan.
  destruct (Prim2SF x) as [sg|sg| |sg m e]; try destruct sg; reflexivity.
Qed.

End NotANumber.

Section Acceptance.
Context (X : Externals).
Local Open Scope float_scope.

Lemma computeDT_Bad s n f : computeDT s n = Bad f -> f = out_of_range.
Proof.
  unfold computeDT, Params.getTime.
  destruct (at_ (time (params s)) n) eqn:E1; cbn.
  - destruct (at_ (time (params s)) (n - 1)) eqn:E2; cbn; [discriminate|].
    intros [= <-]. exact (at_Bad _ _ _ E2).
  - intros [= <-]. exact (at_Bad _ _ _ E1).
Qed.

Lemma at_Good_range {A} (v : list A) i x :
  at_ v i = Good x -> (0 <= i < Z.of_nat (length v))%Z.
Proof. intros H. apply at_Good in H as [H0 H]. apply lookup_lt_Some in H. lia. Qed.

Lemma acceptTransformation_Bad s n alpha gamma f :
  acceptTransformation X s n alpha gamma = Bad f -> f = out_of_range.
Proof.
  unfold acceptTransformation.
  destruct (if (n <? 2)%Z then at_ (power s) (n - 1) else at_ (power s) (n - 2)) eqn:E0; cbn.
  - destruct (at_ (power s) n) eqn:E1; cbn; [|intros [= <-]; exact (at_Bad _ _ _ E1)].
    destruct (computeDT s n) eqn:E2; cbn; [|intros [= <-]; exact (computeDT_Bad _ _ _ E2)].
    destruct (at_ (power s) (n - 1)) eqn:E3; cbn; [discriminate|].
    intros [= <-]. exact (at_Bad _ _ _ E3).
  - intros [= <-]. destruct (n <? 2)%Z; exact (at_Bad _ _ _ E0).
Qed.

Lemma acceptTransformation_domain s n alpha gamma :
  (exists v, acceptTransformation X s n alpha gamma = Good v) <->
  (1 <= n < Params.getNumTimeSteps (params s))%Z /\ (n < Z.of_nat (length (power s)))%Z.
Proof.
  split.
  - intros [v H]. unfold acceptTransformation in H.
    destruct (if (n <? 2)%Z then at_ (power s) (n - 1) else at_ (power s) (n - 2));
      cbn in H; [|discriminate].
    destruct (at_ (power s) n) eqn:E1; cbn in H; [|discriminate].
    destruct (computeDT s n) eqn:E2; cbn in H; [|discriminate].
    apply at_Good_range in E1.
    split; [|lia].
    destruct (decide (1 <= n < Params.getNumTimeSteps (params s))%Z) as [Hn|Hn]; [exact Hn|].
    exfalso. destruct (Z_le_gt_dec n 0).
    + rewrite computeDT_nonpos in E2 by lia. discriminate.
    + rewrite computeDT_beyond in E2 by lia. discriminate.
  - intros [Hn Hp]. unfold acceptTransformation.
    destruct (computeDT_Good s n Hn) as (t1 & t0 & _ & _ & ->).
    destruct (at_ok (power s) n) as [pn ->]; [lia|].
    destruct (at_ok (power s) (n - 1)) as [p1 E1]; [lia|].
    destruct (Z.ltb_spec n 2).
    + rewrite E1. cbn. eauto.
    + destruct (at_ok (power s) (n - 2)) as [p2 ->]; [lia|]. rewrite E1. cbn. eauto.
Qed.

Lemma acceptTransformation_nan s n alpha gamma v :
  at_ (power s) n = Good nan \/ at_ (power s) (n - 1) = Good nan ->
  acceptTransformation X s n alpha gamma = Good v -> v = false.
Proof.
  intros Hnan. unfold acceptTransformation.
  destruct (if (n <? 2)%Z then at_ (power s) (n - 1) else at_ (power s) (n - 2));
    cbn; [|discriminate].
  destruct (at_ (power s) n) as [pn|] eqn:Epn; cbn; [|discriminate].
  destruct (computeDT s n); cbn; [|discriminate].
  destruct (at_ (power s) (n - 1)) as [p1|] eqn:Ep1; cbn; [|discriminate].
  intros [= <-]. destruct Hnan as [[= ->]|[= ->]].
  - rewrite sub_nan_l, abs_nan. apply leb_nan_l.
  - rewrite mul_nan_r, sub_nan_r, abs_nan. apply leb_nan_l.
Qed.

End Acceptance.


(** * The claims *)

Section Claims.
Context (X : Externals).

Local Open Scope float_scope.

(** C1. Root selection.  Let [(a, b, c)] be the coefficients that
    [computePower] assembles at step [n] from [theta], [dt], [alpha], the
    feedback pair, [tau], [s_hat_d], [s_d_prev] and the entries of step
    [n - 1].  If [a < 0] the power computed is
    [(-b - sqrt(b^2 - 4ac)) / (2a)]; if [a == 0] it is [-c / b]; if [a > 0]
    nothing is returned: the step ends in the bare [throw;], which terminates
    the program.  The value returned is the one stored in [power[n]]. *)
Theorem C1_root_selection s n alpha gamma a b c s1 :
  computePower_quadratic X n alpha gamma s = Ok (a, b, c) s1 ->
  ((a <? 0) = true ->
     computePower X n alpha gamma s
     = Ok ((- b - sqrt (b * b - 4 * a * c)) / (2 * a)) s1) /\
  ((a =? 0) = true -> computePower X n alpha gamma s = Ok (- c / b) s1) /\
  ((0 <? a) = true ->
     computePower X n alpha gamma s = Fail terminate s1 /\
     solve_update X n alpha gamma s = Fail terminate s1) /\
  (forall s', solve_update X n alpha gamma s = Ok tt s' ->
     exists pw, computePower X n alpha gamma s = Ok pw s1 /\
                at_ (power s') n = Good pw).
Proof.
  intros Hq. pose proof (computePower_select X n alpha gamma s) as Hsel.
  rewrite Hq in Hsel. split; [|split; [|split]].
  - intros Ha. rewrite Hsel, (select_root_negative a b c Ha). reflexivity.
  - intros Ha. rewrite Hsel, (select_root_zero a b c Ha). reflexivity.
  - intros Ha. unfold solve_update.
    rewrite bind_unfold, Hsel, (select_root_positive a b c Ha). split; reflexivity.
  - intros s' Hupd.
    destruct (solve_update_power X n alpha gamma s s' Hupd) as (pw & s2 & Hpw & Hat).
    exists pw. split; [|exact Hat]. rewrite Hpw. f_equal.
    rewrite Hsel in Hpw. destruct (select_root a b c); cbn in Hpw; congruence.
Qed.

(** C2, as the code has it.  If the leading coefficient is positive at step
    [n] of a run of [solve], the run ends in that step, after the steps
    before it completed, in the bare [throw;] of [computeABC]: the outcome is
    [terminate], which carries neither a step index nor an error kind.  No
    history entry of index [n] or beyond is altered. *)
Theorem C2_abort_at_step s n :
  positive_at X s n = true ->
  exists alpha_n s_n s1,
    for_range (Precomp.getNumTimeSteps (precomp s)) n (solve_step X) 0 s
      = Ok alpha_n s_n /\
    solve_step X n alpha_n s_n = Fail terminate s1 /\
    solve X s = Fail terminate s1 /\
    forall i, (n <= i)%Z -> same_history_at i s s1.
Proof. apply solve_abort. Qed.

(** C3. The rate used at step [n] is
    [(1/dt(n-1)) * ln(power(n-1)/power(n-2))] when [n > 1] and [0] when
    [n <= 1]: the loop of [solve], which carries [alpha] from one iteration
    to the next, is the loop that takes the rate of each step from this
    formula. *)
Theorem C3_extrapolation_rate s : solve X s = rate_solve X s.
Proof. apply rate_solve_eq. Qed.

(** C4. For a solver [s] constructed from the parameters [p] and the prefix
    [h]: (1) its entries below the length of [h] are the values the history
    provider returns; (2) [solve] leaves these entries as they are, whatever
    its outcome; (3) in a completed run every index [n] from the length of
    [h] to the end of the grid is written by step [n], run on the state
    that the steps of the indices before [n] left, and by no other step; (4)
    what step [n] writes depends on the parameters, the sizes and the entries
    of the indices below [n] only. *)
Theorem C4_history_invariant p h s :
  Solver_new p h = Ok tt s ->
  (forall n, (0 <= n < Precomp.getNumTimeSteps h)%Z ->
     at_ (power s) n = Precomp.getPower h n /\
     at_ (rho s) n = Precomp.getRho h n /\
     forall k, (0 <= k < Params.getNumPrecursors p)%Z ->
       at2 (concentrations s) k n = Precomp.getConcentration h k n) /\
  (forall n, (n < Precomp.getNumTimeSteps h)%Z ->
     same_history_at n s (state_of (solve X s))) /\
  (forall out s', solve X s = Ok out s' ->
     forall n, (Precomp.getNumTimeSteps h <= n < Params.getNumTimeSteps p)%Z ->
     exists alpha_n s_n alpha_m s_m,
       for_range (Precomp.getNumTimeSteps h) n (solve_step X) 0 s = Ok alpha_n s_n /\
       solve_step X n alpha_n s_n = Ok alpha_m s_m /\
       unchanged_outside n (n + 1) s_n s_m /\
       same_history_at n s_m s') /\
  (forall n alpha s1 s2, (0 < n)%Z -> agree_below p n s1 s2 ->
     both (solve_step X n alpha s1) (solve_step X n alpha s2)
          (fun _ => agree_below p (n + 1))).
Proof.
  intros Hnew. destruct (Solver_new_members p h s Hnew) as (Hp & Hh & _).
  split; [|split; [|split]].
  - apply (Solver_new_spec p h s Hnew).
  - intros n Hn. destruct (solve_frame X s) as [_ Hf]. apply Hf. rewrite Hh. lia.
  - intros out s' Hrun n Hn. revert Hrun. rewrite solve_unfold, Hp, Hh.
    destruct (for_range _ _ _ _ _) as [a t|] eqn:Hloop; [|discriminate].
    intros [= <- <-].
    destruct (for_range_Ok _ _ _ _ _ _ _ n Hloop Hn)
      as (alpha_n & s_n & alpha_m & s_m & Hpre & Hstep & Hsuf).
    exists alpha_n, s_n, alpha_m, s_m. split; [exact Hpre|]. split; [exact Hstep|]. split.
    + pose proof (solve_step_frame X n alpha_n s_n) as Hf. rewrite Hstep in Hf. exact Hf.
    + pose proof (solve_loop_frame X (n + 1) (Params.getNumTimeSteps p) alpha_m s_m)
        as [_ Hf].
      rewrite Hsuf in Hf. apply Hf. lia.
  - intros n alpha s1 s2 Hn Hag. apply both_solve_step; assumption.
Qed.

(** C5, as the code has it.  [solve] does not compute the acceptance test:
    no run of it calls [acceptTransformation], the call and the fallback
    being inside a comment.  A run calls [computeABC] once for each step it
    takes, in the order of the steps, and for every step of the grid beyond
    the prefix when it returns: no step is computed a second time.  The
    outcome of [solve] is that of the solver that evaluates the test at every
    step, once [power[n]] is stored, and drops its verdict. *)
Theorem C5_acceptance_test_not_computed s :
  untraced (traced_solve X (s, [])) = solve X s /\
  (forall n, call_acceptTransformation n ∉ calls (traced_solve X (s, []))) /\
  abc_steps (calls (traced_solve X (s, [])))
    `prefix_of` seqZ (Precomp.getNumTimeSteps (precomp s))
                     (Params.getNumTimeSteps (params s) - Precomp.getNumTimeSteps (precomp s)) /\
  (forall out s', solve X s = Ok out s' ->
     abc_steps (calls (traced_solve X (s, [])))
     = seqZ (Precomp.getNumTimeSteps (precomp s))
            (Params.getNumTimeSteps (params s) - Precomp.getNumTimeSteps (precomp s))) /\
  tested_solve X s = solve X s.
Proof.
  destruct (traced_solve_run X s []) as (Hu & seg & Hc & Hno & Hs).
  cbn [app] in Hc. rewrite Hc.
  split; [exact Hu|]. split; [|split; [|split]].
  - intros n Hin. apply (proj1 (Forall_forall _ _) Hno) in Hin. exact Hin.
  - destruct (completed _); [rewrite Hs|]; done.
  - intros out s' Hrun. rewrite Hrun in Hu.
    destruct (traced_solve X (s, [])); [exact Hs | discriminate].
  - apply tested_solve_eq.
Qed.

(** C6. [assembleGlobalOutput] is a pass-through: it returns the
    precomputed prefix the solver was constructed with.  The result is the
    same after a run of [solve] as before it, and the same whatever the
    computed histories, the scratch and the list of fine solvers are. *)
Theorem C6_assembleGlobalOutput_passes_prefix s :
  assembleGlobalOutput s = precomp s /\
  assembleGlobalOutput (state_of (solve X s)) = assembleGlobalOutput s /\
  (forall (pw r : timeBins) (om zh : precBins float) (c : precBins timeBins)
          (fs : list ptr),
     assembleGlobalOutput
       {| params := params s; precomp := precomp s; power := pw; rho := r;
          omega := om; zeta_hat := zh; concentrations := c; _fine_solvers := fs |}
     = assembleGlobalOutput s).
Proof.
  split; [reflexivity|]. split; [|reflexivity].
  unfold assembleGlobalOutput. destruct (solve_frame X s) as [Hshape _].
  apply (shape_precomp _ _ Hshape).
Qed.


(** C8, as the code has it.  Neither the constructor nor [solve] checks
    its data before stepping, and no outcome is kept for malformed input.
    A run that fails fails in one step [n], with the failure of the access
    or of the branch that failed there; the steps before [n] have completed
    and written their entries, and no entry of the prefix or of an index
    beyond [n] is written. *)
Theorem C8_failure_in_a_step s f s' :
  solve X s = Fail f s' ->
  exists n alpha_n s_n,
    (Precomp.getNumTimeSteps (precomp s) <= n < Params.getNumTimeSteps (params s))%Z /\
    for_range (Precomp.getNumTimeSteps (precomp s)) n (solve_step X) 0 s
      = Ok alpha_n s_n /\
    solve_step X n alpha_n s_n = Fail f s' /\
    unchanged_outside (Precomp.getNumTimeSteps (precomp s)) (n + 1) s s'.
Proof. apply solve_Fail. Qed.

(** C9. [solve] is deterministic: two solvers constructed from the same
    parameters and the same prefix have the same outcome, value for value;
    and a completed run, run again on the solver it left, returns the same
    three histories. *)
Theorem C9_determinism p h s1 s2 :
  Solver_new p h = Ok tt s1 -> Solver_new p h = Ok tt s2 ->
  solve X s1 = solve X s2 /\
  (consistent p -> (0 < Precomp.getNumTimeSteps h)%Z ->
   forall out s', solve X s1 = Ok out s' -> exists s'', solve X s' = Ok out s'').
Proof.
  intros H1 H2. split; [congruence|]. intros Hp Hseed out s' Hrun.
  destruct (Solver_new_members p h s1 H1) as (_ & Hh & _).
  apply (solve_again X p s1 out s' (Solver_new_well_sized p h s1 Hp H1)); [|exact Hrun].
  rewrite Hh. exact Hseed.
Qed.

(** C10. For a solver constructed from a parameter set whose arrays all
    have the length of the grid and a prefix of at least one entry, no
    access of [solve] or its helpers leaves its vector: the run completes or
    ends in the [throw;] of [computeABC], never in [out_of_range] and never
    in an unchecked store outside a vector.  The prefix must not be empty:
    on a grid of at least one point a solver with an empty prefix fails with
    [out_of_range] in its first step, before it writes anything. *)
Theorem C10_accesses_in_bounds p h s :
  consistent p -> (1 <= Precomp.getNumTimeSteps h)%Z ->
  Solver_new p h = Ok tt s ->
  (forall f s', solve X s = Fail f s' -> f = terminate) /\
  (forall s0, Precomp.getNumTimeSteps (precomp s0) = 0%Z ->
     (0 < Params.getNumTimeSteps (params s0))%Z ->
     solve X s0 = Fail out_of_range s0).
Proof.
  intros Hp Hseed Hnew. split.
  - intros f s' Hrun.
    destruct (Solver_new_members p h s Hnew) as (_ & Hh & _).
    pose proof (solve_harmless X p s (Solver_new_well_sized p h s Hp Hnew)) as Hsafe.
    rewrite Hh in Hsafe. specialize (Hsafe Hseed).
    unfold harmless in Hsafe. rewrite Hrun in Hsafe. exact Hsafe.
  - intros s0. apply solve_empty_prefix.
Qed.

End Claims.

(** * Further properties of the code *)

Section Properties.
Context (X : Externals).

Local Open Scope float_scope.

(** X1. Where the time step and the step ratio are defined.  [computeDT(n)]
    is [time(n) - time(n-1)] for [1 <= n < NumTimeSteps] and throws
    [std::out_of_range] for every other index, [n = 0] included.
    [computeGamma(n)] is [1.0] for [n < 2] without reading the grid, so it
    returns at [n = 0] and [n = 1] on any grid, the empty one too; from
    [n = 2] on it is [computeDT(n-1) / computeDT(n)], and it throws
    [std::out_of_range] once [n] is beyond the grid. *)
Theorem X1_time_step_domain s n :
  ((1 <= n < Params.getNumTimeSteps (params s))%Z ->
     exists t1 t0, Params.getTime (params s) n = Good t1 /\
       Params.getTime (params s) (n - 1) = Good t0 /\ computeDT s n = Good (t1 - t0)) /\
  (~ (1 <= n < Params.getNumTimeSteps (params s))%Z -> computeDT s n = Bad out_of_range) /\
  ((n < 2)%Z -> computeGamma s n = Good 1) /\
  ((2 <= n < Params.getNumTimeSteps (params s))%Z ->
     exists d1 d0, computeDT s (n - 1) = Good d1 /\ computeDT s n = Good d0 /\
       computeGamma s n = Good (d1 / d0)) /\
  ((2 <= n)%Z -> (Params.getNumTimeSteps (params s) <= n)%Z ->
     computeGamma s n = Bad out_of_range).
Proof.
  split; [apply computeDT_Good|]. split; [|split; [|split]].
  - intros Hn. destruct (Z_le_gt_dec n 0); [apply computeDT_nonpos; lia|].
    apply computeDT_beyond. lia.
  - intros Hn. unfold computeGamma. destruct (Z.ltb_spec n 2); [reflexivity | lia].
  - intros Hn. unfold computeGamma. destruct (Z.ltb_spec n 2); [lia|].
    destruct (computeDT_Good s (n - 1)) as (a1 & a0 & _ & _ & H1); [lia|].
    destruct (computeDT_Good s n) as (b1 & b0 & _ & _ & H0); [lia|].
    rewrite H1, H0. eauto.
  - intros Hn HN. unfold computeGamma. destruct (Z.ltb_spec n 2); [lia|].
    rewrite (computeDT_beyond s n HN).
    destruct (computeDT s (n - 1)) as [d1|f] eqn:E; cbn; [reflexivity|].
    unfold computeDT, Params.getTime in E.
    destruct (at_ (time (params s)) (n - 1)) eqn:E1; cbn in E.
    + destruct (at_ (time (params s)) (n - 1 - 1)) eqn:E2; cbn in E; [discriminate|].
      injection E as <-. rewrite (at_Bad _ _ _ E2). reflexivity.
    + injection E as <-. rewrite (at_Bad _ _ _ E1). reflexivity.
Qed.

(** X2. When [computeABC] ends in its bare [throw;].  It does so exactly
    when all its reads succeeded and the leading coefficient [a] is positive
    or is not a number: the last branch is an [else], and a NaN is
    neither [< 0] nor [== 0]. *)
Theorem X2_abort_on_positive_or_nan s n alpha a1b1 tau s_hat_d s_d_prev :
  computeABC X s n alpha a1b1 tau s_hat_d s_d_prev = Bad terminate <->
  exists a b c, quadratic X s n alpha a1b1 tau s_hat_d s_d_prev = Good (a, b, c) /\
    ((0 <? a) = true \/ is_nan a = true).
Proof.
  unfold computeABC.
  destruct (quadratic X s n alpha a1b1 tau s_hat_d s_d_prev) as [[[a b] c]|f] eqn:Hq;
    cbn [mbind result_bind].
  - unfold select_root. split.
    + intros H. exists a, b, c. split; [reflexivity|]. apply not_root_cases.
      destruct (a <? 0); [discriminate|]. destruct (a =? 0); [discriminate|]. auto.
    + intros (a' & b' & c' & [= <- <- <-] & H). apply not_root_cases in H as [-> ->].
      reflexivity.
  - split.
    + intros [= ->]. apply quadratic_Bad in Hq. discriminate.
    + intros (a & b & c & [=] & _).
Qed.

(** X3. A quadratic without a real root.  With [a < 0] and a negative
    discriminant [b*b - 4*a*c], [computePower] does not fail: [sqrt] of the
    negative discriminant is NaN, and NaN is the power returned. *)
Theorem X3_complex_root_is_nan s n alpha gamma a b c s1 :
  computePower_quadratic X n alpha gamma s = Ok (a, b, c) s1 ->
  (a <? 0) = true -> (b * b - 4 * a * c <? 0) = true ->
  computePower X n alpha gamma s = Ok nan s1.
Proof.
  intros Hq Ha Hd. rewrite computePower_select, Hq, (select_root_complex a b c Ha Hd).
  reflexivity.
Qed.

(** X4. The steps of a completed run.  If [solve] returned, then at every
    step [n] it computed the leading coefficient was negative or zero, never
    positive and never NaN, and the entry [power(n)] of the result is the
    value of the branch taken: the root [(-b - sqrt(b*b - 4*a*c)) / (2*a)]
    or the quotient [-c / b]. *)
Theorem X4_completed_run_roots p h s out s' n :
  Solver_new p h = Ok tt s -> solve X s = Ok out s' ->
  (Precomp.getNumTimeSteps h <= n < Params.getNumTimeSteps p)%Z ->
  exists a b c t,
    quadratic_at X s n = Ok (a, b, c) t /\
    positive_at X s n = false /\ is_nan a = false /\
    (((a <? 0) = true /\
      at_ (out_power out) n = Good ((- b - sqrt (b * b - 4 * a * c)) / (2 * a))) \/
     ((a =? 0) = true /\ at_ (out_power out) n = Good (- c / b))).
Proof. exact (solve_Ok_roots X p h s out s' n). Qed.

(** X5. The constructor and the length of the prefix.  For a history
    provider that holds a reactivity and a concentration per group for each
    of its powers: if the prefix is no longer than the grid the constructor
    completes; if it is longer, the constructor stores outside a vector it
    has sized by the grid, with [operator[]], which is undefined
    behaviour. *)
Theorem X5_constructor_fits_or_overflows p h :
  rectangular p h ->
  ((Precomp.getNumTimeSteps h <= Params.getNumTimeSteps p)%Z ->
     exists s, Solver_new p h = Ok tt s) /\
  ((Params.getNumTimeSteps p < Precomp.getNumTimeSteps h)%Z ->
     exists s, Solver_new p h = Fail undefined s).
Proof.
  intros Hh. split; [apply (Solver_new_fits p h Hh) | apply (Solver_new_overflow p h Hh)].
Qed.

(** X6. The constructor from two XML nodes.  It has the outcome of the
    constructor from a parameter set and a history provider, on the two
    objects made from the nodes.  When it completes, the entries of the
    solver below the length of the prefix are those of the history provider,
    and every entry from there to the end of the grid is [0.0]. *)
Theorem X6_constructor_from_xml (parse_parameters : xml_node -> EPKEParameters)
    (parse_output : xml_node -> EPKEOutput) input_node output_node :
  Solver_from_xml parse_parameters parse_output input_node output_node
  = Solver_new (parse_parameters input_node) (parse_output output_node) /\
  forall s,
    Solver_from_xml parse_parameters parse_output input_node output_node = Ok tt s ->
    params s = parse_parameters input_node /\ precomp s = parse_output output_node /\
    (forall n, (0 <= n < Precomp.getNumTimeSteps (precomp s))%Z ->
       at_ (power s) n = Precomp.getPower (precomp s) n /\
       at_ (rho s) n = Precomp.getRho (precomp s) n /\
       forall k, (0 <= k < Params.getNumPrecursors (params s))%Z ->
         at2 (concentrations s) k n = Precomp.getConcentration (precomp s) k n) /\
    (forall n, (Precomp.getNumTimeSteps (precomp s) <= n
                < Params.getNumTimeSteps (params s))%Z ->
       at_ (power s) n = Good 0 /\ at_ (rho s) n = Good 0 /\
       forall k, (0 <= k < Params.getNumPrecursors (params s))%Z ->
         at2 (concentrations s) k n = Good 0).
Proof.
  split; [reflexivity|]. intros s Hs.
  change (Solver_new (parse_parameters input_node) (parse_output output_node) = Ok tt s) in Hs.
  destruct (Solver_new_members _ _ s Hs) as (Hp & Hh & _). rewrite Hp, Hh.
  split; [reflexivity|]. split; [reflexivity|]. split.
  - apply (Solver_new_spec _ _ s Hs).
  - apply (Solver_new_zero _ _ s Hs).
Qed.

(** X7. The sizes of the result.  The three histories [solve] returns have
    one entry per grid point, and there is one concentration history per
    precursor group, whatever the length of the prefix. *)
Theorem X7_output_shape p h s out s' :
  Solver_new p h = Ok tt s -> solve X s = Ok out s' ->
  length (out_power out) = length (time p) /\
  length (out_rho out) = length (time p) /\
  length <$> out_concentrations out
  = replicate (length (decay_constant p)) (length (time p)).
Proof. exact (solve_shape X p h s out s'). Qed.

(** X8. A prefix over the whole grid.  When the history provider covers
    every grid point the loop of [solve] has no step to take, and [solve]
    returns the histories of the provider as they are. *)
Theorem X8_full_prefix_passes_through p h s :
  rectangular p h -> Precomp.getNumTimeSteps h = Params.getNumTimeSteps p ->
  Solver_new p h = Ok tt s ->
  solve X s = Ok h s.
Proof. exact (solve_passes_prefix X p h s). Qed.

(** X9. Restarting a run.  Let [out] be the result of a completed run from
    the prefix [h], and [h2] a longer prefix, of [m] steps, whose entries are
    those of [out].  A solver constructed from [h2] on the same parameters
    returns [out] again: the steps from [m] on compute what they computed in
    the first run. *)
Theorem X9_restart p h s out s' m h2 s2 :
  consistent p -> (0 < Precomp.getNumTimeSteps h)%Z ->
  Solver_new p h = Ok tt s -> solve X s = Ok out s' ->
  (Precomp.getNumTimeSteps h <= m <= Params.getNumTimeSteps p)%Z ->
  Precomp.getNumTimeSteps h2 = m ->
  (forall i, (0 <= i < m)%Z ->
     Precomp.getPower h2 i = Precomp.getPower out i /\
     Precomp.getRho h2 i = Precomp.getRho out i /\
     forall k, (0 <= k < Params.getNumPrecursors p)%Z ->
       Precomp.getConcentration h2 k i = Precomp.getConcentration out k i) ->
  Solver_new p h2 = Ok tt s2 ->
  exists s2', solve X s2 = Ok out s2'.
Proof. exact (solve_restart_run X p h s out s' m h2 s2). Qed.

(** X10. A step on the finished histories.  After a completed run, the body
    of the loop run once more at any index [n] the run computed, on the
    solver the run left and with the initial [alpha = 0.0], completes and
    stores in [power], [rho] and [concentrations] the values they hold:
    each entry of the result is what its step computes from the entries
    before it. *)
Theorem X10_step_fixed_point p h s out s' n :
  Solver_new p h = Ok tt s -> solve X s = Ok out s' ->
  (Precomp.getNumTimeSteps h <= n < Params.getNumTimeSteps p)%Z ->
  exists alpha s'',
    solve_step X n 0 s' = Ok alpha s'' /\
    power s'' = power s' /\ rho s'' = rho s' /\ concentrations s'' = concentrations s'.
Proof. exact (solve_step_again X p h s out s' n). Qed.

(** X11. The reactivity of a computed step.  In the result of a completed
    run, at every index [n] the run computed, [rho(n)] is
    [a1 * power(n) + b1] for the pair [(a1, b1)] that [computeA1B1(n, gamma)]
    returns on the finished solver, with [gamma = computeGamma(n)]. *)
Theorem X11_reactivity_feedback_law p h s out s' n :
  Solver_new p h = Ok tt s -> solve X s = Ok out s' ->
  (Precomp.getNumTimeSteps h <= n < Params.getNumTimeSteps p)%Z ->
  exists gamma a1 b1 pn,
    computeGamma s' n = Good gamma /\
    computeA1B1 X s' n gamma = Good (a1, b1) /\
    at_ (out_power out) n = Good pn /\
    at_ (out_rho out) n = Good (a1 * pn + b1).
Proof. exact (update_rho_law X p h s out s' n). Qed.

(** X12. The concentrations of a computed step.  In the result of a
    completed run, at every index [n] the run computed and for every
    precursor group [k], [concentration(k, n)] is
    [power(n) * omega + zeta_hat], where [omega] and [zeta_hat] are what
    [computeOmega(k, n, w, gamma)] and [computeZetaHat(k, n, w, gamma)]
    return on the finished solver, with [w = 1 / E(lambda_k(n), dt(n))]:
    the scratch vectors held these values when the entry was stored. *)
Theorem X12_concentration_law p h s out s' n k :
  Solver_new p h = Ok tt s -> solve X s = Ok out s' ->
  (Precomp.getNumTimeSteps h <= n < Params.getNumTimeSteps p)%Z ->
  (0 <= k < Params.getNumPrecursors p)%Z ->
  exists gamma lam dt om zh pn,
    computeGamma s' n = Good gamma /\
    Params.getDecayConstant p k n = Good lam /\ computeDT s' n = Good dt /\
    computeOmega X s' k n (1 / E X lam dt) gamma = Good om /\
    computeZetaHat X s' k n (1 / E X lam dt) gamma = Good zh /\
    at_ (out_power out) n = Good pn /\
    at2 (out_concentrations out) k n = Good (pn * om + zh).
Proof. exact (update_concentrations_law X p h s out s' n k). Qed.

(** X13. The run on a shorter grid.  If the run on a grid completes, so do
    the constructor and the run on the first [m] points of that grid, for
    any [m] not below the length of the prefix, and the result is the first
    [m] entries of each history of the result on the whole grid. *)
Theorem X13_truncated_grid p h s out s' (m : nat) :
  (Precomp.getNumTimeSteps h <= Z.of_nat m <= Params.getNumTimeSteps p)%Z ->
  Solver_new p h = Ok tt s -> solve X s = Ok out s' ->
  exists sm sm',
    Solver_new (truncate_parameters m p) h = Ok tt sm /\
    solve X sm = Ok (truncate_output m out) sm'.
Proof. exact (solve_truncated_run X p h s out s' m). Qed.

(** X14. No entry depends on a later parameter.  Two parameter sets that
    are the same on the first [m] grid points give, from the same prefix,
    results with the same first [m] entries in every history, whatever the
    parameters are from the point [m] on. *)
Theorem X14_causality p1 p2 h s1 s2 (m : nat) out1 s1' out2 s2' :
  truncate_parameters m p1 = truncate_parameters m p2 ->
  (Precomp.getNumTimeSteps h <= Z.of_nat m)%Z ->
  (Z.of_nat m <= Params.getNumTimeSteps p1)%Z ->
  (Z.of_nat m <= Params.getNumTimeSteps p2)%Z ->
  Solver_new p1 h = Ok tt s1 -> Solver_new p2 h = Ok tt s2 ->
  solve X s1 = Ok out1 s1' -> solve X s2 = Ok out2 s2' ->
  truncate_output m out1 = truncate_output m out2.
Proof.
  intros Hp HL H1 H2 Hnew1 Hnew2 Hrun1 Hrun2.
  destruct (solve_truncated_run X p1 h s1 out1 s1' m ltac:(lia) Hnew1 Hrun1)
    as (t1 & t1' & Hn1 & Hr1).
  destruct (solve_truncated_run X p2 h s2 out2 s2' m ltac:(lia) Hnew2 Hrun2)
    as (t2 & t2' & Hn2 & Hr2).
  rewrite Hp, Hn2 in Hn1. injection Hn1 as <-. rewrite Hr2 in Hr1. congruence.
Qed.

(** X15. The parent of a fine solver.  After [createFineSolver] the caller
    has the new address at the end of its list and is otherwise as it was:
    [assembleGlobalOutput] returns what it returned, and [solve] on the
    caller returns the same histories, or fails with the same failure, as
    it would have before the call; [solve] leaves the list as it is. *)
Theorem X15_parent_after_createFineSolver this fine_time coarse_index sigma c sigma' me :
  sigma !! this = Some me ->
  createFineSolver X this fine_time coarse_index sigma = Ok c sigma' ->
  exists me',
    sigma' !! this = Some me' /\
    _fine_solvers me' = _fine_solvers me ++ [c] /\
    assembleGlobalOutput me' = assembleGlobalOutput me /\
    (forall out s, solve X me = Ok out s ->
       exists s', solve X me' = Ok out s' /\ _fine_solvers s' = _fine_solvers me ++ [c]) /\
    (forall f s, solve X me = Fail f s -> exists s', solve X me' = Fail f s').
Proof. exact (createFineSolver_parent X this fine_time coarse_index sigma c sigma' me). Qed.

(** X16. Two fine solvers of one parent.  Two calls of [createFineSolver]
    on the same caller give two objects at two fresh addresses, in the order
    of the calls at the end of the caller's list; the second call leaves the
    first child as it is and builds its child from the caller's own
    parameters and prefix, which the first call has not changed; no other
    object is touched. *)
Theorem X16_createFineSolver_twice this ft1 ci1 ft2 ci2 sigma c1 sigma1 c2 sigma2 me :
  sigma !! this = Some me ->
  createFineSolver X this ft1 ci1 sigma = Ok c1 sigma1 ->
  createFineSolver X this ft2 ci2 sigma1 = Ok c2 sigma2 ->
  c1 = length sigma /\ c2 = S (length sigma) /\ length sigma2 = S (S (length sigma)) /\
  sigma2 !! c1 = sigma1 !! c1 /\
  (exists child2,
     sigma2 !! c2 = Some child2 /\
     Solver_new (interpolate X (params me) ft2) (createPrecomputed X (precomp me) ci2)
     = Ok tt child2) /\
  (exists me2,
     sigma2 !! this = Some me2 /\ _fine_solvers me2 = _fine_solvers me ++ [c1; c2] /\
     with_fine_solvers (_fine_solvers me) me2 = me) /\
  (forall q, q <> this -> (q < length sigma)%nat -> sigma2 !! q = sigma !! q).
Proof.
  exact (createFineSolver_again X this ft1 ci1 ft2 ci2 sigma c1 sigma1 c2 sigma2 me).
Qed.

(** X17. The document of a completed run.  On the solver a completed run
    left, with a power normalisation at every grid point, [buildXMLDoc]
    completes and appends one element [epke_output] after the children the
    document had: its children [time], [power], [rho] hold the values of the
    grid, of [pow_norm(n) * power(n)] and of [rho(n)], each list joined by
    single blanks with none at the end, and [concentrations] holds one
    element [concentration] per precursor group, in order, with the index of
    the group as attribute [k] and the history of the group as text. *)
Theorem X17_buildXMLDoc_after_solve (format : Z -> float -> string) p h s out s' ch :
  Solver_new p h = Ok tt s -> solve X s = Ok out s' ->
  (length (time p) <= length (pow_norm p))%nat ->
  buildXMLDoc format s' (document ch)
  = Ok tt (document (ch ++ [epke_output format p out])).
Proof. exact (buildXMLDoc_solved X format p h s out s' ch). Qed.

(** X18. A document left half built.  With fewer power normalisations than
    grid points [buildXMLDoc] throws [std::out_of_range], on a solver as
    constructed and on the solver a run left alike, and the document it was
    given is not as it was: the element [epke_output] and its four children
    have been appended, without any text. *)
Theorem X18_buildXMLDoc_partial (format : Z -> float -> string) p h s ch :
  Solver_new p h = Ok tt s ->
  (length (pow_norm p) < length (time p))%nat ->
  buildXMLDoc format s (document ch)
  = Fail out_of_range (document (ch ++ [epke_output_skeleton])) /\
  buildXMLDoc format (state_of (solve X s)) (document ch)
  = Fail out_of_range (document (ch ++ [epke_output_skeleton])).
Proof. exact (buildXMLDoc_short X format p h s ch). Qed.

(** X19. The acceptance test.  [acceptTransformation(n, alpha, gamma)]
    returns a verdict exactly when [1 <= n < NumTimeSteps] and [power] has an
    entry of index [n]; otherwise it throws [std::out_of_range], and it
    fails in no other way.  When [power(n)] or [power(n-1)] is NaN the
    verdict is [false]: the comparison [lhs <= rhs] has NaN on its left. *)
Theorem X19_acceptTransformation s n alpha gamma :
  ((exists v, acceptTransformation X s n alpha gamma = Good v) <->
   (1 <= n < Params.getNumTimeSteps (params s))%Z /\ (n < Z.of_nat (length (power s)))%Z) /\
  (forall f, acceptTransformation X s n alpha gamma = Bad f -> f = out_of_range) /\
  (forall v,
     at_ (power s) n = Good nan \/ at_ (power s) (n - 1) = Good nan ->
     acceptTransformation X s n alpha gamma = Good v -> v = false).
Proof.
  split; [apply acceptTransformation_domain|].
  split; [apply acceptTransformation_Bad | apply acceptTransformation_nan].
Qed.

End Properties.

(** * The claims on the reference reactor *)

Module Examples.
Import Reference.
Local Open Scope float_scope.

(** At rest with a negative gain: the root of the quadratic keeps the power
    at [1]. *)
Example at_rest :
  solve externals (solver (-2) seed1)
  = Ok {| out_power := [1; 1; 1; 1]; out_rho := [0; 0; 0; 0];
          out_concentrations := [[1; 1; 1; 1]] |}
       (state_of (solve externals (solver (-2) seed1))).
Proof. vm_compute. reflexivity. Qed.

(** Without feedback: the linear equation does. *)
Example at_rest_linear :
  computePower_quadratic externals 1 0 1 (solver 0 seed1)
  = Ok (0, -1, 1) (state_of (computePower_quadratic externals 1 0 1 (solver 0 seed1))) /\
  computePower externals 1 0 1 (solver 0 seed1)
  = Ok 1 (state_of (computePower_quadratic externals 1 0 1 (solver 0 seed1))).
Proof. split; vm_compute; reflexivity. Qed.

(** With a positive gain the first step of a run aborts. *)
Example abort_in_step_1 :
  quadratic_at externals (solver 2 seed1) 1
  = Ok (0x1.aaaaaaaaaaaaap-1, -0x1.d555555555555p+0, 1)
       (state_of (quadratic_at externals (solver 2 seed1) 1)) /\
  failure_of (solve externals (solver 2 seed1)) = Some terminate.
Proof. split; vm_compute; reflexivity. Qed.

(** C1 on the reactor at rest with gain [-2], step 1: [a = -5/6],
    [b = -1/6], [c = 1] as binary64 values, and the root is taken. *)
Lemma C1_witness :
  computePower externals 1 0 1 (solver (-2) seed1)
  = Ok ((- (-0x1.5555555555558p-3)
         - sqrt ((-0x1.5555555555558p-3) * (-0x1.5555555555558p-3)
                 - 4 * (-0x1.aaaaaaaaaaaaap-1) * 1))
        / (2 * (-0x1.aaaaaaaaaaaaap-1)))
       (state_of (computePower_quadratic externals 1 0 1 (solver (-2) seed1))).
Proof.
  refine (proj1 (C1_root_selection externals (solver (-2) seed1) 1 0 1
                   (-0x1.aaaaaaaaaaaaap-1) (-0x1.5555555555558p-3) 1
                   (state_of (computePower_quadratic externals 1 0 1 (solver (-2) seed1)))
                   _) _);
    vm_compute; reflexivity.
Defined.

(** C2 on the reactor with gain [2] and a prefix of two entries: the run
    aborts in step 2. *)
Lemma C2_witness :
  exists alpha_n s_n s1,
    for_range (Precomp.getNumTimeSteps (precomp (solver 2 seed2))) 2
      (solve_step externals) 0 (solver 2 seed2) = Ok alpha_n s_n /\
    solve_step externals 2 alpha_n s_n = Fail terminate s1 /\
    solve externals (solver 2 seed2) = Fail terminate s1 /\
    forall i, (2 <= i)%Z -> same_history_at i (solver 2 seed2) s1.
Proof.
  apply (C2_abort_at_step externals (solver 2 seed2) 2). vm_compute. reflexivity.
Defined.

(** Two runs abort on [a > 0], one in step 1 and one in step 2, with the
    same outcome: the outcome does not tell the step. *)
Lemma C2_counterexample :
  positive_at externals (solver 2 seed1) 1 = true /\
  positive_at externals (solver 2 seed2) 2 = true /\
  failure_of (solve externals (solver 2 seed1)) = Some terminate /\
  failure_of (solve externals (solver 2 seed2)) = Some terminate.
Proof. repeat split; vm_compute; reflexivity. Qed.

(** C4 on the reactor at rest with a prefix of one entry. *)
Lemma C4_witness :
  at_ (power (solver (-2) seed1)) 0 = Precomp.getPower seed1 0 /\
  same_history_at 0 (solver (-2) seed1) (state_of (solve externals (solver (-2) seed1))).
Proof.
  destruct (C4_history_invariant externals (parameters (-2)) seed1 (solver (-2) seed1))
    as (H1 & H2 & _); [vm_compute; reflexivity|].
  split; [apply (H1 0%Z) | apply (H2 0%Z)];
    unfold Precomp.getNumTimeSteps; simpl; lia.
Defined.

(** C5 on the reactor at rest with a prefix of one entry: the run takes the
    steps 1, 2 and 3 and returns; the calls of step 1 are the ones listed, and
    the acceptance test is among the calls of no step. *)
Lemma C5_counterexample :
  ~ (forall n, 1 <= n < 4 ->
       call_acceptTransformation n ∈ calls (traced_solve externals (solver (-2) seed1, [])))%Z /\
  untraced (traced_solve externals (solver (-2) seed1, []))
  = solve externals (solver (-2) seed1) /\
  completed (solve externals (solver (-2) seed1)) = true /\
  abc_steps (calls (traced_solve externals (solver (-2) seed1, []))) = [1; 2; 3]%Z /\
  calls (traced_solve_step externals 1 0 (solver (-2) seed1, []))
  = [call_computeGamma 1; call_computePower 1; call_computeDT 1;
     call_computeOmega 0 1; call_computeDT 1; call_computeZetaHat 0 1; call_computeDT 1;
     call_computeA1B1 1; call_computeDT 1; call_computeABC 1; call_computeDT 1;
     call_computeA1B1 1; call_computeDT 1].
Proof.
  split; [|split; [|split; [|split]]; vm_compute; reflexivity].
  intros H. specialize (H 1%Z ltac:(lia)). apply list_elem_of_In in H.
  vm_compute in H. repeat (destruct H as [H|H]; [discriminate H|]). exact H.
Qed.


(** C8 on the reactor whose imposed-reactivity array is too short. *)
Lemma C8_witness :
  exists n alpha_n s_n,
    (Precomp.getNumTimeSteps (precomp short_solver) <= n
     < Params.getNumTimeSteps (params short_solver))%Z /\
    for_range (Precomp.getNumTimeSteps (precomp short_solver)) n
      (solve_step externals) 0 short_solver = Ok alpha_n s_n /\
    solve_step externals n alpha_n s_n
    = Fail out_of_range (state_of (solve externals short_solver)) /\
    unchanged_outside (Precomp.getNumTimeSteps (precomp short_solver)) (n + 1)
      short_solver (state_of (solve externals short_solver)).
Proof.
  apply (C8_failure_in_a_step externals short_solver out_of_range
           (state_of (solve externals short_solver))).
  vm_compute. reflexivity.
Defined.

(** An empty prefix passes the constructor and fails in the first step of
    [solve]. *)
Example empty_prefix :
  Solver_new (parameters (-2)) seed0
  = Ok tt (state_of (Solver_new (parameters (-2)) seed0)) /\
  solve_step externals 0 0 (state_of (Solver_new (parameters (-2)) seed0))
  = Fail out_of_range (state_of (Solver_new (parameters (-2)) seed0)).
Proof. split; vm_compute; reflexivity. Qed.

(** An imposed-reactivity array shorter than the grid passes the constructor
    too; the run fails with [out_of_range] in step 2, after step 1 has
    written [power(1)], an entry beyond the prefix of one entry. *)
Lemma C8_counterexample :
  ~ consistent short_parameters /\
  Solver_new short_parameters seed1 = Ok tt short_solver /\
  Precomp.getNumTimeSteps (precomp short_solver) = 1%Z /\
  failure_of (solve externals short_solver) = Some out_of_range /\
  at_ (power short_solver) 1 = Good 0 /\
  at_ (power (state_of (solve externals short_solver))) 1 = Good 1.
Proof.
  split; [|repeat split; vm_compute; reflexivity].
  intros (_ & _ & H & _). vm_compute in H. discriminate.
Qed.

(** C9 on the reactor at rest: a second run returns the same histories. *)
Lemma C9_witness :
  exists s'',
    solve externals (state_of (solve externals (solver (-2) seed1)))
    = Ok (solve_output (state_of (solve externals (solver (-2) seed1)))) s''.
Proof.
  destruct (C9_determinism externals (parameters (-2)) seed1
              (solver (-2) seed1) (solver (-2) seed1)) as [_ Hagain];
    [vm_compute; reflexivity | vm_compute; reflexivity |].
  apply Hagain.
  - apply (bool_decide_unpack _). vm_compute. reflexivity.
  - unfold Precomp.getNumTimeSteps; simpl; lia.
  - vm_compute. reflexivity.
Defined.

(** C10 on the reactor with gain [2]: its run fails, and fails with
    [terminate]. *)
Lemma C10_witness :
  (forall f s', solve externals (solver 2 seed1) = Fail f s' -> f = terminate) /\
  (forall s0, Precomp.getNumTimeSteps (precomp s0) = 0%Z ->
     (0 < Params.getNumTimeSteps (params s0))%Z ->
     solve externals s0 = Fail out_of_range s0).
Proof.
  apply (C10_accesses_in_bounds externals (parameters 2) seed1 (solver 2 seed1)).
  - apply (bool_decide_unpack _). vm_compute. reflexivity.
  - unfold Precomp.getNumTimeSteps; simpl; lia.
  - vm_compute. reflexivity.
Defined.


(** ** The further properties *)

(** X3 on the reactor with gain [-2] after a negative power: at step 1
    [a = b = -5/6], [c = -1], the discriminant is negative, and the power
    computed is NaN. *)
Lemma X3_witness :
  computePower externals 1 0 1 (solver (-2) seed_negative)
  = Ok nan (state_of (computePower_quadratic externals 1 0 1 (solver (-2) seed_negative))).
Proof.
  apply (X3_complex_root_is_nan externals (solver (-2) seed_negative) 1 0 1
           (-0x1.aaaaaaaaaaaaap-1) (-0x1.aaaaaaaaaaaaap-1) (-1));
    vm_compute; reflexivity.
Defined.

(** The run goes on with it: every entry after the prefix is NaN, and no
    failure is signalled. *)
Example nan_propagates :
  solve externals (solver (-2) seed_negative)
  = Ok {| out_power := [-1; nan; nan; nan]; out_rho := [1; nan; nan; nan];
          out_concentrations := [[1; nan; nan; nan]] |}
       (state_of (solve externals (solver (-2) seed_negative))).
Proof. vm_compute. reflexivity. Qed.

(** X4 on the reactor at rest, step 2. *)
Lemma X4_witness :
  exists a b c t,
    quadratic_at externals (solver (-2) seed1) 2 = Ok (a, b, c) t /\
    positive_at externals (solver (-2) seed1) 2 = false /\ is_nan a = false /\
    (((a <? 0) = true /\
      at_ [1; 1; 1; 1] 2 = Good ((- b - sqrt (b * b - 4 * a * c)) / (2 * a))) \/
     ((a =? 0) = true /\ at_ [1; 1; 1; 1] 2 = Good (- c / b))).
Proof.
  apply (X4_completed_run_roots externals (parameters (-2)) seed1 (solver (-2) seed1)
           {| out_power := [1; 1; 1; 1]; out_rho := [0; 0; 0; 0];
              out_concentrations := [[1; 1; 1; 1]] |}
           (state_of (solve externals (solver (-2) seed1))) 2%Z).
  - vm_compute. reflexivity.
  - vm_compute. reflexivity.
  - unfold Precomp.getNumTimeSteps, Params.getNumTimeSteps; simpl; lia.
Defined.

(** X5: a prefix of one entry fits the grid of four points, a prefix of
    five does not. *)
Lemma X5_witness :
  ((Precomp.getNumTimeSteps seed1 <= Params.getNumTimeSteps (parameters (-2)))%Z ->
     exists s, Solver_new (parameters (-2)) seed1 = Ok tt s) /\
  ((Params.getNumTimeSteps (parameters (-2)) < Precomp.getNumTimeSteps seed1)%Z ->
     exists s, Solver_new (parameters (-2)) seed1 = Fail undefined s).
Proof.
  apply (X5_constructor_fits_or_overflows (parameters (-2)) seed1).
  apply (bool_decide_unpack _). vm_compute. reflexivity.
Defined.

Example prefix_overflows :
  rectangular (parameters (-2)) seed5 /\
  failure_of (Solver_new (parameters (-2)) seed5) = Some undefined.
Proof.
  split; [apply (bool_decide_unpack _); vm_compute; reflexivity | vm_compute; reflexivity].
Qed.

(** X7 on the reactor at rest. *)
Lemma X7_witness :
  length [1; 1; 1; 1] = length (time (parameters (-2))) /\
  length [0; 0; 0; 0] = length (time (parameters (-2))) /\
  length <$> [[1; 1; 1; 1]]
  = replicate (length (decay_constant (parameters (-2)))) (length (time (parameters (-2)))).
Proof.
  apply (X7_output_shape externals (parameters (-2)) seed1 (solver (-2) seed1)
           {| out_power := [1; 1; 1; 1]; out_rho := [0; 0; 0; 0];
              out_concentrations := [[1; 1; 1; 1]] |}
           (state_of (solve externals (solver (-2) seed1))));
    vm_compute; reflexivity.
Defined.

(** X8: a prefix over the four points of the grid. *)
Lemma X8_witness : solve externals (solver (-2) seed4) = Ok seed4 (solver (-2) seed4).
Proof.
  apply (X8_full_prefix_passes_through externals (parameters (-2)) seed4 (solver (-2) seed4)).
  - apply (bool_decide_unpack _). vm_compute. reflexivity.
  - reflexivity.
  - vm_compute. reflexivity.
Defined.

(** X9: the run from a prefix of one entry, restarted from the first two
    entries of its result. *)
Lemma X9_witness :
  exists s2',
    solve externals (solver (-2) seed2)
    = Ok {| out_power := [1; 1; 1; 1]; out_rho := [0; 0; 0; 0];
            out_concentrations := [[1; 1; 1; 1]] |} s2'.
Proof.
  apply (X9_restart externals (parameters (-2)) seed1 (solver (-2) seed1)
           {| out_power := [1; 1; 1; 1]; out_rho := [0; 0; 0; 0];
              out_concentrations := [[1; 1; 1; 1]] |}
           (state_of (solve externals (solver (-2) seed1))) 2%Z seed2 (solver (-2) seed2)).
  - apply (bool_decide_unpack _). vm_compute. reflexivity.
  - unfold Precomp.getNumTimeSteps; simpl; lia.
  - vm_compute. reflexivity.
  - vm_compute. reflexivity.
  - unfold Precomp.getNumTimeSteps, Params.getNumTimeSteps; simpl; lia.
  - reflexivity.
  - intros i Hi. assert (i = 0 \/ i = 1)%Z as [-> | ->] by lia.
    + split; [reflexivity|]. split; [reflexivity|].
      intros k Hk. assert (k = 0%Z) as -> by (unfold Params.getNumPrecursors in Hk; simpl in Hk; lia).
      reflexivity.
    + split; [reflexivity|]. split; [reflexivity|].
      intros k Hk. assert (k = 0%Z) as -> by (unfold Params.getNumPrecursors in Hk; simpl in Hk; lia).
      reflexivity.
  - vm_compute. reflexivity.
Defined.

(** X10 on the reactor at rest, step 2 run again. *)
Lemma X10_witness :
  exists alpha s'',
    solve_step externals 2 0 (state_of (solve externals (solver (-2) seed1)))
    = Ok alpha s'' /\
    power s'' = power (state_of (solve externals (solver (-2) seed1))) /\
    rho s'' = rho (state_of (solve externals (solver (-2) seed1))) /\
    concentrations s'' = concentrations (state_of (solve externals (solver (-2) seed1))).
Proof.
  apply (X10_step_fixed_point externals (parameters (-2)) seed1 (solver (-2) seed1)
           {| out_power := [1; 1; 1; 1]; out_rho := [0; 0; 0; 0];
              out_concentrations := [[1; 1; 1; 1]] |}
           (state_of (solve externals (solver (-2) seed1))) 2%Z).
  - vm_compute. reflexivity.
  - vm_compute. reflexivity.
  - unfold Precomp.getNumTimeSteps, Params.getNumTimeSteps; simpl; lia.
Defined.

(** X11 on the reactor at rest, step 3. *)
Lemma X11_witness :
  exists gamma a1 b1 pn,
    computeGamma (state_of (solve externals (solver (-2) seed1))) 3 = Good gamma /\
    computeA1B1 externals (state_of (solve externals (solver (-2) seed1))) 3 gamma
    = Good (a1, b1) /\
    at_ [1; 1; 1; 1] 3 = Good pn /\
    at_ [0; 0; 0; 0] 3 = Good (a1 * pn + b1).
Proof.
  apply (X11_reactivity_feedback_law externals (parameters (-2)) seed1 (solver (-2) seed1)
           {| out_power := [1; 1; 1; 1]; out_rho := [0; 0; 0; 0];
              out_concentrations := [[1; 1; 1; 1]] |}
           (state_of (solve externals (solver (-2) seed1))) 3%Z).
  - vm_compute. reflexivity.
  - vm_compute. reflexivity.
  - unfold Precomp.getNumTimeSteps, Params.getNumTimeSteps; simpl; lia.
Defined.

(** X12 on the reactor at rest, step 1 and its one precursor group. *)
Lemma X12_witness :
  exists gamma lam dt om zh pn,
    computeGamma (state_of (solve externals (solver (-2) seed1))) 1 = Good gamma /\
    Params.getDecayConstant (parameters (-2)) 0 1 = Good lam /\
    computeDT (state_of (solve externals (solver (-2) seed1))) 1 = Good dt /\
    computeOmega externals (state_of (solve externals (solver (-2) seed1))) 0 1
      (1 / E externals lam dt) gamma = Good om /\
    computeZetaHat externals (state_of (solve externals (solver (-2) seed1))) 0 1
      (1 / E externals lam dt) gamma = Good zh /\
    at_ [1; 1; 1; 1] 1 = Good pn /\
    at2 [[1; 1; 1; 1]] 0 1 = Good (pn * om + zh).
Proof.
  apply (X12_concentration_law externals (parameters (-2)) seed1 (solver (-2) seed1)
           {| out_power := [1; 1; 1; 1]; out_rho := [0; 0; 0; 0];
              out_concentrations := [[1; 1; 1; 1]] |}
           (state_of (solve externals (solver (-2) seed1))) 1%Z 0%Z).
  - vm_compute. reflexivity.
  - vm_compute. reflexivity.
  - unfold Precomp.getNumTimeSteps, Params.getNumTimeSteps; simpl; lia.
  - unfold Params.getNumPrecursors; simpl; lia.
Defined.

(** X13: the reactor at rest on the first three of its four grid points. *)
Lemma X13_witness :
  exists sm sm',
    Solver_new (truncate_parameters 3 (parameters (-2))) seed1 = Ok tt sm /\
    solve externals sm
    = Ok (truncate_output 3 {| out_power := [1; 1; 1; 1]; out_rho := [0; 0; 0; 0];
                               out_concentrations := [[1; 1; 1; 1]] |}) sm'.
Proof.
  apply (X13_truncated_grid externals (parameters (-2)) seed1 (solver (-2) seed1)
           {| out_power := [1; 1; 1; 1]; out_rho := [0; 0; 0; 0];
              out_concentrations := [[1; 1; 1; 1]] |}
           (state_of (solve externals (solver (-2) seed1))) 3%nat).
  - unfold Precomp.getNumTimeSteps, Params.getNumTimeSteps; simpl; lia.
  - vm_compute. reflexivity.
  - vm_compute. reflexivity.
Defined.

(** A reactivity imposed at the last grid point changes the last entries of
    the result, *)
Example late_reactivity :
  solve externals (state_of (Solver_new late_parameters seed1))
  = Ok (solve_output (state_of (solve externals (state_of (Solver_new late_parameters seed1)))))
       (state_of (solve externals (state_of (Solver_new late_parameters seed1)))) /\
  out_power (solve_output (state_of (solve externals (state_of (Solver_new late_parameters seed1)))))
  <> [1; 1; 1; 1].
Proof. split; [vm_compute; reflexivity | vm_compute; discriminate]. Qed.

(** X14: and leaves the first three as they are. *)
Lemma X14_witness :
  truncate_output 3 {| out_power := [1; 1; 1; 1]; out_rho := [0; 0; 0; 0];
                       out_concentrations := [[1; 1; 1; 1]] |}
  = truncate_output 3
      (solve_output (state_of (solve externals (state_of (Solver_new late_parameters seed1))))).
Proof.
  apply (X14_causality externals (parameters (-2)) late_parameters seed1
           (solver (-2) seed1) (state_of (Solver_new late_parameters seed1)) 3%nat
           {| out_power := [1; 1; 1; 1]; out_rho := [0; 0; 0; 0];
              out_concentrations := [[1; 1; 1; 1]] |}
           (state_of (solve externals (solver (-2) seed1)))
           (solve_output (state_of (solve externals (state_of (Solver_new late_parameters seed1)))))
           (state_of (solve externals (state_of (Solver_new late_parameters seed1))))).
  - vm_compute. reflexivity.
  - unfold Precomp.getNumTimeSteps; simpl; lia.
  - unfold Params.getNumTimeSteps; simpl; lia.
  - unfold Params.getNumTimeSteps; simpl; lia.
  - vm_compute. reflexivity.
  - vm_compute. reflexivity.
  - vm_compute. reflexivity.
  - vm_compute. reflexivity.
Defined.

(** X15: the only solver of a store after it has created a fine solver. *)
Lemma X15_witness :
  exists me',
    state_of (createFineSolver externals 0%nat fine_grid 0 [solver (-2) seed2]) !! 0%nat
    = Some me' /\
    _fine_solvers me' = _fine_solvers (solver (-2) seed2) ++ [1%nat] /\
    assembleGlobalOutput me' = assembleGlobalOutput (solver (-2) seed2) /\
    (forall out s, solve externals (solver (-2) seed2) = Ok out s ->
       exists s', solve externals me' = Ok out s' /\
                  _fine_solvers s' = _fine_solvers (solver (-2) seed2) ++ [1%nat]) /\
    (forall f s, solve externals (solver (-2) seed2) = Fail f s ->
       exists s', solve externals me' = Fail f s').
Proof.
  apply (X15_parent_after_createFineSolver externals 0%nat fine_grid 0
           [solver (-2) seed2] 1%nat
           (state_of (createFineSolver externals 0%nat fine_grid 0 [solver (-2) seed2]))
           (solver (-2) seed2)).
  - reflexivity.
  - vm_compute. reflexivity.
Defined.

(** X16: and after it has created a second one, seeded one coarse step
    later. *)
Lemma X16_witness :
  1%nat = length [solver (-2) seed2] /\ 2%nat = S (length [solver (-2) seed2]) /\
  length (state_of (createFineSolver externals 0%nat fine_grid 1
            (state_of (createFineSolver externals 0%nat fine_grid 0 [solver (-2) seed2]))))
  = S (S (length [solver (-2) seed2])) /\
  state_of (createFineSolver externals 0%nat fine_grid 1
    (state_of (createFineSolver externals 0%nat fine_grid 0 [solver (-2) seed2]))) !! 1%nat
  = state_of (createFineSolver externals 0%nat fine_grid 0 [solver (-2) seed2]) !! 1%nat /\
  (exists child2,
     state_of (createFineSolver externals 0%nat fine_grid 1
       (state_of (createFineSolver externals 0%nat fine_grid 0 [solver (-2) seed2]))) !! 2%nat
     = Some child2 /\
     Solver_new (interpolate externals (params (solver (-2) seed2)) fine_grid)
                (createPrecomputed externals (precomp (solver (-2) seed2)) 1)
     = Ok tt child2) /\
  (exists me2,
     state_of (createFineSolver externals 0%nat fine_grid 1
       (state_of (createFineSolver externals 0%nat fine_grid 0 [solver (-2) seed2]))) !! 0%nat
     = Some me2 /\
     _fine_solvers me2 = _fine_solvers (solver (-2) seed2) ++ [1%nat; 2%nat] /\
     with_fine_solvers (_fine_solvers (solver (-2) seed2)) me2 = solver (-2) seed2) /\
  (forall q, q <> 0%nat -> (q < length [solver (-2) seed2])%nat ->
     state_of (createFineSolver externals 0%nat fine_grid 1
       (state_of (createFineSolver externals 0%nat fine_grid 0 [solver (-2) seed2]))) !! q
     = [solver (-2) seed2] !! q).
Proof.
  apply (X16_createFineSolver_twice externals 0%nat fine_grid 0 fine_grid 1
           [solver (-2) seed2] 1%nat
           (state_of (createFineSolver externals 0%nat fine_grid 0 [solver (-2) seed2]))
           2%nat
           (state_of (createFineSolver externals 0%nat fine_grid 1
              (state_of (createFineSolver externals 0%nat fine_grid 0 [solver (-2) seed2]))))
           (solver (-2) seed2)).
  - reflexivity.
  - vm_compute. reflexivity.
  - vm_compute. reflexivity.
Defined.

(** X17: the document of the reactor at rest, appended to an empty
    document. *)
Lemma X17_witness :
  buildXMLDoc stream_format (state_of (solve externals (solver (-2) seed1))) (document [])
  = Ok tt (document
      [element "epke_output" []
         [element "time" [] [pcdata "0 1 2 3"];
          element "power" [] [pcdata "1 1 1 1"];
          element "rho" [] [pcdata "0 0 0 0"];
          element "concentrations" []
            [element "concentration" [("k"%string, "0"%string)] [pcdata "1 1 1 1"]]]]).
Proof.
  apply (X17_buildXMLDoc_after_solve externals stream_format (parameters (-2)) seed1
           (solver (-2) seed1)
           {| out_power := [1; 1; 1; 1]; out_rho := [0; 0; 0; 0];
              out_concentrations := [[1; 1; 1; 1]] |}
           (state_of (solve externals (solver (-2) seed1))) []).
  - vm_compute. reflexivity.
  - vm_compute. reflexivity.
  - simpl. lia.
Defined.

(** X18: with one power normalisation on four grid points, on a prefix
    over the whole grid. *)
Lemma X18_witness :
  buildXMLDoc stream_format (state_of (Solver_new bare_parameters seed4)) (document [])
  = Fail out_of_range (document [epke_output_skeleton]) /\
  buildXMLDoc stream_format
    (state_of (solve externals (state_of (Solver_new bare_parameters seed4)))) (document [])
  = Fail out_of_range (document [epke_output_skeleton]).
Proof.
  apply (X18_buildXMLDoc_partial externals stream_format bare_parameters seed4
           (state_of (Solver_new bare_parameters seed4)) []).
  - vm_compute. reflexivity.
  - simpl. lia.
Defined.

End Examples.
